(** * A reactive dependency-tracking runtime: effects, track/trigger, computed

    Shallow embedding of [effect.ts] (the effect life cycle, the tracking
    context, [track] and [trigger]) and of [computed.ts] (the lazily
    recomputed derived value).  JavaScript objects are represented by their
    identity: an effect is an index into the table of effect objects, a
    Dependency Set is identified by the slot that owns it (a (target, key)
    slot of [targetMap] or the [dep] field of a computed), and user
    functions are programs of a small continuation-passing command type
    whose commands are the calls into the runtime. *)

From Stdlib Require Import ZArith Lia Ascii String.
From stdpp Require Import base option list gmap strings.

Set Default Proof Using "Type".
Set Warnings "-register-all".
Open Scope Z_scope.

(** ** Values, keys, targets *)

(** JavaScript values that cross the runtime's interface: numbers (integers
    here) and [undefined]. *)
Inductive value := VUndefined | VNum (z : Z).

#[global] Instance value_eq_dec : EqDecision value.
Proof. solve_decision. Defined.

(** Property keys: strings and symbols.  The two synthetic iteration keys
    of [effect.ts] are symbols. *)
Inductive key := KStr (s : string) | KSym (id : nat).

#[global] Instance key_eq_dec : EqDecision key.
Proof. solve_decision. Defined.

Definition ITERATE_KEY : key := KSym 0.
Definition MAP_KEY_ITERATE_KEY : key := KSym 1.
Definition LENGTH_KEY : key := KStr "length".

(** What [isArray] and [isMap] see of a target object. *)
Inductive Shape := PlainObject | ArrayObject | MapObject | SetObject.

#[global] Instance Shape_eq_dec : EqDecision Shape.
Proof. solve_decision. Defined.

Record target := Target { shape : Shape; ident : nat }.

#[global] Instance target_eq_dec : EqDecision target.
Proof. solve_decision. Defined.

Definition Shape_to_nat (s : Shape) : nat :=
  match s with PlainObject => 0 | ArrayObject => 1 | MapObject => 2 | SetObject => 3 end%nat.

Definition Shape_of_nat (n : nat) : Shape :=
  match n with O => PlainObject | 1 => ArrayObject | 2 => MapObject | _ => SetObject end%nat.

#[global] Instance target_countable : Countable target.
Proof.
  apply (inj_countable' (fun t => (Shape_to_nat (shape t), ident t))
           (fun p => Target (Shape_of_nat p.1) p.2)).
  intros [[] i]; reflexivity.
Defined.

Definition isArray (t : target) : bool := bool_decide (shape t = ArrayObject).
Definition isMap (t : target) : bool := bool_decide (shape t = MapObject).

(** Operation kinds passed to [track] and [trigger] ([operations.ts]). *)
Inductive TrackOpTypes := GET | HAS | ITERATE.
Inductive TriggerOpTypes := SET | ADD | DELETE | CLEAR.

#[global] Instance TriggerOpTypes_eq_dec : EqDecision TriggerOpTypes.
Proof. solve_decision. Defined.

(** ** 32-bit integer operators of JavaScript ([<<], [|], [&], [~]) *)

Definition int32 (z : Z) : Z := (z + 2 ^ 31) mod 2 ^ 32 - 2 ^ 31.
Definition shl (a cnt : Z) : Z := int32 (Z.shiftl a (cnt mod 32)).
Definition bor (a b : Z) : Z := int32 (Z.lor a b).
Definition band (a b : Z) : Z := int32 (Z.land a b).
Definition bnot (a : Z) : Z := int32 (Z.lnot a).

(** ** Object identities *)

(** An effect object is its index in the table of effects, a computed its
    index in the table of computeds. *)
Abbreviation eid := nat (only parsing).
Abbreviation cid := nat (only parsing).

(** A Dependency Set is owned by exactly one slot, is created when the slot
    is first read and is never replaced or removed, so the slot is its
    identity. *)
Inductive depref := DLoc (t : target) (k : key) | DComputed (c : cid).

#[global] Instance depref_eq_dec : EqDecision depref.
Proof. solve_decision. Defined.

(** ** User functions

    Effect bodies, getters, schedulers and hooks are JavaScript closures.
    What the runtime can observe of a closure is the sequence of calls it
    makes into the runtime, which may depend on the values those calls
    return and on local variables the closure captures.  [ReadVar] and
    [WriteVar] access such a captured variable. *)
Inductive prog :=
| Ret (v : value)
| Throw
| Track (t : target) (ty : TrackOpTypes) (k : key) (next : prog)
| Trigger (t : target) (ty : TriggerOpTypes) (k : option key)
    (newValue : value) (next : prog)
| PauseTracking (next : prog)
| EnableTracking (next : prog)
| ResetTracking (next : prog)
| NewEffect (fn : prog + eid) (lazy : bool) (sched : option prog)
    (allowRec : bool) (onstop : option prog) (next : eid -> prog)
| Run (e : eid) (next : value -> prog)
| Stop (e : eid) (next : prog)
| NewComputed (getter : prog) (setter : option (value -> prog)) (isSSR : bool)
    (next : cid -> prog)
| GetValue (c : cid) (next : value -> prog)
| SetValue (c : cid) (v : value) (next : prog)
| ReadVar (x : nat) (next : value -> prog)
| WriteVar (x : nat) (v : value) (next : prog).

(** A function value the runtime may call: a user function, or the arrow
    function that the constructor of [ComputedRefImpl] installs as the
    scheduler of its effect. *)
Inductive closure := UserFn (p : prog) | ComputedScheduler (c : cid).

(** ** Objects *)

(** [Dep]: a [Set] of effects in insertion order, with the two marker
    masks [w] and [n]. *)
Record Dep := mkDep { members : list eid; dep_w : Z; dep_n : Z }.

Record ReactiveEffect := mkEffect {
  active : bool;
  deps : list depref;
  parent : option eid;
  computed : option cid;
  allowRecurse : bool;
  deferStop : bool;
  onStop : option prog;
  fn : prog;
  scheduler : option closure
}.

Record ComputedRefImpl := mkComputed {
  dep : option Dep;
  _value : value;
  effect : eid;
  __v_isReadonly : bool;
  _dirty : bool;
  _cacheable : bool;
  _setter : value -> prog
}.

(** [KeyToDepMap]: a [Map] in insertion order. *)
Definition KeyToDepMap := list (key * Dep).

(** Instrumentation: one event each time the runtime calls a body, an
    [onStop] hook or a scheduler. *)
Inductive event := EvFn (e : eid) | EvOnStop (e : eid) | EvScheduler (e : eid).

#[global] Instance event_eq_dec : EqDecision event.
Proof. solve_decision. Defined.

(** The module state of [effect.ts], the object tables and the captured
    variables of the user functions. *)
Record State := mkState {
  targetMap : gmap target KeyToDepMap;
  effectTrackDepth : Z;
  trackOpBit : Z;
  activeEffect : option eid;
  shouldTrack : bool;
  trackStack : list bool;
  effects : list ReactiveEffect;
  computeds : list ComputedRefImpl;
  vars : gmap nat value;
  trace : list event
}.

Definition maxMarkerBits : Z := 30.

Definition initial : State :=
  {| targetMap := ∅; effectTrackDepth := 0; trackOpBit := 1;
     activeEffect := None; shouldTrack := true; trackStack := [];
     effects := []; computeds := []; vars := ∅; trace := [] |}.

(** *** Field updates *)

Definition set_targetMap (f : gmap target KeyToDepMap -> gmap target KeyToDepMap)
    (st : State) : State :=
  mkState (f (targetMap st)) (effectTrackDepth st) (trackOpBit st) (activeEffect st)
    (shouldTrack st) (trackStack st) (effects st) (computeds st) (vars st) (trace st).

Definition set_depth (d bit : Z) (st : State) : State :=
  mkState (targetMap st) d bit (activeEffect st)
    (shouldTrack st) (trackStack st) (effects st) (computeds st) (vars st) (trace st).

Definition set_activeEffect (a : option eid) (st : State) : State :=
  mkState (targetMap st) (effectTrackDepth st) (trackOpBit st) a
    (shouldTrack st) (trackStack st) (effects st) (computeds st) (vars st) (trace st).

Definition set_shouldTrack (b : bool) (st : State) : State :=
  mkState (targetMap st) (effectTrackDepth st) (trackOpBit st) (activeEffect st)
    b (trackStack st) (effects st) (computeds st) (vars st) (trace st).

Definition set_trackStack (l : list bool) (st : State) : State :=
  mkState (targetMap st) (effectTrackDepth st) (trackOpBit st) (activeEffect st)
    (shouldTrack st) l (effects st) (computeds st) (vars st) (trace st).

Definition set_effects (f : list ReactiveEffect -> list ReactiveEffect)
    (st : State) : State :=
  mkState (targetMap st) (effectTrackDepth st) (trackOpBit st) (activeEffect st)
    (shouldTrack st) (trackStack st) (f (effects st)) (computeds st) (vars st) (trace st).

Definition set_computeds (f : list ComputedRefImpl -> list ComputedRefImpl)
    (st : State) : State :=
  mkState (targetMap st) (effectTrackDepth st) (trackOpBit st) (activeEffect st)
    (shouldTrack st) (trackStack st) (effects st) (f (computeds st)) (vars st) (trace st).

Definition set_vars (f : gmap nat value -> gmap nat value) (st : State) : State :=
  mkState (targetMap st) (effectTrackDepth st) (trackOpBit st) (activeEffect st)
    (shouldTrack st) (trackStack st) (effects st) (computeds st) (f (vars st)) (trace st).

Definition log (ev : event) (st : State) : State :=
  mkState (targetMap st) (effectTrackDepth st) (trackOpBit st) (activeEffect st)
    (shouldTrack st) (trackStack st) (effects st) (computeds st) (vars st)
    (trace st ++ [ev]).

Definition with_active (b : bool) (x : ReactiveEffect) : ReactiveEffect :=
  mkEffect b (deps x) (parent x) (computed x) (allowRecurse x) (deferStop x)
    (onStop x) (fn x) (scheduler x).

Definition with_deps (l : list depref) (x : ReactiveEffect) : ReactiveEffect :=
  mkEffect (active x) l (parent x) (computed x) (allowRecurse x) (deferStop x)
    (onStop x) (fn x) (scheduler x).

Definition with_parent (p : option eid) (x : ReactiveEffect) : ReactiveEffect :=
  mkEffect (active x) (deps x) p (computed x) (allowRecurse x) (deferStop x)
    (onStop x) (fn x) (scheduler x).

Definition with_deferStop (b : bool) (x : ReactiveEffect) : ReactiveEffect :=
  mkEffect (active x) (deps x) (parent x) (computed x) (allowRecurse x) b
    (onStop x) (fn x) (scheduler x).

Definition with_members (l : list eid) (d : Dep) : Dep := mkDep l (dep_w d) (dep_n d).
Definition with_w (z : Z) (d : Dep) : Dep := mkDep (members d) z (dep_n d).
Definition with_n (z : Z) (d : Dep) : Dep := mkDep (members d) (dep_w d) z.

Definition with_dep (d : option Dep) (c : ComputedRefImpl) : ComputedRefImpl :=
  mkComputed d (_value c) (effect c) (__v_isReadonly c) (_dirty c) (_cacheable c)
    (_setter c).

Definition with_dirty (b : bool) (c : ComputedRefImpl) : ComputedRefImpl :=
  mkComputed (dep c) (_value c) (effect c) (__v_isReadonly c) b (_cacheable c)
    (_setter c).

Definition with_value (v : value) (c : ComputedRefImpl) : ComputedRefImpl :=
  mkComputed (dep c) v (effect c) (__v_isReadonly c) (_dirty c) (_cacheable c)
    (_setter c).

(** [x.f = v] on the effect object [e]. *)
Definition update_effect (e : eid) (f : ReactiveEffect -> ReactiveEffect)
    (st : State) : State :=
  set_effects (alter f e) st.

Definition update_computed (c : cid) (f : ComputedRefImpl -> ComputedRefImpl)
    (st : State) : State :=
  set_computeds (alter f c) st.

(** ** [Set] and [Map] operations *)

Definition set_add (x : eid) (l : list eid) : list eid :=
  if decide (x ∈ l) then l else l ++ [x].

Definition set_delete (x : eid) (l : list eid) : list eid :=
  filter (fun y => y ≠ x) l.

Definition set_has (x : eid) (l : list eid) : bool := bool_decide (x ∈ l).

(** [new Set(iterable)] *)
Definition set_of_list (l : list eid) : list eid := foldl (fun acc x => set_add x acc) [] l.

Fixpoint kget (k : key) (m : KeyToDepMap) : option Dep :=
  match m with
  | [] => None
  | (k', d) :: m' => if decide (k = k') then Some d else kget k m'
  end.

Fixpoint kalter (f : Dep -> Dep) (k : key) (m : KeyToDepMap) : KeyToDepMap :=
  match m with
  | [] => []
  | (k', d) :: m' =>
      if decide (k = k') then (k', f d) :: m' else (k', d) :: kalter f k m'
  end.

(** [m.set(k, d)]: an existing entry keeps its place, a new one goes last. *)
Definition kset (k : key) (d : Dep) (m : KeyToDepMap) : KeyToDepMap :=
  match kget k m with
  | Some _ => kalter (fun _ => d) k m
  | None => m ++ [(k, d)]
  end.

(** *** Dependency Sets by identity *)

Definition lookup_dep (r : depref) (st : State) : option Dep :=
  match r with
  | DLoc t k => targetMap st !! t ≫= kget k
  | DComputed c => computeds st !! c ≫= dep
  end.

Definition alter_dep (f : Dep -> Dep) (r : depref) (st : State) : State :=
  match r with
  | DLoc t k => set_targetMap (alter (kalter f k) t) st
  | DComputed c => update_computed c (fun x => with_dep (f <$> dep x) x) st
  end.

(** ** [dep.ts] *)

(** Modelled from the spec: [createDep] of [dep.ts], which is not among the
    sources: a Dependency Set is a set of effects with two marker masks,
    both empty at creation. *)
Definition createDep (effs : list eid) : Dep :=
  {| members := set_of_list effs; dep_w := 0; dep_n := 0 |}.

(** Modelled from the spec: [wasTracked] and [newTracked] of [dep.ts], which
    are not among the sources: the bit owned by the current nesting depth in
    the was-tracked, respectively newly-tracked, mask. *)
Definition wasTracked (d : Dep) (bit : Z) : bool := 0 <? band (dep_w d) bit.
Definition newTracked (d : Dep) (bit : Z) : bool := 0 <? band (dep_n d) bit.

(** Modelled from the spec: [finalizeDepMarkers] of [dep.ts], which is not
    among the sources: a set on the effect's list whose was-tracked bit is
    set and whose newly-tracked bit is not loses the effect, the list is
    compacted to the other sets, and, the markers being those of one run at
    one depth, the bit of the current depth is cleared in both masks of
    every set on the list. *)
Definition finalizeDep (e : eid) (bit : Z) (acc : State * list depref) (r : depref)
    : State * list depref :=
  let (st, kept) := acc in
  match lookup_dep r st with
  | None => (st, kept ++ [r])
  | Some d =>
      let drop := wasTracked d bit && negb (newTracked d bit) in
      let st1 := if drop then alter_dep (fun x => with_members (set_delete e (members x)) x) r st
                 else st in
      let st2 := alter_dep (fun x => with_n (band (dep_n x) (bnot bit))
                                      (with_w (band (dep_w x) (bnot bit)) x)) r st1 in
      (st2, if drop then kept else kept ++ [r])
  end.

Definition finalizeDepMarkers (e : eid) (st : State) : State :=
  match effects st !! e with
  | None => st
  | Some x =>
      match deps x with
      | [] => st
      | ds =>
          let (st', kept) := foldl (finalizeDep e (trackOpBit st)) (st, []) ds in
          update_effect e (with_deps kept) st'
      end
  end.

(** ** The tracking-suppression stack

    [trackStack] is an array used as a stack: [push] appends, [pop] removes
    and returns the last element, or [undefined] on an empty array. *)

Definition array_pop {A} (l : list A) : option A * list A := (last l, removelast l).

Definition pauseTracking (st : State) : State :=
  set_shouldTrack false (set_trackStack (trackStack st ++ [shouldTrack st]) st).

Definition enableTracking (st : State) : State :=
  set_shouldTrack true (set_trackStack (trackStack st ++ [shouldTrack st]) st).

Definition resetTracking (st : State) : State :=
  let (last, rest) := array_pop (trackStack st) in
  set_shouldTrack (match last with None => true | Some b => b end)
    (set_trackStack rest st).

(** ** [cleanupEffect], [track], [trackEffects], [trackRefValue] *)

Definition cleanupEffect (e : eid) (st : State) : State :=
  match effects st !! e with
  | None => st
  | Some x =>
      match deps x with
      | [] => st
      | ds =>
          update_effect e (with_deps [])
            (foldl (fun s r =>
                      alter_dep (fun d => with_members (set_delete e (members d)) d) r s)
               st ds)
      end
  end.

(** [trackEffects(dep)]; its callers have tested [activeEffect]. *)
Definition trackEffects (r : depref) (st : State) : State :=
  match activeEffect st, lookup_dep r st with
  | Some e, Some d =>
      let '(st1, shouldTrack') :=
        if effectTrackDepth st <=? maxMarkerBits then
          if negb (newTracked d (trackOpBit st)) then
            (alter_dep (fun x => with_n (bor (dep_n x) (trackOpBit st)) x) r st,
             negb (wasTracked d (trackOpBit st)))
          else (st, false)
        else (st, negb (set_has e (members d))) in
      if shouldTrack' then
        update_effect e (fun x => with_deps (deps x ++ [r]) x)
          (alter_dep (fun x => with_members (set_add e (members x)) x) r st1)
      else st1
  | _, _ => st
  end.

(** The slot of ([t], [k]) in [targetMap], created when absent. *)
Definition ensure_dep (t : target) (k : key) (st : State) : State :=
  let st1 := match targetMap st !! t with
             | None => set_targetMap (insert t []) st
             | Some _ => st
             end in
  match lookup_dep (DLoc t k) st1 with
  | None => set_targetMap (alter (kset k (createDep [])) t) st1
  | Some _ => st1
  end.

Definition track (t : target) (ty : TrackOpTypes) (k : key) (st : State) : State :=
  match shouldTrack st, activeEffect st with
  | true, Some _ => trackEffects (DLoc t k) (ensure_dep t k st)
  | _, _ => st
  end.

(** [trackRefValue(ref)] for a computed; [toRaw] is the identity on an
    object that is not a reactive proxy. *)
Definition ensure_ref_dep (c : cid) (st : State) : State :=
  update_computed c
    (fun x => match dep x with
              | Some _ => x
              | None => with_dep (Some (createDep [])) x
              end) st.

Definition trackRefValue (c : cid) (st : State) : State :=
  match shouldTrack st, activeEffect st with
  | true, Some _ => trackEffects (DComputed c) (ensure_ref_dep c st)
  | _, _ => st
  end.

(** ** Keys as numbers *)

Definition digit_of (c : ascii) : option Z :=
  let v := Z.of_nat (nat_of_ascii c) in
  if (48 <=? v) && (v <=? 57) then Some (v - 48) else None.

Fixpoint digits_value (acc : Z) (s : string) : option Z :=
  match s with
  | EmptyString => Some acc
  | String c s' => d ← digit_of c; digits_value (10 * acc + d) s'
  end.

(** [ToNumber] on a string, for the decimal integers (the empty string is
    0); [None] is [NaN].  The other spellings that [ToNumber] accepts
    (surrounding white space, fractions, exponents, radix prefixes,
    [Infinity]) are not used as keys here. *)
Definition StringToNumber (s : string) : option Z :=
  match s with
  | EmptyString => Some 0
  | String "-" EmptyString => None
  | String "-" s' => Z.opp <$> digits_value 0 s'
  | _ => digits_value 0 s
  end.

(** [key >= newValue], the right operand being a number or [undefined]:
    [Some b] is the boolean result, [None] the [TypeError] raised when a
    symbol is converted to a number. *)
Definition js_ge (k : key) (newValue : value) : option bool :=
  match k with
  | KSym _ => None
  | KStr s =>
      match StringToNumber s, newValue with
      | Some m, VNum z => Some (z <=? m)
      | _, _ => Some false
      end
  end.

(** Modelled from the spec: [isIntegerKey] of the shared helpers, which is
    not among the sources: the key is a string that spells a non-negative
    integer in decimal, without a leading zero. *)
Definition isIntegerKey (k : option key) : bool :=
  match k with
  | Some (KStr (String c s')) =>
      bool_decide (is_Some (digits_value 0 (String c s')))
      && (bool_decide (c ≠ "0"%char) || bool_decide (s' = EmptyString))
  | _ => false
  end.

(** ** [trigger]: the affected Dependency Sets *)

(** [depsMap.get(k)] as a reference, [None] being [undefined]. *)
Definition get_dep (t : target) (depsMap : KeyToDepMap) (k : key) : option depref :=
  match kget k depsMap with
  | Some _ => Some (DLoc t k)
  | None => None
  end.

(** The [forEach] of the [length] branch. *)
Fixpoint collect_length (t : target) (newValue : value) (depsMap : KeyToDepMap)
    (acc : list (option depref)) : option (list (option depref)) :=
  match depsMap with
  | [] => Some acc
  | (k, _) :: rest =>
      if decide (k = LENGTH_KEY) then
        collect_length t newValue rest (acc ++ [Some (DLoc t k)])
      else
        match js_ge k newValue with
        | None => None
        | Some true => collect_length t newValue rest (acc ++ [Some (DLoc t k)])
        | Some false => collect_length t newValue rest acc
        end
  end.

(** The array [deps] that [trigger] builds from [depsMap]; [None] when
    building it raises. *)
Definition collect_deps (t : target) (depsMap : KeyToDepMap) (ty : TriggerOpTypes)
    (k : option key) (newValue : value) : option (list (option depref)) :=
  if decide (ty = CLEAR) then
    Some (map (fun kd => Some (DLoc t kd.1)) depsMap)
  else if bool_decide (k = Some LENGTH_KEY) && isArray t then
    collect_length t newValue depsMap []
  else
    Some
      (match k with Some k' => [get_dep t depsMap k'] | None => [] end
       ++ match ty with
          | ADD =>
              if negb (isArray t) then
                get_dep t depsMap ITERATE_KEY
                :: (if isMap t then [get_dep t depsMap MAP_KEY_ITERATE_KEY] else [])
              else if isIntegerKey k then [get_dep t depsMap LENGTH_KEY]
              else []
          | DELETE =>
              if negb (isArray t) then
                get_dep t depsMap ITERATE_KEY
                :: (if isMap t then [get_dep t depsMap MAP_KEY_ITERATE_KEY] else [])
              else []
          | SET => if isMap t then [get_dep t depsMap ITERATE_KEY] else []
          | CLEAR => []
          end).

Definition members_of (r : depref) (st : State) : list eid :=
  match lookup_dep r st with Some d => members d | None => [] end.

(** ** Results *)

(** A call returns a value or raises; [None] is a call that does not
    return (unbounded recursion). *)
Inductive outcome := Normal (v : value) | Thrown.

Definition Res : Type := option (outcome * State).

Definition ret (v : value) (st : State) : Res := Some (Normal v, st).
Definition throw (st : State) : Res := Some (Thrown, st).

(** [r; k]: the continuation runs when [r] returns normally. *)
Definition bindR (r : Res) (k : value -> State -> Res) : Res :=
  match r with
  | Some (Normal v, st) => k v st
  | Some (Thrown, st) => Some (Thrown, st)
  | None => None
  end.

(** [try { r } finally { fin }]: the completion of the [try] block is kept
    unless the [finally] block raises. *)
Definition finallyR (r : Res) (fin : State -> Res) : Res :=
  match r with
  | Some (o, st) =>
      match fin st with
      | Some (Normal _, st') => Some (o, st')
      | Some (Thrown, st') => Some (Thrown, st')
      | None => None
      end
  | None => None
  end.

Definition parent_of (st : State) (e : eid) : option eid :=
  effects st !! e ≫= parent.

(** The loop [while (parent) { if (parent === this) return; parent =
    parent.parent }] of [run]: [Some true] when [this] is met, [Some false]
    when the chain ends.  [n] bounds the number of steps. *)
Fixpoint walkParents (n : nat) (st : State) (p : option eid) (this : eid) : option bool :=
  match p with
  | None => Some false
  | Some x =>
      if decide (x = this) then Some true
      else match n with
           | O => None
           | S n' => walkParents n' st (parent_of st x) this
           end
  end.

(** A chain of distinct effect objects is no longer than the table of
    effects; a longer walk is on a cycle, where the source loops forever. *)
Definition inParentChain (st : State) (this : eid) : option bool :=
  walkParents (S (length (effects st))) st (activeEffect st) this.

(** The assignments of the [finally] block of [ReactiveEffect.run], up to
    the test of [deferStop]. *)
Definition run_exit (e : eid) (lastShouldTrack : bool) (st : State) : State :=
  let st1 := if effectTrackDepth st <=? maxMarkerBits
             then finalizeDepMarkers e st else st in
  let d := effectTrackDepth st1 - 1 in
  let st2 := set_depth d (shl 1 d) st1 in
  let st3 := set_activeEffect (parent_of st2 e) st2 in
  let st4 := set_shouldTrack lastShouldTrack st3 in
  update_effect e (with_parent None) st4.

(** The assignments of the [try] block of [ReactiveEffect.run], up to the
    call of the body. *)
Definition run_enter (e : eid) (st : State) : State :=
  let st1 := update_effect e (with_parent (activeEffect st)) st in
  let st2 := set_activeEffect (Some e) st1 in
  let st3 := set_shouldTrack true st2 in
  let d := effectTrackDepth st3 + 1 in
  let st4 := set_depth d (shl 1 d) st3 in
  cleanupEffect e st4.

(** ** The runtime, given the way to call a function value *)

Section Runtime.

Variable call : closure -> State -> Res.

(** [ReactiveEffect.stop] *)
Definition stop (e : eid) (st : State) : Res :=
  match effects st !! e with
  | None => throw st
  | Some x =>
      if decide (activeEffect st = Some e) then
        ret VUndefined (update_effect e (with_deferStop true) st)
      else if active x then
        let st1 := cleanupEffect e st in
        bindR (match onStop x with
               | Some h => call (UserFn h) (log (EvOnStop e) st1)
               | None => ret VUndefined st1
               end)
          (fun _ st2 => ret VUndefined (update_effect e (with_active false) st2))
      else ret VUndefined st
  end.

(** The [finally] block of [ReactiveEffect.run]: the context is restored
    ([run_exit], below), then a deferred stop is performed. *)
Definition run_finally (e : eid) (lastShouldTrack : bool) (st : State) : Res :=
  let st5 := run_exit e lastShouldTrack st in
  match effects st5 !! e with
  | Some x => if deferStop x then stop e st5 else ret VUndefined st5
  | None => ret VUndefined st5
  end.

(** [ReactiveEffect.run] *)
Definition run (e : eid) (st : State) : Res :=
  match effects st !! e with
  | None => throw st
  | Some x =>
      if negb (active x) then call (UserFn (fn x)) (log (EvFn e) st)
      else
        let lastShouldTrack := shouldTrack st in
        match inParentChain st e with
        | None => None
        | Some true => ret VUndefined st
        | Some false =>
            finallyR (call (UserFn (fn x)) (log (EvFn e) (run_enter e st)))
              (run_finally e lastShouldTrack)
        end
  end.

(** [triggerEffect] *)
Definition triggerEffect (e : eid) (st : State) : Res :=
  match effects st !! e with
  | None => throw st
  | Some x =>
      if negb (bool_decide (Some e = activeEffect st)) || allowRecurse x then
        match scheduler x with
        | Some s => bindR (call s (log (EvScheduler e) st)) (fun _ => ret VUndefined)
        | None => bindR (run e st) (fun _ => ret VUndefined)
        end
      else ret VUndefined st
  end.

(** [triggerEffects], on the array [[...dep]]. *)
Fixpoint triggerEffects (es : list eid) (st : State) : Res :=
  match es with
  | [] => ret VUndefined st
  | e :: es' => bindR (triggerEffect e st) (fun _ => triggerEffects es')
  end.

(** [trigger] *)
Definition trigger (t : target) (ty : TriggerOpTypes) (k : option key)
    (newValue : value) (st : State) : Res :=
  match targetMap st !! t with
  | None => ret VUndefined st
  | Some depsMap =>
      match collect_deps t depsMap ty k newValue with
      | None => throw st
      | Some [d] =>
          match d with
          | Some r => triggerEffects (members_of r st) st
          | None => ret VUndefined st
          end
      | Some ds =>
          let effs := concat (map (fun d => match d with
                                            | Some r => members_of r st
                                            | None => []
                                            end) ds) in
          triggerEffects (members (createDep effs)) st
      end
  end.

(** [triggerRefValue(ref)] for a computed. *)
Definition triggerRefValue (c : cid) (st : State) : Res :=
  match computeds st !! c ≫= dep with
  | Some d => triggerEffects (members d) st
  | None => ret VUndefined st
  end.

(** The scheduler that the constructor of [ComputedRefImpl] gives to its
    effect. *)
Definition computedScheduler (c : cid) (st : State) : Res :=
  match computeds st !! c with
  | None => throw st
  | Some x =>
      if negb (_dirty x) then
        triggerRefValue c (update_computed c (with_dirty true) st)
      else ret VUndefined st
  end.

(** [get value()] of [ComputedRefImpl] *)
Definition get_value (c : cid) (st : State) : Res :=
  match computeds st !! c with
  | None => throw st
  | Some _ =>
      let st1 := trackRefValue c st in
      match computeds st1 !! c with
      | None => throw st1
      | Some x =>
          bindR (if _dirty x || negb (_cacheable x) then
                   bindR (run (effect x) (update_computed c (with_dirty false) st1))
                     (fun v st2 => ret VUndefined (update_computed c (with_value v) st2))
                 else ret VUndefined st1)
            (fun _ st3 =>
               match computeds st3 !! c with
               | Some y => ret (_value y) st3
               | None => throw st3
               end)
      end
  end.

(** [set value(newValue)] of [ComputedRefImpl] *)
Definition set_value (c : cid) (v : value) (st : State) : Res :=
  match computeds st !! c with
  | None => throw st
  | Some x => bindR (call (UserFn (_setter x v)) st) (fun _ => ret VUndefined)
  end.

(** [new ReactiveEffect(fn, scheduler)]; no effect scope is active. *)
Definition new_effect (f : prog) (s : option closure) (st : State) : eid * State :=
  (length (effects st),
   set_effects (fun l => l ++ [mkEffect true [] None None false false None f s]) st).

(** [effect(fn, options)]: the runner returned is identified with its
    effect; absent options are an options object without fields. *)
Definition effect_ (f : prog + eid) (lazy : bool) (sched : option prog)
    (allowRec : bool) (onstop : option prog) (st : State) : option (Res * eid) :=
  match (match f with
         | inl p => Some p
         | inr r => fn <$> effects st !! r
         end) with
  | None => None
  | Some p =>
      let (e, st1) := new_effect p None st in
      let st2 := update_effect e
                   (fun x => mkEffect (active x) (deps x) (parent x) (computed x)
                               allowRec (deferStop x) onstop (fn x)
                               (UserFn <$> sched)) st1 in
      Some (if lazy then ret VUndefined st2 else run e st2, e)
  end.

(** [computed(getterOrOptions, debugOptions, isSSR)] *)
Definition computed_ (getter : prog) (setter : option (value -> prog))
    (isSSR : bool) (st : State) : cid * State :=
  let c := length (computeds st) in
  let (e, st1) := new_effect getter (Some (ComputedScheduler c)) st in
  let st2 := update_effect e
               (fun x => mkEffect (negb isSSR) (deps x) (parent x) (Some c)
                           (allowRecurse x) (deferStop x) (onStop x) (fn x)
                           (scheduler x)) st1 in
  (c,
   set_computeds
     (fun l => l ++ [mkComputed None VUndefined e
                       (match setter with None => true | Some _ => false end)
                       true (negb isSSR)
                       (match setter with
                        | Some s => s
                        | None => fun _ => Ret VUndefined
                        end)]) st2).

(** A user function, command by command. *)
Fixpoint exec (p : prog) (st : State) : Res :=
  match p with
  | Ret v => ret v st
  | Throw => throw st
  | Track t ty k next => exec next (track t ty k st)
  | Trigger t ty k nv next => bindR (trigger t ty k nv st) (fun _ => exec next)
  | PauseTracking next => exec next (pauseTracking st)
  | EnableTracking next => exec next (enableTracking st)
  | ResetTracking next => exec next (resetTracking st)
  | NewEffect f lazy sched allowRec onstop next =>
      match effect_ f lazy sched allowRec onstop st with
      | None => throw st
      | Some (r, e) => bindR r (fun _ => exec (next e))
      end
  | Run e next => bindR (run e st) (fun v => exec (next v))
  | Stop e next => bindR (stop e st) (fun _ => exec next)
  | NewComputed getter setter isSSR next =>
      let (c, st1) := computed_ getter setter isSSR st in exec (next c) st1
  | GetValue c next => bindR (get_value c st) (fun v => exec (next v))
  | SetValue c v next => bindR (set_value c v st) (fun _ => exec next)
  | ReadVar x next => exec (next (default VUndefined (vars st !! x))) st
  | WriteVar x v next => exec next (set_vars (insert x v) st)
  end.

End Runtime.

(** ** Calls, bounded in depth *)

(** [fuel] bounds the nesting of calls of function values. *)
Fixpoint call_n (fuel : nat) (c : closure) (st : State) : Res :=
  match fuel with
  | O => None
  | S f =>
      match c with
      | UserFn p => exec (call_n f) p st
      | ComputedScheduler c' => computedScheduler (call_n f) c' st
      end
  end.

(** The runtime at a given call depth. *)
Definition run_n (fuel : nat) := run (call_n fuel).
Definition stop_n (fuel : nat) := stop (call_n fuel).
Definition trigger_n (fuel : nat) := trigger (call_n fuel).
Definition triggerEffect_n (fuel : nat) := triggerEffect (call_n fuel).
Definition get_value_n (fuel : nat) := get_value (call_n fuel).

(** ** What the specification says [trigger] collects *)

(** The Dependency Sets that [trigger] goes on to use: the entries of
    [deps] that are not [undefined]. *)
Fixpoint defined (ds : list (option depref)) : list depref :=
  match ds with
  | [] => []
  | Some r :: ds' => r :: defined ds'
  | None :: ds' => defined ds'
  end.

Definition collected (t : target) (depsMap : KeyToDepMap) (ty : TriggerOpTypes)
    (k : option key) (newValue : value) : option (list depref) :=
  match collect_deps t depsMap ty k newValue with
  | Some ds => Some (defined ds)
  | None => None
  end.

(** "whose numeric key is greater than or equal to the new length" *)
Definition numeric_ge (k : key) (newValue : value) : bool :=
  match k, newValue with
  | KStr s, VNum z =>
      match StringToNumber s with Some m => z <=? m | None => false end
  | _, _ => false
  end.

(** "the set for the key, when present" *)
Definition present (t : target) (depsMap : KeyToDepMap) (k : key) : list depref :=
  if bool_decide (is_Some (kget k depsMap)) then [DLoc t k] else [].

(** The affected sets as the specification lists them for [add], [set] and
    [delete]. *)
Definition affected_spec (t : target) (depsMap : KeyToDepMap) (ty : TriggerOpTypes)
    (k : option key) (newValue : value) : list depref :=
  if bool_decide (k = Some LENGTH_KEY) && isArray t then
    map (fun kd => DLoc t kd.1)
      (filter (fun kd => kd.1 = LENGTH_KEY ∨ numeric_ge kd.1 newValue = true) depsMap)
  else
    match k with Some k' => present t depsMap k' | None => [] end
    ++ match ty with
       | ADD =>
           if isArray t then
             if isIntegerKey k then present t depsMap LENGTH_KEY else []
           else
             present t depsMap ITERATE_KEY
             ++ (if isMap t then present t depsMap MAP_KEY_ITERATE_KEY else [])
       | DELETE =>
           if isArray t then []
           else
             present t depsMap ITERATE_KEY
             ++ (if isMap t then present t depsMap MAP_KEY_ITERATE_KEY else [])
       | SET => if isMap t then present t depsMap ITERATE_KEY else []
       | CLEAR => []
       end.

(** The same with the [clear] case of the source: every set of the target. *)
Definition affected_amended (t : target) (depsMap : KeyToDepMap) (ty : TriggerOpTypes)
    (k : option key) (newValue : value) : list depref :=
  if decide (ty = CLEAR) then map (fun kd => DLoc t kd.1) depsMap
  else affected_spec t depsMap ty k newValue.

Definition is_string_key (k : key) : Prop :=
  match k with KStr _ => True | KSym _ => False end.


(** ** Observations *)

(** The Dependency Set of a slot, a slot never read having the empty
    set. *)
Definition dep_at (r : depref) (st : State) : Dep :=
  default (createDep []) (lookup_dep r st).

(** The number of times [e] occurs in a list of effects. *)
Definition occurrences (e : eid) (l : list eid) : nat :=
  length (filter (fun y => y = e) l).

Definition deps_of (e : eid) (st : State) : list depref :=
  match effects st !! e with Some x => deps x | None => [] end.

(** The fields of the tracking context and of the instrumentation. *)
Definition context (st : State)
    : Z * Z * option eid * bool * list bool * gmap nat value * list event :=
  (effectTrackDepth st, trackOpBit st, activeEffect st, shouldTrack st,
   trackStack st, vars st, trace st).

(** A computed without its Dependency Set. *)
Definition cfields (c : ComputedRefImpl)
    : value * eid * bool * bool * bool * (value -> prog) :=
  (_value c, effect c, __v_isReadonly c, _dirty c, _cacheable c, _setter c).

(** The number of calls of the body of [e] so far. *)
Definition calls_of (ev : event) (st : State) : nat :=
  length (filter (fun y => y = ev) (trace st)).

(** ** Bodies that only read

    A body made of tracked reads and of computation on captured
    variables. *)
Inductive simple : prog -> Prop :=
| simple_Ret v : simple (Ret v)
| simple_Track t ty k next : simple next -> simple (Track t ty k next)
| simple_ReadVar x next : (forall v, simple (next v)) -> simple (ReadVar x next)
| simple_WriteVar x v next : simple next -> simple (WriteVar x v next).

(** The locations such a body reads, in order, the value it returns and the
    captured variables it leaves, when it starts with the variables [vs]. *)
Fixpoint reads (p : prog) (vs : gmap nat value) : list (target * key) :=
  match p with
  | Track t _ k next => (t, k) :: reads next vs
  | ReadVar x next => reads (next (default VUndefined (vs !! x))) vs
  | WriteVar x v next => reads next (<[x:=v]> vs)
  | _ => []
  end.

Fixpoint result (p : prog) (vs : gmap nat value) : value :=
  match p with
  | Ret v => v
  | Track _ _ _ next => result next vs
  | ReadVar x next => result (next (default VUndefined (vs !! x))) vs
  | WriteVar x v next => result next (<[x:=v]> vs)
  | _ => VUndefined
  end.

Fixpoint final_vars (p : prog) (vs : gmap nat value) : gmap nat value :=
  match p with
  | Track _ _ _ next => final_vars next vs
  | ReadVar x next => final_vars (next (default VUndefined (vs !! x))) vs
  | WriteVar x v next => final_vars next (<[x:=v]> vs)
  | _ => vs
  end.

Definition track_all (ls : list (target * key)) (st : State) : State :=
  foldl (fun s l => track l.1 GET l.2 s) st ls.

Definition loc (l : target * key) : depref := DLoc l.1 l.2.

(** [e], running at nesting depth [d], is subscribed to exactly the sets
    [L]: its list of sets is [L], without repetition; it occurs once in the
    sets of [L] and in no other; and, when [d] has a marker bit, the
    newly-tracked bit of [d] is set on the sets of [L] only and the
    was-tracked bit of [d] on none. *)
Definition subscribed_at (e : eid) (d : Z) (L : list depref) (st : State) : Prop :=
  (exists x, effects st !! e = Some x /\ deps x = L)
  /\ NoDup L
  /\ forall r,
      occurrences e (members (dep_at r st)) = (if decide (r ∈ L) then 1 else 0)%nat
      /\ (d <= maxMarkerBits ->
          newTracked (dep_at r st) (shl 1 d) = bool_decide (r ∈ L)
          /\ wasTracked (dep_at r st) (shl 1 d) = false).

(** No marker bit of depth [d] is set. *)
Definition markers_clear (d : Z) (st : State) : Prop :=
  d <= maxMarkerBits ->
  forall r, newTracked (dep_at r st) (shl 1 d) = false
            /\ wasTracked (dep_at r st) (shl 1 d) = false.

(** Every Dependency Set that holds [e] is on the list of [e]. *)
Definition listed (e : eid) (st : State) : Prop :=
  forall r, e ∈ members (dep_at r st) -> r ∈ deps_of e st.

(** [L] extended with the sets of [rs] that it does not hold yet. *)
Definition add_all (L rs : list depref) : list depref :=
  foldl (fun acc r => if decide (r ∈ acc) then acc else acc ++ [r]) L rs.

(** The tracking context of the body of [e] running at depth [d]. *)
Definition tracking_ctx (e : eid) (d : Z) (st : State) : Prop :=
  activeEffect st = Some e /\ shouldTrack st = true
  /\ effectTrackDepth st = d /\ trackOpBit st = shl 1 d /\ 0 <= d.

(** [st] and [st'] look the same to the effect [e] at depth [d]. *)
Definition same_for (e : eid) (d : Z) (st st' : State) : Prop :=
  effects st' !! e = effects st !! e
  /\ forall r,
      occurrences e (members (dep_at r st')) = occurrences e (members (dep_at r st))
      /\ (0 <= d <= maxMarkerBits ->
          newTracked (dep_at r st') (shl 1 d) = newTracked (dep_at r st) (shl 1 d)
          /\ wasTracked (dep_at r st') (shl 1 d) = wasTracked (dep_at r st) (shl 1 d)).

(** An effect without its list of sets. *)
Definition efields (x : ReactiveEffect)
    : bool * option eid * option cid * bool * bool * option prog * prog * option closure :=
  (active x, parent x, computed x, allowRecurse x, deferStop x, onStop x, fn x,
   scheduler x).

(** ** Deciding a property of every Dependency Set of a state *)

Fixpoint all_computed_deps (P : depref -> Dep -> bool) (i : nat)
    (l : list ComputedRefImpl) : bool :=
  match l with
  | [] => true
  | x :: l' =>
      match dep x with Some d => P (DComputed i) d | None => true end
      && all_computed_deps P (S i) l'
  end.

Definition all_deps (P : depref -> Dep -> bool) (st : State) : bool :=
  forallb (fun tm => forallb (fun kd => P (DLoc tm.1 kd.1) kd.2) tm.2)
    (map_to_list (targetMap st))
  && all_computed_deps P 0 (computeds st).

Definition listed_b (e : eid) (st : State) : bool :=
  all_deps (fun r d => negb (bool_decide (e ∈ members d))
                       || bool_decide (r ∈ deps_of e st)) st.

Definition markers_clear_b (d : Z) (st : State) : bool :=
  all_deps (fun _ x => negb (newTracked x (shl 1 d)) && negb (wasTracked x (shl 1 d))) st.

(** ** Bodies that read and write *)

Inductive readwrite : prog -> Prop :=
| readwrite_Ret v : readwrite (Ret v)
| readwrite_Track t ty k next : readwrite next -> readwrite (Track t ty k next)
| readwrite_Trigger t ty k nv next :
    readwrite next -> readwrite (Trigger t ty k nv next)
| readwrite_ReadVar x next : (forall v, readwrite (next v)) -> readwrite (ReadVar x next)
| readwrite_WriteVar x v next : readwrite next -> readwrite (WriteVar x v next).

(** The effects that a call of [trigger] goes on to trigger, in order;
    [None] when collecting the sets raises. *)
Definition trigger_targets (t : target) (ty : TriggerOpTypes) (k : option key)
    (newValue : value) (st : State) : option (list eid) :=
  match targetMap st !! t with
  | None => Some []
  | Some depsMap =>
      match collect_deps t depsMap ty k newValue with
      | None => None
      | Some [d] => Some (match d with Some r => members_of r st | None => [] end)
      | Some ds =>
          Some (members (createDep
                           (concat (map (fun d => match d with
                                                  | Some r => members_of r st
                                                  | None => []
                                                  end) ds))))
      end
  end.

(** The options and flags of an effect. *)
Definition options_of (x : ReactiveEffect)
    : bool * option cid * bool * bool * option prog * prog * option closure :=
  (active x, computed x, allowRecurse x, deferStop x, onStop x, fn x, scheduler x).

(** [e] is the only effect subscribed to anything, and no set holds it
    twice. *)
Definition sole_subscriber (e : eid) (st : State) : Prop :=
  forall r, NoDup (members (dep_at r st))
            /\ forall e', e' ∈ members (dep_at r st) -> e' = e.

Definition sole_subscriber_b (e : eid) (st : State) : bool :=
  all_deps (fun _ d => bool_decide (NoDup (members d))
                       && forallb (fun e' => bool_decide (e' = e)) (members d)) st.

(** [e], with the options of [x], is the running effect and the only
    subscriber, and its body has been called [n] times. *)
Definition self_inv (e : eid) (x : ReactiveEffect) (n : nat) (s : State) : Prop :=
  activeEffect s = Some e
  /\ options_of <$> effects s !! e = Some (options_of x)
  /\ sole_subscriber e s
  /\ calls_of (EvFn e) s = n.

(** ** Nested effects *)

(** [ls.forEach(l => read(l)); k] *)
Fixpoint reads_then (ls : list (target * key)) (k : prog) : prog :=
  match ls with
  | [] => k
  | l :: ls' => Track l.1 GET l.2 (reads_then ls' k)
  end.

(** A body that reads [before], creates (and so runs) an effect with the
    body [inner], reads [after] and returns [v]. *)
Definition nesting_body (before : list (target * key)) (inner : prog)
    (after : list (target * key)) (v : value) : prog :=
  reads_then before
    (NewEffect (inl inner) false None false None
       (fun _ => reads_then after (Ret v))).

(** The state with a new effect object, as [effect(fn)] builds it. *)
Definition with_new_effect (p : prog) (st : State) : State :=
  set_effects (fun l => l ++ [mkEffect true [] None None false false None p None]) st.

(** No Dependency Set holds [e]. *)
Definition unsubscribed (e : eid) (st : State) : Prop :=
  forall r, e ∉ members (dep_at r st).

Definition unsubscribed_b (e : eid) (st : State) : bool :=
  all_deps (fun _ d => negb (bool_decide (e ∈ members d))) st.

(** The effects in the Dependency Set of the computed [c]. *)
Definition subscribers (c : cid) (st : State) : list eid :=
  match computeds st !! c ≫= dep with
  | Some d => members d
  | None => []
  end.

(** The state without the captured variables and the instrumentation. *)
Definition store (st : State) :=
  (targetMap st, effectTrackDepth st, trackOpBit st, activeEffect st,
   shouldTrack st, trackStack st, effects st, computeds st).

(** The effect [s] has a scheduler, which only reads. *)
Definition scheduled_simple (st : State) (s : eid) : Prop :=
  exists z p, effects st !! s = Some z /\ scheduler z = Some (UserFn p) /\ simple p.

(** ** Example programs and states *)

Module Examples.

Definition obj : target := Target PlainObject 0.
Definition arr : target := Target ArrayObject 1.

Definition state_after (fuel : nat) (p : prog) (st : State) : State :=
  match call_n fuel (UserFn p) st with
  | Some (_, st') => st'
  | None => st
  end.

(** [() => obj.flag ? obj.a : obj.b], the truth value of [obj.flag]
    being held in the captured variable 0. *)
Definition branch_body : prog :=
  Track obj GET (KStr "flag")
    (ReadVar 0 (fun v =>
       match v with
       | VNum 0 | VUndefined => Track obj GET (KStr "b") (Ret (VNum 2))
       | VNum _ => Track obj GET (KStr "a") (Ret (VNum 1))
       end)).

(** The state after [effect(branch_body)] has run with a true flag, the
    flag being false now. *)
Definition branch_state : State :=
  state_after 2
    (WriteVar 0 (VNum 1)
       (NewEffect (inl branch_body) false None false None
          (fun _ => WriteVar 0 (VNum 0) (Ret VUndefined))))
    initial.

(** A stopped effect [() => obj.a] (effect 0) and an effect that calls
    it (effect 1): the state in which the body of effect 1 starts. *)
Definition stopped_inner_state : State :=
  log (EvFn 1)
    (run_enter 1
       (state_after 2
          (NewEffect (inl (Track obj GET (KStr "a") (Ret (VNum 1)))) true None false None
             (fun inner =>
                Stop inner
                  (NewEffect (inl (Run inner (fun v => Ret v))) true None false None
                     (fun _ => Ret VUndefined))))
          initial)).

(** A body that reads, pauses tracking, asks for its effect (effect 0)
    to be stopped, and throws. *)
Definition throwing_body : prog :=
  Track obj GET (KStr "a") (PauseTracking (Stop 0 Throw)).

Definition throwing_state : State :=
  state_after 1
    (NewEffect (inl throwing_body) true None false None (fun _ => Ret VUndefined))
    initial.

Definition throwing_body_end : State :=
  state_after 1 throwing_body (log (EvFn 0) (run_enter 0 throwing_state)).

(** [() => { obj.a; obj.a = 2 }]: an effect that reads and writes the
    same location, in the state after its creation. *)
Definition self_write_state : State :=
  state_after 2
    (NewEffect
       (inl (Track obj GET (KStr "a")
               (Trigger obj SET (Some (KStr "a")) (VNum 2) (Ret VUndefined))))
       false None false None (fun _ => Ret VUndefined))
    initial.

(** [effect(() => { obj.x; effect(() => obj.y); obj.z })], not yet run. *)
Definition nested_state : State :=
  state_after 1
    (NewEffect
       (inl (nesting_body [(obj, KStr "x")]
               (Track obj GET (KStr "y") (Ret VUndefined))
               [(obj, KStr "z")] VUndefined))
       true None false None (fun _ => Ret VUndefined))
    initial.

(** [const c = computed(() => obj.a)], not yet read; the value of [obj.a]
    is held in the captured variable 0. *)
Definition getter_body : prog :=
  Track obj GET (KStr "a") (ReadVar 0 (fun v => Ret v)).

Definition computed_state : State :=
  state_after 1
    (WriteVar 0 (VNum 1)
       (NewComputed getter_body None false (fun _ => Ret VUndefined)))
    initial.

(** [effect(() => c.value, { scheduler })] after [c] of above: the effect
    has read [c], which is clean. *)
Definition watched_state : State :=
  state_after 4
    (NewEffect (inl (GetValue 0 (fun _ => Ret VUndefined))) false
       (Some (Ret VUndefined)) false None (fun _ => Ret VUndefined))
    computed_state.

End Examples.

(** ** What a call leaves unchanged *)

(** [e] is on the chain of [parent] links that starts at [p]. *)
Inductive reach (st : State) : option eid -> eid -> Prop :=
| reach_here e : reach st (Some e) e
| reach_next y e : reach st (parent_of st y) e -> reach st (Some y) e.

(** The effects that are running: the chain from [activeEffect]. *)
Definition running (st : State) (e : eid) : Prop := reach st (activeEffect st) e.

(** An effect object later on: its functions and options are the same, and
    it is not reactivated nor is a pending stop forgotten. *)
Definition stable (x x' : ReactiveEffect) : Prop :=
  fn x' = fn x /\ onStop x' = onStop x /\ scheduler x' = scheduler x
  /\ allowRecurse x' = allowRecurse x /\ computed x' = computed x
  /\ (active x = false -> active x' = false)
  /\ (deferStop x = true -> deferStop x' = true).

Definition effects_stable (st st' : State) : Prop :=
  forall e x, effects st !! e = Some x ->
              exists x', effects st' !! e = Some x' /\ stable x x'.

(** A step that touches neither the running effect, nor the depth, nor
    any [parent] link. *)
Definition Quiet (st st' : State) : Prop :=
  activeEffect st' = activeEffect st
  /\ effectTrackDepth st' = effectTrackDepth st
  /\ effects_stable st st'
  /\ forall e, parent_of st' e = parent_of st e.

(** What every call preserves: the running effect, the depth, and the
    [parent] links of the effects that are running. *)
Definition Frame (st st' : State) : Prop :=
  activeEffect st' = activeEffect st
  /\ effectTrackDepth st' = effectTrackDepth st
  /\ effects_stable st st'
  /\ forall e, running st e -> parent_of st' e = parent_of st e.

Definition preserves_frame (r : Res) (st : State) : Prop :=
  forall o st', r = Some (o, st') -> Frame st st'.
(** * Properties *)

(** ** The tracking-suppression stack *)

(** C10: [resetTracking] pops the most recently saved value of
    [shouldTrack] and restores it (so it undoes a [pauseTracking] or an
    [enableTracking]), and on an empty stack it sets [shouldTrack] to
    [true]. *)
Theorem resetTracking_restores (st : State) :
  (forall (rest : list bool) (b : bool),
      resetTracking (set_trackStack (rest ++ [b]) st)
      = set_shouldTrack b (set_trackStack rest st))
  /\ resetTracking (set_trackStack [] st)
     = set_shouldTrack true (set_trackStack [] st)
  /\ resetTracking (pauseTracking st) = st
  /\ resetTracking (enableTracking st) = st.
Proof.
  assert (Hpop : forall (rest : list bool) b, array_pop (rest ++ [b]) = (Some b, rest)).
  { intros rest b. unfold array_pop. by rewrite last_snoc, removelast_last. }
  split; [|split; [|split]].
  - intros rest b. unfold resetTracking. cbn [trackStack set_trackStack].
    rewrite Hpop. reflexivity.
  - reflexivity.
  - unfold resetTracking, pauseTracking.
    cbn [trackStack set_trackStack set_shouldTrack]. rewrite Hpop.
    by destruct st.
  - unfold resetTracking, enableTracking.
    cbn [trackStack set_trackStack set_shouldTrack]. rewrite Hpop.
    by destruct st.
Qed.

(** ** The sets collected by [trigger] *)

Lemma get_dep_present t depsMap k :
  defined [get_dep t depsMap k] = present t depsMap k.
Proof.
  unfold get_dep, present. destruct (kget k depsMap); reflexivity.
Qed.

Lemma defined_app l1 l2 : defined (l1 ++ l2) = defined l1 ++ defined l2.
Proof.
  induction l1 as [|[r|] l1 IH]; cbn; [done| |done]. by rewrite IH.
Qed.

Lemma defined_map_Some {A} (f : A -> depref) (l : list A) :
  defined (map (fun a => Some (f a)) l) = map f l.
Proof. induction l as [|a l IH]; cbn; [done|]. by rewrite IH. Qed.

Lemma collect_length_strings t nv depsMap acc :
  Forall (fun kd => is_string_key kd.1) depsMap ->
  collect_length t nv depsMap acc
  = Some (acc ++ map (fun kd => Some (DLoc t kd.1))
            (filter (fun kd => kd.1 = LENGTH_KEY ∨ numeric_ge kd.1 nv = true) depsMap)).
Proof.
  intros H. revert acc. induction H as [|[k d] rest Hk _ IH]; intros acc.
  - cbn. by rewrite app_nil_r.
  - cbn [collect_length]. rewrite filter_cons. cbn [fst].
    destruct (decide (k = LENGTH_KEY)) as [->|Hne].
    + rewrite decide_True by (by left). rewrite IH. cbn. by rewrite <- app_assoc.
    + destruct k as [s|]; [|done]. cbn [js_ge numeric_ge] in *.
      unfold numeric_ge.
      destruct (StringToNumber s) as [num|], nv as [|z]; cbn.
      * rewrite decide_False by (intros [?|?]; done). apply IH.
      * destruct (z <=? num) eqn:Hz.
        -- rewrite decide_True by (by right). rewrite IH. cbn. by rewrite <- app_assoc.
        -- rewrite decide_False by (intros [?|?]; done). apply IH.
      * rewrite decide_False by (intros [?|?]; done). apply IH.
      * rewrite decide_False by (intros [?|?]; done). apply IH.
Qed.




(** ** Maps in insertion order *)

Lemma kget_kalter f k m : kget k (kalter f k m) = f <$> kget k m.
Proof.
  induction m as [|[k' d] m IH]; cbn; [done|].
  destruct (decide (k = k')) as [->|Hne]; cbn.
  - by rewrite decide_True.
  - by rewrite decide_False.
Qed.

Lemma kget_kalter_ne f k k' m : k <> k' -> kget k' (kalter f k m) = kget k' m.
Proof.
  intros Hne. induction m as [|[k'' d] m IH]; cbn; [done|].
  destruct (decide (k = k'')) as [->|Hne']; cbn.
  - by rewrite !decide_False by congruence.
  - destruct (decide (k' = k'')); [done|]. apply IH.
Qed.

Lemma kget_app k m1 m2 :
  kget k (m1 ++ m2) = match kget k m1 with Some d => Some d | None => kget k m2 end.
Proof.
  induction m1 as [|[k' d] m1 IH]; cbn; [done|].
  destruct (decide (k = k')); [done|]. apply IH.
Qed.

Lemma kget_kset k d m : kget k (kset k d m) = Some d.
Proof.
  unfold kset. destruct (kget k m) eqn:H.
  - by rewrite kget_kalter, H.
  - rewrite kget_app, H. cbn. by rewrite decide_True.
Qed.

Lemma kget_kset_ne k k' d m : k <> k' -> kget k' (kset k d m) = kget k' m.
Proof.
  intros Hne. unfold kset. destruct (kget k m) eqn:H.
  - by apply kget_kalter_ne.
  - rewrite kget_app. destruct (kget k' m); [done|]. cbn.
    by rewrite decide_False by congruence.
Qed.

(** ** Dependency Sets by identity *)

Lemma lookup_dep_alter_dep f r st :
  lookup_dep r (alter_dep f r st) = f <$> lookup_dep r st.
Proof.
  destruct r as [t k|c]; unfold lookup_dep, alter_dep, update_computed;
    cbn [targetMap set_targetMap computeds set_computeds].
  - rewrite lookup_alter_eq. destruct (targetMap st !! t) as [m|]; cbn; [ |done].
    apply kget_kalter.
  - rewrite list_lookup_alter_eq. destruct (computeds st !! c) as [x|]; reflexivity.
Qed.

Lemma lookup_dep_alter_dep_ne f r r' st :
  r <> r' -> lookup_dep r' (alter_dep f r st) = lookup_dep r' st.
Proof.
  intros Hne.
  destruct r as [t k|c], r' as [t' k'|c'];
    unfold lookup_dep, alter_dep, update_computed;
    cbn [targetMap set_targetMap computeds set_computeds]; try done.
  - destruct (decide (t = t')) as [->|Ht].
    + rewrite lookup_alter_eq. destruct (targetMap st !! t') as [m|]; cbn; [ |done].
      apply kget_kalter_ne. congruence.
    + by rewrite lookup_alter_ne.
  - rewrite list_lookup_alter_ne by congruence. done.
Qed.

Lemma lookup_dep_ensure_dep t k st :
  lookup_dep (DLoc t k) (ensure_dep t k st)
  = Some (default (createDep []) (lookup_dep (DLoc t k) st)).
Proof.
  unfold ensure_dep, lookup_dep.
  destruct (targetMap st !! t) as [m|] eqn:Ht;
    cbn [targetMap set_targetMap].
  - rewrite Ht. cbn. destruct (kget k m) eqn:Hk.
    + rewrite Ht. cbn. by rewrite Hk.
    + cbn [targetMap set_targetMap]. rewrite lookup_alter_eq, Ht. cbn.
      by rewrite kget_kset.
  - rewrite lookup_insert_eq. cbn. cbn [targetMap set_targetMap].
    rewrite lookup_alter_eq, lookup_insert_eq. cbn. by rewrite decide_True.
Qed.

Lemma lookup_dep_ensure_dep_ne t k r st :
  r <> DLoc t k -> lookup_dep r (ensure_dep t k st) = lookup_dep r st.
Proof.
  intros Hne. unfold ensure_dep.
  assert (H1 : forall st', targetMap st' !! t = None ->
            lookup_dep r (set_targetMap (insert t []) st') = lookup_dep r st').
  { intros st' Hn. destruct r as [t' k'|c]; [ |done].
    unfold lookup_dep. cbn [targetMap set_targetMap].
    destruct (decide (t = t')) as [->|Ht].
    - by rewrite lookup_insert_eq, Hn.
    - by rewrite lookup_insert_ne. }
  assert (H2 : forall st', lookup_dep r (set_targetMap (alter (kset k (createDep [])) t) st')
            = lookup_dep r st').
  { intros st'. destruct r as [t' k'|c]; [ |done].
    unfold lookup_dep. cbn [targetMap set_targetMap].
    destruct (decide (t = t')) as [->|Ht].
    - rewrite lookup_alter_eq. destruct (targetMap st' !! t'); cbn; [ |done].
      apply kget_kset_ne. congruence.
    - by rewrite lookup_alter_ne. }
  destruct (targetMap st !! t) eqn:Ht.
  - destruct (lookup_dep (DLoc t k) st); [done|]. apply H2.
  - destruct (lookup_dep (DLoc t k) _); [by apply H1|]. rewrite H2. by apply H1.
Qed.

(** [dep_at] does not see the creation of an empty set. *)
Lemma dep_at_ensure_dep t k r st : dep_at r (ensure_dep t k st) = dep_at r st.
Proof.
  unfold dep_at. destruct (decide (r = DLoc t k)) as [->|Hne].
  - rewrite lookup_dep_ensure_dep. reflexivity.
  - by rewrite lookup_dep_ensure_dep_ne.
Qed.

Lemma dep_at_alter_dep f r st :
  f (createDep []) = createDep [] ->
  dep_at r (alter_dep f r st) = f (dep_at r st).
Proof.
  intros Hf. unfold dep_at. rewrite lookup_dep_alter_dep.
  destruct (lookup_dep r st); cbn; [done|]. by rewrite Hf.
Qed.

Lemma dep_at_alter_dep_Some f r st d :
  lookup_dep r st = Some d -> dep_at r (alter_dep f r st) = f d.
Proof. intros H. unfold dep_at. by rewrite lookup_dep_alter_dep, H. Qed.

Lemma dep_at_alter_dep_ne f r r' st :
  r <> r' -> dep_at r' (alter_dep f r st) = dep_at r' st.
Proof. intros H. unfold dep_at. by rewrite lookup_dep_alter_dep_ne. Qed.

Lemma dep_at_update_effect r e f st : dep_at r (update_effect e f st) = dep_at r st.
Proof. by destruct r. Qed.

Lemma effects_alter_dep f r st : effects (alter_dep f r st) = effects st.
Proof. by destruct r. Qed.

Lemma effects_ensure_dep t k st : effects (ensure_dep t k st) = effects st.
Proof.
  unfold ensure_dep. destruct (targetMap st !! t); destruct (lookup_dep _ _); reflexivity.
Qed.

Lemma context_alter_dep f r st : context (alter_dep f r st) = context st.
Proof. by destruct r. Qed.

Lemma context_ensure_dep t k st : context (ensure_dep t k st) = context st.
Proof.
  unfold ensure_dep. destruct (targetMap st !! t); destruct (lookup_dep _ _); reflexivity.
Qed.

Lemma context_update_effect e f st : context (update_effect e f st) = context st.
Proof. reflexivity. Qed.

Lemma cfields_alter_dep f r st c :
  cfields <$> computeds (alter_dep f r st) !! c = cfields <$> computeds st !! c.
Proof.
  destruct r as [t k|c']; [done|].
  unfold alter_dep, update_computed. cbn [computeds set_computeds].
  destruct (decide (c' = c)) as [->|Hne].
  - rewrite list_lookup_alter_eq. by destruct (computeds st !! c).
  - by rewrite list_lookup_alter_ne.
Qed.

Lemma computeds_ensure_dep t k st : computeds (ensure_dep t k st) = computeds st.
Proof.
  unfold ensure_dep. destruct (targetMap st !! t); destruct (lookup_dep _ _); reflexivity.
Qed.

Lemma alter_same {A} (f : A -> A) (l : list A) i x :
  l !! i = Some x -> f x = x -> alter f i l = l.
Proof.
  intros Hl Hf. apply list_eq. intros j.
  destruct (decide (i = j)) as [->|Hne].
  - by rewrite list_lookup_alter_eq, Hl; cbn; rewrite Hf.
  - by rewrite list_lookup_alter_ne.
Qed.

(** ** Marker bits *)

Lemma int32_small z : - 2 ^ 31 <= z < 2 ^ 31 -> int32 z = z.
Proof. intros H. unfold int32. rewrite Z.mod_small; lia. Qed.

Lemma int32_mod z : int32 z mod 2 ^ 32 = z mod 2 ^ 32.
Proof. unfold int32. rewrite Zminus_mod_idemp_l. f_equal. lia. Qed.

Lemma int32_testbit z i : 0 <= i < 32 -> Z.testbit (int32 z) i = Z.testbit z i.
Proof.
  intros Hi. rewrite <- (Z.mod_pow2_bits_low (int32 z) 32 i) by lia.
  rewrite int32_mod. apply Z.mod_pow2_bits_low. lia.
Qed.

Lemma shl_1 d : 0 <= d <= 30 -> shl 1 d = 2 ^ d.
Proof.
  intros Hd. unfold shl. rewrite Z.mod_small by lia.
  rewrite Z.shiftl_1_l. apply int32_small.
  split.
  - pose proof (Z.pow_pos_nonneg 2 d). lia.
  - apply Z.pow_lt_mono_r; lia.
Qed.

Lemma land_pow2 z i : 0 <= i -> Z.land z (2 ^ i) = if Z.testbit z i then 2 ^ i else 0.
Proof.
  intros Hi. apply Z.bits_inj'. intros j Hj.
  rewrite Z.land_spec, Z.pow2_bits_eqb by lia.
  destruct (Z.eqb_spec i j) as [->|Hne].
  - rewrite andb_true_r. destruct (Z.testbit z j) eqn:E.
    + by rewrite Z.pow2_bits_true.
    + by rewrite Z.bits_0.
  - rewrite andb_false_r. destruct (Z.testbit z i).
    + by rewrite Z.pow2_bits_false.
    + by rewrite Z.bits_0.
Qed.

Lemma band_pow2_pos z i : 0 <= i <= 30 -> (0 <? band z (2 ^ i)) = Z.testbit z i.
Proof.
  intros Hi. unfold band. rewrite land_pow2 by lia.
  assert (0 < 2 ^ i < 2 ^ 31).
  { split; [apply Z.pow_pos_nonneg; lia|apply Z.pow_lt_mono_r; lia]. }
  destruct (Z.testbit z i).
  - rewrite int32_small by lia. apply Z.ltb_lt. lia.
  - reflexivity.
Qed.

Lemma testbit_set z i j :
  0 <= i <= 30 -> 0 <= j <= 30 ->
  Z.testbit (bor z (2 ^ i)) j = Z.testbit z j || bool_decide (i = j).
Proof.
  intros Hi Hj. unfold bor. rewrite int32_testbit, Z.lor_spec by lia. f_equal.
  rewrite Z.pow2_bits_eqb by lia.
  destruct (Z.eqb_spec i j);
    [by rewrite bool_decide_eq_true_2|by rewrite bool_decide_eq_false_2].
Qed.

Lemma testbit_clear z i j :
  0 <= i <= 30 -> 0 <= j <= 30 ->
  Z.testbit (band z (bnot (2 ^ i))) j = Z.testbit z j && negb (bool_decide (i = j)).
Proof.
  intros Hi Hj. unfold band, bnot.
  rewrite int32_testbit, Z.land_spec, int32_testbit, Z.lnot_spec by lia.
  f_equal. f_equal. rewrite Z.pow2_bits_eqb by lia.
  destruct (Z.eqb_spec i j);
    [by rewrite bool_decide_eq_true_2|by rewrite bool_decide_eq_false_2].
Qed.

Lemma newTracked_testbit d i : 0 <= i <= 30 -> newTracked d (shl 1 i) = Z.testbit (dep_n d) i.
Proof. intros Hi. rewrite shl_1 by done. by apply band_pow2_pos. Qed.

Lemma wasTracked_testbit d i : 0 <= i <= 30 -> wasTracked d (shl 1 i) = Z.testbit (dep_w d) i.
Proof. intros Hi. rewrite shl_1 by done. by apply band_pow2_pos. Qed.

(** ** Sets of effects *)

Lemma occurrences_app e l1 l2 :
  occurrences e (l1 ++ l2) = (occurrences e l1 + occurrences e l2)%nat.
Proof. unfold occurrences. by rewrite filter_app, length_app. Qed.

Lemma occurrences_zero e l : occurrences e l = 0%nat <-> e ∉ l.
Proof.
  unfold occurrences. induction l as [|y l IH].
  - split; [intros _; apply not_elem_of_nil|done].
  - rewrite filter_cons, not_elem_of_cons. destruct (decide (y = e)) as [->|Hne]; cbn [length].
    + split; [done|]. intros [? _]. done.
    + rewrite IH. split; [intros; split; congruence|by intros [_ ?]].
Qed.

Lemma occurrences_pos e l : (0 < occurrences e l)%nat <-> e ∈ l.
Proof.
  destruct (decide (e ∈ l)) as [Hin|Hnin].
  - split; [done|]. intros _.
    destruct (occurrences e l) eqn:E; [|lia].
    apply occurrences_zero in E. done.
  - apply occurrences_zero in Hnin as E. rewrite E. split; [lia|done].
Qed.

Lemma occurrences_set_add e l :
  occurrences e (set_add e l) = if decide (e ∈ l) then occurrences e l else 1%nat.
Proof.
  unfold set_add. destruct (decide (e ∈ l)) as [Hin|Hnin]; [done|].
  rewrite occurrences_app. apply occurrences_zero in Hnin. rewrite Hnin.
  unfold occurrences. rewrite filter_cons, decide_True by done. reflexivity.
Qed.

Lemma occurrences_set_add_ne e e' l :
  e' <> e -> occurrences e' (set_add e l) = occurrences e' l.
Proof.
  intros Hne. unfold set_add. destruct (decide (e ∈ l)); [done|].
  rewrite occurrences_app. unfold occurrences at 2.
  rewrite filter_cons, decide_False by congruence. cbn. lia.
Qed.

Lemma occurrences_set_delete e l : occurrences e (set_delete e l) = 0%nat.
Proof.
  apply occurrences_zero. unfold set_delete. rewrite list_elem_of_filter.
  intros [? _]. done.
Qed.

Lemma occurrences_set_delete_ne e e' l :
  e' <> e -> occurrences e' (set_delete e l) = occurrences e' l.
Proof.
  intros Hne. unfold occurrences, set_delete.
  induction l as [|y l IH]; [done|].
  rewrite !filter_cons. destruct (decide (y ≠ e)) as [Hy|Hy].
  - rewrite filter_cons. destruct (decide (y = e')); cbn; by rewrite IH.
  - rewrite decide_False; [done|]. intros ->. apply Hy. congruence.
Qed.

Lemma set_has_occurrences e l : set_has e l = negb (bool_decide (occurrences e l = 0%nat)).
Proof.
  unfold set_has. destruct (decide (e ∈ l)) as [Hin|Hnin].
  - rewrite bool_decide_eq_true_2 by done.
    rewrite bool_decide_eq_false_2; [done|].
    apply occurrences_pos in Hin. lia.
  - rewrite bool_decide_eq_false_2 by done.
    rewrite bool_decide_eq_true_2; [done|]. by apply occurrences_zero.
Qed.

(** ** What one tracked read does *)

Section TrackEffects.

Context (r : depref) (e : eid) (d : Dep) (st : State).
Hypothesis Hactive : activeEffect st = Some e.
Hypothesis Hdep : lookup_dep r st = Some d.

Let bit := trackOpBit st.
Let marked := (effectTrackDepth st <=? maxMarkerBits) && negb (newTracked d bit).
Let added :=
  if effectTrackDepth st <=? maxMarkerBits
  then negb (newTracked d bit) && negb (wasTracked d bit)
  else negb (set_has e (members d)).

Lemma trackEffects_dep :
  dep_at r (trackEffects r st)
  = mkDep (if added then set_add e (members d) else members d) (dep_w d)
      (if marked then bor (dep_n d) bit else dep_n d).
Proof using Hactive Hdep.
  unfold trackEffects, added, marked, bit. rewrite Hactive, Hdep.
  destruct (effectTrackDepth st <=? maxMarkerBits); cbn [andb].
  - destruct (newTracked d (trackOpBit st)); cbn [negb andb].
    + unfold dep_at. rewrite Hdep. by destruct d.
    + destruct (wasTracked d (trackOpBit st)); cbn [negb].
      * by rewrite (dep_at_alter_dep_Some _ _ _ d).
      * rewrite dep_at_update_effect.
        rewrite (dep_at_alter_dep_Some _ _ _
                   (with_n (bor (dep_n d) (trackOpBit st)) d)); [reflexivity|].
        by rewrite lookup_dep_alter_dep, Hdep.
  - destruct (set_has e (members d)); cbn [negb].
    + unfold dep_at. rewrite Hdep. by destruct d.
    + rewrite dep_at_update_effect. by rewrite (dep_at_alter_dep_Some _ _ _ d).
Qed.

Lemma trackEffects_dep_ne r' : r <> r' -> dep_at r' (trackEffects r st) = dep_at r' st.
Proof using Hactive Hdep.
  intros Hne. unfold trackEffects. rewrite Hactive, Hdep.
  destruct (effectTrackDepth st <=? maxMarkerBits).
  - destruct (newTracked d (trackOpBit st)); cbn [negb]; [done|].
    destruct (wasTracked d (trackOpBit st)); cbn [negb].
    + by rewrite dep_at_alter_dep_ne.
    + by rewrite dep_at_update_effect, !dep_at_alter_dep_ne.
  - destruct (set_has e (members d)); cbn [negb]; [done|].
    by rewrite dep_at_update_effect, !dep_at_alter_dep_ne.
Qed.

Lemma trackEffects_effects :
  effects (trackEffects r st)
  = if added then alter (fun x => with_deps (deps x ++ [r]) x) e (effects st)
    else effects st.
Proof using Hactive Hdep.
  unfold trackEffects, added, bit. rewrite Hactive, Hdep.
  destruct (effectTrackDepth st <=? maxMarkerBits).
  - destruct (newTracked d (trackOpBit st)); cbn [negb andb]; [done|].
    destruct (wasTracked d (trackOpBit st)); cbn [negb].
    + by rewrite effects_alter_dep.
    + unfold update_effect. cbn [effects set_effects].
      by rewrite !effects_alter_dep.
  - destruct (set_has e (members d)); cbn [negb]; [done|].
    unfold update_effect. cbn [effects set_effects].
    by rewrite !effects_alter_dep.
Qed.

End TrackEffects.

Lemma trackEffects_context r st : context (trackEffects r st) = context st.
Proof.
  unfold trackEffects.
  destruct (activeEffect st) as [e|]; [ |done].
  destruct (lookup_dep r st) as [d|]; [ |done].
  destruct (effectTrackDepth st <=? maxMarkerBits).
  - destruct (newTracked d (trackOpBit st)); cbn [negb]; [done|].
    destruct (wasTracked d (trackOpBit st)); cbn [negb].
    + by rewrite context_alter_dep.
    + by rewrite context_update_effect, !context_alter_dep.
  - destruct (set_has e (members d)); cbn [negb]; [done|].
    by rewrite context_update_effect, !context_alter_dep.
Qed.

Lemma trackEffects_cfields r st c :
  cfields <$> computeds (trackEffects r st) !! c = cfields <$> computeds st !! c.
Proof.
  unfold trackEffects.
  destruct (activeEffect st) as [e|]; [ |done].
  destruct (lookup_dep r st) as [d|]; [ |done].
  destruct (effectTrackDepth st <=? maxMarkerBits).
  - destruct (newTracked d (trackOpBit st)); cbn [negb]; [done|].
    destruct (wasTracked d (trackOpBit st)); cbn [negb].
    + by rewrite cfields_alter_dep.
    + unfold update_effect. cbn [computeds set_effects].
      by rewrite !cfields_alter_dep.
  - destruct (set_has e (members d)); cbn [negb]; [done|].
    unfold update_effect. cbn [computeds set_effects].
    by rewrite !cfields_alter_dep.
Qed.

Lemma track_context t ty k st : context (track t ty k st) = context st.
Proof.
  unfold track. destruct (shouldTrack st); [ |done].
  destruct (activeEffect st); [ |done].
  by rewrite trackEffects_context, context_ensure_dep.
Qed.

Lemma track_computeds_cfields t ty k st c :
  cfields <$> computeds (track t ty k st) !! c = cfields <$> computeds st !! c.
Proof.
  unfold track. destruct (shouldTrack st); [ |done].
  destruct (activeEffect st); [ |done].
  by rewrite trackEffects_cfields, computeds_ensure_dep.
Qed.

(** A read while tracking is paused, or outside of any effect, changes
    nothing. *)
Lemma track_untracked t ty k st :
  shouldTrack st = false \/ activeEffect st = None -> track t ty k st = st.
Proof.
  unfold track. intros [-> | ->]; [done|]. by destruct (shouldTrack st).
Qed.

(** ** One read, seen from the running effect and from the others *)

Lemma add_all_snoc L rs r :
  add_all L (rs ++ [r])
  = if decide (r ∈ add_all L rs) then add_all L rs else add_all L rs ++ [r].
Proof. unfold add_all. by rewrite foldl_app. Qed.

Lemma elem_of_add_all L rs r : r ∈ add_all L rs <-> r ∈ L \/ r ∈ rs.
Proof.
  revert L. induction rs as [|q rs IH]; intros L; cbn.
  - rewrite elem_of_nil. tauto.
  - fold (add_all (if decide (q ∈ L) then L else L ++ [q]) rs).
    rewrite IH, elem_of_cons. destruct (decide (q ∈ L)) as [Hin|Hnin].
    + split; [tauto|]. intros [?|[->|?]]; tauto.
    + rewrite elem_of_app, list_elem_of_singleton. tauto.
Qed.

Lemma NoDup_add_all L rs : NoDup L -> NoDup (add_all L rs).
Proof.
  revert L. induction rs as [|q rs IH]; intros L HL; cbn; [done|].
  apply IH. destruct (decide (q ∈ L)); [done|].
  apply NoDup_app. split; [done|]. split; [ |apply NoDup_singleton].
  intros y Hy ->%list_elem_of_singleton. done.
Qed.

Lemma tracking_ctx_track e d t ty k st :
  tracking_ctx e d st -> tracking_ctx e d (track t ty k st).
Proof.
  unfold tracking_ctx. pose proof (track_context t ty k st) as H.
  unfold context in H. injection H as -> -> -> -> _ _ _. done.
Qed.

Lemma track_tracked t ty k e st :
  shouldTrack st = true -> activeEffect st = Some e ->
  track t ty k st = trackEffects (DLoc t k) (ensure_dep t k st).
Proof. intros Hs Ha. unfold track. by rewrite Hs, Ha. Qed.

Lemma activeEffect_ensure_dep t k st : activeEffect (ensure_dep t k st) = activeEffect st.
Proof. pose proof (context_ensure_dep t k st) as H. by injection H. Qed.

Lemma depth_ensure_dep t k st : effectTrackDepth (ensure_dep t k st) = effectTrackDepth st.
Proof. pose proof (context_ensure_dep t k st) as H. by injection H. Qed.

Lemma trackOpBit_ensure_dep t k st : trackOpBit (ensure_dep t k st) = trackOpBit st.
Proof. pose proof (context_ensure_dep t k st) as H. by injection H. Qed.

(** The running effect gains the set read unless it holds it already. *)
Lemma track_subscribed e d L t ty k st :
  tracking_ctx e d st ->
  subscribed_at e d L st ->
  subscribed_at e d (if decide (DLoc t k ∈ L) then L else L ++ [DLoc t k])
    (track t ty k st).
Proof.
  intros (Ha & Hs & Hd & Hbit & Hd0) ((x & Hx & HL) & Hnd & Hall).
  rewrite (track_tracked _ _ _ e) by done.
  set (st1 := ensure_dep t k st).
  assert (Ha1 : activeEffect st1 = Some e) by by (unfold st1; rewrite activeEffect_ensure_dep).
  assert (Hl1 : lookup_dep (DLoc t k) st1 = Some (dep_at (DLoc t k) st)) by apply lookup_dep_ensure_dep.
  pose proof (trackEffects_dep (DLoc t k) e _ st1 Ha1 Hl1) as Hdep.
  pose proof (trackEffects_dep_ne (DLoc t k) e _ st1 Ha1 Hl1) as Hne.
  pose proof (trackEffects_effects (DLoc t k) e _ st1 Ha1 Hl1) as Heff.
  cbv zeta in Hdep, Heff. unfold st1 in Hdep, Heff. rewrite depth_ensure_dep, trackOpBit_ensure_dep in Hdep, Heff.
  rewrite effects_ensure_dep in Heff. rewrite Hd, Hbit in Hdep, Heff.
  fold st1 in Hdep, Heff.
  destruct (Hall (DLoc t k)) as [Hocc Hmark].
  (* the set is added exactly when it is not on the list *)
  assert (Hadded :
    (if d <=? maxMarkerBits
     then negb (newTracked (dep_at (DLoc t k) st) (shl 1 d))
          && negb (wasTracked (dep_at (DLoc t k) st) (shl 1 d))
     else negb (set_has e (members (dep_at (DLoc t k) st))))
    = negb (bool_decide ((DLoc t k) ∈ L))).
  { destruct (Z.leb_spec d maxMarkerBits) as [Hle|Hgt].
    - destruct (Hmark Hle) as [-> ->]. by rewrite andb_true_r.
    - rewrite set_has_occurrences, Hocc, negb_involutive.
      destruct (decide ((DLoc t k) ∈ L)).
      + by rewrite bool_decide_eq_false_2, bool_decide_eq_true_2.
      + by rewrite bool_decide_eq_true_2, bool_decide_eq_false_2. }
  rewrite Hadded in Hdep, Heff.
  destruct (decide ((DLoc t k) ∈ L)) as [Hin|Hnin].
  - (* already subscribed: nothing changes *)
    rewrite bool_decide_eq_true_2 in Hdep, Heff by done. cbn [negb] in Hdep, Heff.
    assert (Hn : (d <=? maxMarkerBits) && negb (newTracked (dep_at (DLoc t k) st) (shl 1 d)) = false).
    { destruct (Z.leb_spec d maxMarkerBits) as [Hle|Hgt]; [ |done].
      destruct (Hmark Hle) as [-> _]. by rewrite bool_decide_eq_true_2. }
    rewrite Hn in Hdep.
    assert (Hsame : forall r, dep_at r (trackEffects (DLoc t k) st1) = dep_at r st).
    { intros r. destruct (decide ((DLoc t k) = r)) as [<-|Hr].
      - rewrite Hdep. by destruct (dep_at (DLoc t k) st).
      - rewrite Hne by done. apply dep_at_ensure_dep. }
    split; [exists x; by rewrite Heff|]. split; [done|].
    intros r. rewrite Hsame. apply Hall.
  - (* a new subscription *)
    rewrite bool_decide_eq_false_2 in Hdep, Heff by done. cbn [negb] in Hdep, Heff.
    split; [ |split].
    + exists (with_deps (deps x ++ [(DLoc t k)]) x). rewrite Heff, list_lookup_alter_eq, Hx.
      split; [done|]. cbn. by rewrite HL.
    + apply NoDup_app. split; [done|]. split; [ |apply NoDup_singleton].
      intros y Hy ->%list_elem_of_singleton. done.
    + intros r. destruct (decide ((DLoc t k) = r)) as [<-|Hr].
      * rewrite Hdep. cbn [members dep_n dep_w].
        rewrite decide_True by (apply elem_of_app; right; by apply list_elem_of_singleton).
        split.
        -- rewrite occurrences_set_add. rewrite decide_False; [done|].
           apply occurrences_zero. by rewrite Hocc.
        -- intros Hle. destruct (Hmark Hle) as [Hn Hw].
           rewrite bool_decide_eq_false_2 in Hn by done.
           rewrite (proj2 (Z.leb_le _ _) Hle), Hn. cbn [andb negb].
           rewrite bool_decide_eq_true_2
             by (apply elem_of_app; right; by apply list_elem_of_singleton).
           split; [ |exact Hw].
           unfold maxMarkerBits in Hle.
           rewrite newTracked_testbit by lia. cbn [dep_n].
           rewrite shl_1 by lia. rewrite testbit_set by lia.
           rewrite bool_decide_eq_true_2 by done. apply orb_true_r.
      * rewrite Hne by done. unfold st1. rewrite dep_at_ensure_dep.
        destruct (Hall r) as [Hocc' Hmark'].
        assert (Hiff : r ∈ L ++ [(DLoc t k)] <-> r ∈ L).
        { rewrite elem_of_app, list_elem_of_singleton. split; [intros [?|?]; [done|congruence]|tauto]. }
        split.
        -- rewrite Hocc'. destruct (decide (r ∈ L)), (decide (r ∈ L ++ [(DLoc t k)])); tauto.
        -- intros Hle. destruct (Hmark' Hle) as [-> ->]. split; [ |done].
           apply bool_decide_ext. tauto.
Qed.

Lemma same_for_refl e d st : same_for e d st st.
Proof. split; [done|]. intros r. split; [done|]. intros _. done. Qed.

Lemma same_for_trans e d st1 st2 st3 :
  same_for e d st1 st2 -> same_for e d st2 st3 -> same_for e d st1 st3.
Proof.
  intros [He1 H1] [He2 H2]. split; [congruence|].
  intros r. destruct (H1 r) as [Ho1 Hm1], (H2 r) as [Ho2 Hm2].
  split; [congruence|]. intros Hd.
  destruct (Hm1 Hd) as [? ?], (Hm2 Hd) as [? ?]. split; congruence.
Qed.

Lemma subscribed_at_same_for e d L st st' :
  0 <= d -> same_for e d st st' -> subscribed_at e d L st -> subscribed_at e d L st'.
Proof.
  intros Hd0 [He Hs] ((x & Hx & HL) & Hnd & Hall).
  split; [exists x; by rewrite He|]. split; [done|].
  intros r. destruct (Hs r) as [Ho Hm], (Hall r) as [Ho' Hm'].
  split; [congruence|]. intros Hle.
  destruct (Hm (conj Hd0 Hle)) as [-> ->]. by apply Hm'.
Qed.

(** A read by the running effect is not seen by another effect at another
    depth. *)
Lemma track_same_for e d e' d' t ty k st :
  tracking_ctx e d st -> e' <> e -> d' <> d ->
  same_for e' d' st (track t ty k st).
Proof.
  intros (Ha & Hs & Hd & Hbit & Hd0) He Hdd.
  rewrite (track_tracked _ _ _ e) by done.
  set (st1 := ensure_dep t k st).
  assert (Ha1 : activeEffect st1 = Some e) by by (unfold st1; rewrite activeEffect_ensure_dep).
  assert (Hl1 : lookup_dep (DLoc t k) st1 = Some (dep_at (DLoc t k) st)) by apply lookup_dep_ensure_dep.
  pose proof (trackEffects_dep (DLoc t k) e _ st1 Ha1 Hl1) as Hdep.
  pose proof (trackEffects_dep_ne (DLoc t k) e _ st1 Ha1 Hl1) as Hne.
  pose proof (trackEffects_effects (DLoc t k) e _ st1 Ha1 Hl1) as Heff.
  cbv zeta in Hdep, Heff. unfold st1 in Hdep, Heff. rewrite depth_ensure_dep, trackOpBit_ensure_dep in Hdep, Heff.
  rewrite effects_ensure_dep in Heff. rewrite Hd, Hbit in Hdep, Heff.
  fold st1 in Hdep, Heff.
  split.
  - rewrite Heff. match goal with |- context [if ?b then _ else _] => destruct b end;
      [by rewrite list_lookup_alter_ne|done].
  - intros r. destruct (decide ((DLoc t k) = r)) as [<-|Hr].
    + rewrite Hdep. cbn [members]. split.
      * match goal with |- context [if ?b then _ else _] => destruct b end; [ |done].
        by apply occurrences_set_add_ne.
      * intros Hd'. split; [ |done].
        destruct (Z.leb_spec d maxMarkerBits) as [Hle|Hgt]; cbn [andb]; [ |done].
        destruct (newTracked (dep_at (DLoc t k) st) (shl 1 d)); cbn [negb]; [done|].
        unfold maxMarkerBits in *.
        rewrite !newTracked_testbit by lia. cbn [dep_n].
        rewrite shl_1 by lia. rewrite testbit_set by lia.
        rewrite bool_decide_eq_false_2 by congruence. apply orb_false_r.
    + rewrite Hne by done. unfold st1. rewrite dep_at_ensure_dep. split; [done|]. intros _. done.
Qed.

(** ** A sequence of reads *)

Lemma track_all_cons l ls st : track_all (l :: ls) st = track_all ls (track l.1 GET l.2 st).
Proof. reflexivity. Qed.

Lemma track_all_context ls st : context (track_all ls st) = context st.
Proof.
  revert st. induction ls as [|l ls IH]; intros st; [done|].
  by rewrite track_all_cons, IH, track_context.
Qed.

Lemma track_all_cfields ls st c :
  cfields <$> computeds (track_all ls st) !! c = cfields <$> computeds st !! c.
Proof.
  revert st. induction ls as [|l ls IH]; intros st; [done|].
  by rewrite track_all_cons, IH, track_computeds_cfields.
Qed.

Lemma track_all_untracked ls st :
  shouldTrack st = false \/ activeEffect st = None -> track_all ls st = st.
Proof.
  intros H. induction ls as [|l ls IH]; [done|].
  by rewrite track_all_cons, track_untracked.
Qed.

Lemma track_all_subscribed e d L ls st :
  tracking_ctx e d st ->
  subscribed_at e d L st ->
  subscribed_at e d (add_all L (map loc ls)) (track_all ls st).
Proof.
  revert L st. induction ls as [|[t k] ls IH]; intros L st Hc Hs; [done|].
  rewrite track_all_cons. cbn [map add_all foldl].
  apply IH; [by apply tracking_ctx_track|]. by apply track_subscribed.
Qed.

Lemma track_all_same_for e d e' d' ls st :
  tracking_ctx e d st -> e' <> e -> d' <> d ->
  same_for e' d' st (track_all ls st).
Proof.
  revert st. induction ls as [|[t k] ls IH]; intros st Hc He Hd.
  - apply same_for_refl.
  - rewrite track_all_cons. eapply same_for_trans.
    + by apply (track_same_for e d).
    + apply IH; [by apply tracking_ctx_track|done|done].
Qed.

(** ** [cleanupEffect] *)

Lemma set_delete_idemp e l : set_delete e (set_delete e l) = set_delete e l.
Proof.
  unfold set_delete. induction l as [|y l IH]; [done|].
  rewrite filter_cons. destruct (decide (y ≠ e)) as [Hy|Hy]; [ |done].
  rewrite filter_cons, decide_True by done. by rewrite IH.
Qed.

Section Cleanup.

Context (e : eid).

Let del (d : Dep) : Dep := with_members (set_delete e (members d)) d.
Let step (s : State) (r : depref) : State := alter_dep del r s.

Lemma foldl_cleanup_dep ds st r :
  dep_at r (foldl step st ds)
  = if decide (r ∈ ds) then del (dep_at r st) else dep_at r st.
Proof.
  revert st. induction ds as [|r0 ds IH]; intros st; [done|].
  cbn [foldl]. rewrite IH. unfold step.
  destruct (decide (r0 = r)) as [->|Hne].
  - rewrite dep_at_alter_dep by done.
    rewrite (decide_True (P := r ∈ r :: ds)) by apply list_elem_of_here.
    destruct (decide (r ∈ ds)); [ |done].
    unfold del, with_members. cbn [members dep_w dep_n]. by rewrite set_delete_idemp.
  - rewrite dep_at_alter_dep_ne by done.
    destruct (decide (r ∈ ds)) as [Hin|Hnin].
    + by rewrite decide_True by (by apply list_elem_of_further).
    + rewrite decide_False; [done|]. rewrite elem_of_cons. intros [?|?]; congruence.
Qed.

Lemma foldl_cleanup_effects ds st : effects (foldl step st ds) = effects st.
Proof.
  revert st. induction ds as [|r0 ds IH]; intros st; [done|].
  cbn [foldl]. rewrite IH. apply effects_alter_dep.
Qed.

Lemma foldl_cleanup_context ds st : context (foldl step st ds) = context st.
Proof.
  revert st. induction ds as [|r0 ds IH]; intros st; [done|].
  cbn [foldl]. rewrite IH. apply context_alter_dep.
Qed.

Lemma foldl_cleanup_cfields ds st c :
  cfields <$> computeds (foldl step st ds) !! c = cfields <$> computeds st !! c.
Proof.
  revert st. induction ds as [|r0 ds IH]; intros st; [done|].
  cbn [foldl]. rewrite IH. apply cfields_alter_dep.
Qed.

Lemma cleanupEffect_dep x st r :
  effects st !! e = Some x ->
  dep_at r (cleanupEffect e st)
  = if decide (r ∈ deps x) then del (dep_at r st) else dep_at r st.
Proof.
  intros Hx. unfold cleanupEffect. rewrite Hx.
  destruct (deps x) as [|r0 ds] eqn:Hds.
  - rewrite decide_False; [done|]. apply not_elem_of_nil.
  - rewrite dep_at_update_effect. apply (foldl_cleanup_dep (r0 :: ds)).
Qed.

Lemma cleanupEffect_effects x st :
  effects st !! e = Some x ->
  effects (cleanupEffect e st) = alter (with_deps []) e (effects st).
Proof.
  intros Hx. unfold cleanupEffect. rewrite Hx.
  destruct (deps x) as [|r0 ds] eqn:Hds.
  - symmetry. apply (alter_same _ _ _ x); [done|]. destruct x. cbn in Hds. by subst.
  - unfold update_effect. cbn [effects set_effects].
    by rewrite (foldl_cleanup_effects (r0 :: ds)).
Qed.

Lemma cleanupEffect_context st : context (cleanupEffect e st) = context st.
Proof.
  unfold cleanupEffect. destruct (effects st !! e) as [x|]; [ |done].
  destruct (deps x) as [|r0 ds]; [done|].
  rewrite context_update_effect. apply (foldl_cleanup_context (r0 :: ds)).
Qed.

Lemma cleanupEffect_cfields st c :
  cfields <$> computeds (cleanupEffect e st) !! c = cfields <$> computeds st !! c.
Proof.
  unfold cleanupEffect. destruct (effects st !! e) as [x|]; [ |done].
  destruct (deps x) as [|r0 ds]; [done|].
  unfold update_effect. cbn [computeds set_effects].
  apply (foldl_cleanup_cfields (r0 :: ds)).
Qed.

End Cleanup.

(** After [cleanupEffect] an effect whose sets were all on its list is in
    no set. *)
Lemma cleanupEffect_unsubscribes e x st r :
  effects st !! e = Some x ->
  (e ∈ members (dep_at r st) -> r ∈ deps x) ->
  occurrences e (members (dep_at r (cleanupEffect e st))) = 0%nat.
Proof.
  intros Hx Hl. rewrite (cleanupEffect_dep e x) by done.
  destruct (decide (r ∈ deps x)) as [Hin|Hnin].
  - cbn. apply occurrences_set_delete.
  - apply occurrences_zero. intros Hm. apply Hnin, Hl, Hm.
Qed.

Lemma cleanupEffect_same_for e e' d x st :
  effects st !! e = Some x -> e' <> e -> same_for e' d st (cleanupEffect e st).
Proof.
  intros Hx Hne. split.
  - rewrite (cleanupEffect_effects e x) by done. by rewrite list_lookup_alter_ne.
  - intros r. rewrite (cleanupEffect_dep e x) by done.
    destruct (decide (r ∈ deps x)); [ |by split].
    split; [ |by split]. cbn. by apply occurrences_set_delete_ne.
Qed.

(** ** [finalizeDepMarkers] *)

Section Finalize.

Context (e : eid) (bit : Z).

Let clear (d : Dep) : Dep :=
  with_n (band (dep_n d) (bnot bit)) (with_w (band (dep_w d) (bnot bit)) d).

Lemma foldl_finalize ds st kept :
  NoDup ds ->
  (forall r, r ∈ ds -> wasTracked (dep_at r st) bit = false) ->
  exists st',
    foldl (finalizeDep e bit) (st, kept) ds = (st', kept ++ ds)
    /\ (forall r, dep_at r st' = if decide (r ∈ ds) then clear (dep_at r st) else dep_at r st)
    /\ effects st' = effects st
    /\ context st' = context st
    /\ (forall c, cfields <$> computeds st' !! c = cfields <$> computeds st !! c).
Proof.
  revert st kept. induction ds as [|r0 ds IH]; intros st kept Hnd Hw.
  - exists st. rewrite app_nil_r. repeat split; try done.
  - apply NoDup_cons in Hnd as [Hr0 Hnd].
    cbn [foldl]. unfold finalizeDep at 2.
    destruct (lookup_dep r0 st) as [d0|] eqn:Hl.
    + assert (Hd0 : dep_at r0 st = d0) by (unfold dep_at; by rewrite Hl).
      rewrite <- Hd0, (Hw r0) by apply list_elem_of_here. cbn [andb].
      set (st1 := alter_dep _ r0 st).
      destruct (IH st1 (kept ++ [r0]) Hnd) as (st' & Hf & Hdep & Heff & Hctx & Hcf).
      { intros r Hr. unfold st1. rewrite dep_at_alter_dep_ne by congruence.
        apply Hw. by apply list_elem_of_further. }
      exists st'. split; [by rewrite Hf, <- app_assoc|].
      split; [ |split; [ |split]].
      * intros r. rewrite Hdep. unfold st1.
        destruct (decide (r0 = r)) as [<-|Hne].
        -- rewrite decide_False by done.
           rewrite (decide_True (P := r0 ∈ r0 :: ds)) by apply list_elem_of_here.
           by rewrite (dep_at_alter_dep_Some _ _ _ d0), Hd0.
        -- rewrite dep_at_alter_dep_ne by done.
           destruct (decide (r ∈ ds)) as [Hin|Hnin].
           ++ by rewrite decide_True by (by apply list_elem_of_further).
           ++ rewrite decide_False; [done|]. rewrite elem_of_cons. intros [?|?]; congruence.
      * rewrite Heff. apply effects_alter_dep.
      * rewrite Hctx. apply context_alter_dep.
      * intros c. rewrite Hcf. apply cfields_alter_dep.
    + destruct (IH st (kept ++ [r0]) Hnd) as (st' & Hf & Hdep & Heff & Hctx & Hcf).
      { intros r Hr. apply Hw. by apply list_elem_of_further. }
      exists st'. split; [by rewrite Hf, <- app_assoc|].
      split; [ |done]. intros r. rewrite Hdep.
      destruct (decide (r0 = r)) as [<-|Hne].
      * rewrite decide_False by done.
        rewrite (decide_True (P := r0 ∈ r0 :: ds)) by apply list_elem_of_here.
        unfold dep_at. rewrite Hl. reflexivity.
      * destruct (decide (r ∈ ds)) as [Hin|Hnin].
        -- by rewrite decide_True by (by apply list_elem_of_further).
        -- rewrite decide_False; [done|]. rewrite elem_of_cons. intros [?|?]; congruence.
Qed.

End Finalize.

Lemma finalizeDepMarkers_spec e x st :
  effects st !! e = Some x ->
  NoDup (deps x) ->
  (forall r, r ∈ deps x -> wasTracked (dep_at r st) (trackOpBit st) = false) ->
  (forall r, dep_at r (finalizeDepMarkers e st)
             = if decide (r ∈ deps x)
               then with_n (band (dep_n (dep_at r st)) (bnot (trackOpBit st)))
                      (with_w (band (dep_w (dep_at r st)) (bnot (trackOpBit st)))
                         (dep_at r st))
               else dep_at r st)
  /\ effects (finalizeDepMarkers e st) = effects st
  /\ context (finalizeDepMarkers e st) = context st
  /\ (forall c, cfields <$> computeds (finalizeDepMarkers e st) !! c
                = cfields <$> computeds st !! c).
Proof.
  intros Hx Hnd Hw. unfold finalizeDepMarkers. rewrite Hx.
  destruct (deps x) as [|r0 ds] eqn:Hds.
  - split; [ |done]. intros r. rewrite decide_False; [done|]. apply not_elem_of_nil.
  - destruct (foldl_finalize e (trackOpBit st) (r0 :: ds) st [] Hnd Hw)
      as (st' & Hf & Hdep & Heff & Hctx & Hcf).
    rewrite Hf. cbn [app].
    split; [ |split; [ |split]].
    + intros r. rewrite dep_at_update_effect. apply Hdep.
    + unfold update_effect. cbn [effects set_effects]. rewrite Heff.
      apply (alter_same _ _ _ x); [done|]. destruct x. cbn in Hds. by subst.
    + by rewrite context_update_effect.
    + intros c. unfold update_effect. cbn [computeds set_effects]. apply Hcf.
Qed.

(** ** Bodies that only read *)

Lemma lookup_dep_set_vars f r st : lookup_dep r (set_vars f st) = lookup_dep r st.
Proof. by destruct r. Qed.

Lemma alter_dep_set_vars g f r st :
  alter_dep g r (set_vars f st) = set_vars f (alter_dep g r st).
Proof. by destruct r. Qed.

Lemma ensure_dep_set_vars f t k st :
  ensure_dep t k (set_vars f st) = set_vars f (ensure_dep t k st).
Proof.
  unfold ensure_dep. cbn [targetMap set_vars].
  destruct (targetMap st !! t) eqn:Ht.
  - rewrite lookup_dep_set_vars. by destruct (lookup_dep _ st).
  - change (set_targetMap (insert t []) (set_vars f st))
      with (set_vars f (set_targetMap (insert t []) st)).
    rewrite lookup_dep_set_vars. by destruct (lookup_dep _ _).
Qed.

Lemma trackEffects_set_vars f r st :
  trackEffects r (set_vars f st) = set_vars f (trackEffects r st).
Proof.
  unfold trackEffects. rewrite lookup_dep_set_vars.
  cbn [activeEffect effectTrackDepth trackOpBit set_vars].
  destruct (activeEffect st) as [e|]; [ |done].
  destruct (lookup_dep r st) as [d|]; [ |done].
  destruct (effectTrackDepth st <=? maxMarkerBits).
  - destruct (newTracked d (trackOpBit st)); cbn [negb]; [done|].
    destruct (wasTracked d (trackOpBit st)); cbn [negb].
    + apply alter_dep_set_vars.
    + by rewrite !alter_dep_set_vars.
  - destruct (set_has e (members d)); cbn [negb]; [done|].
    by rewrite !alter_dep_set_vars.
Qed.

Lemma track_set_vars f t ty k st :
  track t ty k (set_vars f st) = set_vars f (track t ty k st).
Proof.
  unfold track. cbn [shouldTrack activeEffect set_vars].
  destruct (shouldTrack st); [ |done]. destruct (activeEffect st); [ |done].
  by rewrite ensure_dep_set_vars, trackEffects_set_vars.
Qed.

Lemma track_all_set_vars f ls st :
  track_all ls (set_vars f st) = set_vars f (track_all ls st).
Proof.
  revert st. induction ls as [|l ls IH]; intros st; [done|].
  by rewrite !track_all_cons, track_set_vars, IH.
Qed.

Lemma vars_track_all ls st : vars (track_all ls st) = vars st.
Proof. pose proof (track_all_context ls st) as H. by injection H. Qed.

(** A body that only reads returns, whatever the way function values are
    called: it performs its reads in order and leaves its variables. *)
Lemma exec_simple call p st :
  simple p ->
  exec call p st
  = Some (Normal (result p (vars st)),
          set_vars (fun _ => final_vars p (vars st)) (track_all (reads p (vars st)) st)).
Proof.
  intros Hp. revert st. induction Hp as [v|t ty k next _ IH|x next _ IH|x v next _ IH];
    intros st; cbn [exec reads result final_vars].
  - unfold ret. f_equal. f_equal. by destruct st.
  - rewrite IH. rewrite track_all_cons. cbn [fst snd].
    pose proof (track_context t ty k st) as H. injection H as _ _ _ _ _ Hv _.
    by rewrite Hv.
  - apply IH.
  - rewrite IH. cbn [vars set_vars]. by rewrite track_all_set_vars.
Qed.

(** ** The fields of an effect other than its list of sets *)

Lemma efields_alter_deps (f : ReactiveEffect -> ReactiveEffect) (e e' : nat)
    (l : list ReactiveEffect) :
  (forall x, efields (f x) = efields x) ->
  efields <$> alter f e l !! e' = efields <$> l !! e'.
Proof.
  intros Hf. destruct (decide (e = e')) as [->|Hne].
  - rewrite list_lookup_alter_eq. destruct (l !! e'); cbn; [by rewrite Hf|done].
  - by rewrite list_lookup_alter_ne.
Qed.

Lemma track_efields t ty k st e' :
  efields <$> effects (track t ty k st) !! e' = efields <$> effects st !! e'.
Proof.
  unfold track. destruct (shouldTrack st); [ |done].
  destruct (activeEffect st) as [e|] eqn:Ha; [ |done].
  assert (Ha1 : activeEffect (ensure_dep t k st) = Some e)
    by by rewrite activeEffect_ensure_dep.
  pose proof (trackEffects_effects (DLoc t k) e _ _ Ha1 (lookup_dep_ensure_dep t k st)) as H.
  cbv zeta in H. rewrite H, effects_ensure_dep.
  match goal with |- context [if ?b then _ else _] => destruct b end; [ |done].
  by apply efields_alter_deps.
Qed.

Lemma track_all_efields ls st e' :
  efields <$> effects (track_all ls st) !! e' = efields <$> effects st !! e'.
Proof.
  revert st. induction ls as [|l ls IH]; intros st; [done|].
  by rewrite track_all_cons, IH, track_efields.
Qed.

Lemma track_all_length ls st : length (effects (track_all ls st)) = length (effects st).
Proof.
  pose proof (fun e' => track_all_efields ls st e') as H.
  apply Nat.le_antisymm; apply Nat.nlt_ge; intros Hlt.
  - specialize (H (length (effects st))).
    rewrite (lookup_ge_None_2 (effects st)) in H by lia.
    destruct (lookup_lt_is_Some_2 (effects (track_all ls st)) (length (effects st)) Hlt)
      as [y Hy]. by rewrite Hy in H.
  - specialize (H (length (effects (track_all ls st)))).
    rewrite (lookup_ge_None_2 (effects (track_all ls st))) in H by lia.
    destruct (lookup_lt_is_Some_2 (effects st) _ Hlt) as [y Hy]. by rewrite Hy in H.
Qed.

(** ** Entering and leaving a run *)

Lemma dep_at_ctx_eq st st' r :
  targetMap st' = targetMap st -> computeds st' = computeds st ->
  dep_at r st' = dep_at r st.
Proof. intros Ht Hc. unfold dep_at, lookup_dep. by rewrite Ht, Hc. Qed.

Section RunEnter.

Context (e : eid) (x : ReactiveEffect) (st : State).
Hypothesis Hx : effects st !! e = Some x.

Let d := effectTrackDepth st + 1.

Lemma run_enter_context :
  context (run_enter e st)
  = (d, shl 1 d, Some e, true, trackStack st, vars st, trace st).
Proof using Type. unfold run_enter. by rewrite cleanupEffect_context. Qed.

Lemma run_enter_effects :
  effects (run_enter e st)
  = alter (fun y => with_deps [] (with_parent (activeEffect st) y)) e (effects st).
Proof using Hx.
  unfold run_enter.
  rewrite (cleanupEffect_effects e (with_parent (activeEffect st) x)).
  - cbn [effects set_depth set_shouldTrack set_activeEffect update_effect set_effects].
    by rewrite list_alter_alter_eq.
  - cbn [effects set_depth set_shouldTrack set_activeEffect update_effect set_effects].
    by rewrite list_lookup_alter_eq, Hx.
Qed.

Lemma run_enter_dep r :
  dep_at r (run_enter e st)
  = if decide (r ∈ deps x)
    then with_members (set_delete e (members (dep_at r st))) (dep_at r st)
    else dep_at r st.
Proof using Hx.
  unfold run_enter.
  rewrite (cleanupEffect_dep e (with_parent (activeEffect st) x)).
  - reflexivity.
  - cbn [effects set_depth set_shouldTrack set_activeEffect update_effect set_effects].
    by rewrite list_lookup_alter_eq, Hx.
Qed.

Lemma run_enter_cfields c :
  cfields <$> computeds (run_enter e st) !! c = cfields <$> computeds st !! c.
Proof using Type. unfold run_enter. by rewrite cleanupEffect_cfields. Qed.

Lemma run_enter_tracking : 0 <= effectTrackDepth st -> tracking_ctx e d (run_enter e st).
Proof using Type.
  intros Hd. pose proof run_enter_context as H. unfold context in H.
  injection H as H1 H2 H3 H4 _ _ _. unfold tracking_ctx.
  rewrite H1, H2, H3, H4. repeat split; try done. unfold d. lia.
Qed.

Lemma run_enter_subscribed :
  listed e st -> markers_clear d st -> subscribed_at e d [] (run_enter e st).
Proof using Hx.
  intros Hl Hm. split; [ |split].
  - exists (with_deps [] (with_parent (activeEffect st) x)).
    by rewrite run_enter_effects, list_lookup_alter_eq, Hx.
  - apply NoDup_nil_2.
  - intros r. rewrite run_enter_dep. split.
    + destruct (decide (r ∈ deps x)) as [Hin|Hnin]; cbn [members with_members].
      * apply occurrences_set_delete.
      * apply occurrences_zero. intros Hmem. apply Hnin.
        specialize (Hl r Hmem). unfold deps_of in Hl. by rewrite Hx in Hl.
    + intros Hle. destruct (Hm Hle r) as [Hn Hw].
      rewrite bool_decide_eq_false_2 by apply not_elem_of_nil.
      by destruct (decide (r ∈ deps x)).
Qed.

Lemma run_enter_same_for e' d' : e' <> e -> same_for e' d' st (run_enter e st).
Proof using Hx.
  intros Hne. split.
  - by rewrite run_enter_effects, list_lookup_alter_ne.
  - intros r. rewrite run_enter_dep.
    destruct (decide (r ∈ deps x)); [ |by split].
    split; [ |by split]. cbn. by apply occurrences_set_delete_ne.
Qed.

End RunEnter.

Section RunExit.

Context (e : eid) (d : Z) (L : list depref) (last : bool) (st : State).
Hypothesis Hctx : tracking_ctx e d st.
Hypothesis Hsub : subscribed_at e d L st.

Let fin := if d <=? maxMarkerBits then finalizeDepMarkers e st else st.

Lemma run_exit_finalize :
  (forall r, dep_at r fin
             = if (d <=? maxMarkerBits) && bool_decide (r ∈ L)
               then with_n (band (dep_n (dep_at r st)) (bnot (shl 1 d)))
                      (with_w (band (dep_w (dep_at r st)) (bnot (shl 1 d)))
                         (dep_at r st))
               else dep_at r st)
  /\ effects fin = effects st
  /\ context fin = context st
  /\ (forall c, cfields <$> computeds fin !! c = cfields <$> computeds st !! c).
Proof using Hctx Hsub.
  destruct Hctx as (Ha & Hs & Hd & Hbit & Hd0).
  destruct Hsub as ((x & Hx & HL) & Hnd & Hall).
  unfold fin. destruct (Z.leb_spec d maxMarkerBits) as [Hle|Hgt]; [ |done].
  destruct (finalizeDepMarkers_spec e x st Hx) as (H1 & H2 & H3 & H4).
  { by rewrite HL. }
  { intros r Hr. rewrite Hbit. by apply Hall. }
  split; [ |done]. intros r. rewrite H1, HL, Hbit. cbn [andb].
  destruct (decide (r ∈ L)).
  - by rewrite bool_decide_eq_true_2.
  - by rewrite bool_decide_eq_false_2.
Qed.

Lemma run_exit_eq :
  run_exit e last st
  = update_effect e (with_parent None)
      (set_shouldTrack last
         (set_activeEffect (parent_of st e)
            (set_depth (d - 1) (shl 1 (d - 1)) fin))).
Proof using Hctx Hsub.
  destruct run_exit_finalize as (_ & Heff & Hc & _).
  destruct Hctx as (Ha & Hs & Hd & Hbit & Hd0).
  unfold run_exit. fold fin. rewrite Hd. fold fin.
  unfold context in Hc. injection Hc as Hc1 _ _ _ _ _ _.
  rewrite Hc1, Hd. unfold parent_of.
  cbn [effects set_depth]. by rewrite Heff.
Qed.

Lemma run_exit_context :
  context (run_exit e last st)
  = (d - 1, shl 1 (d - 1), parent_of st e, last, trackStack st, vars st, trace st).
Proof using Hctx Hsub.
  rewrite run_exit_eq. destruct run_exit_finalize as (_ & _ & Hc & _).
  unfold context in *. injection Hc as _ _ _ _ H5 H6 H7.
  cbn. by rewrite H5, H6, H7.
Qed.

Lemma run_exit_effects :
  effects (run_exit e last st) = alter (with_parent None) e (effects st).
Proof using Hctx Hsub.
  rewrite run_exit_eq. destruct run_exit_finalize as (_ & Heff & _ & _).
  cbn. by rewrite Heff.
Qed.

Lemma run_exit_dep r :
  dep_at r (run_exit e last st)
  = if (d <=? maxMarkerBits) && bool_decide (r ∈ L)
    then with_n (band (dep_n (dep_at r st)) (bnot (shl 1 d)))
           (with_w (band (dep_w (dep_at r st)) (bnot (shl 1 d))) (dep_at r st))
    else dep_at r st.
Proof using Hctx Hsub.
  rewrite run_exit_eq. destruct run_exit_finalize as (Hdep & _ & _ & _).
  rewrite dep_at_update_effect. rewrite <- Hdep. by destruct r.
Qed.

Lemma run_exit_cfields c :
  cfields <$> computeds (run_exit e last st) !! c = cfields <$> computeds st !! c.
Proof using Hctx Hsub.
  rewrite run_exit_eq. destruct run_exit_finalize as (_ & _ & _ & Hcf).
  cbn. apply Hcf.
Qed.

(** The effect is left in the sets of [L], once in each, and in no
    other. *)
Lemma run_exit_occurrences r :
  occurrences e (members (dep_at r (run_exit e last st)))
  = (if decide (r ∈ L) then 1 else 0)%nat.
Proof using Hctx Hsub.
  rewrite run_exit_dep. destruct Hsub as (_ & _ & Hall).
  destruct (Hall r) as [<- _].
  by destruct ((d <=? maxMarkerBits) && bool_decide (r ∈ L)).
Qed.

(** The marker bits of the depth of the run are clear again. *)
Lemma run_exit_markers_clear : markers_clear d (run_exit e last st).
Proof using Hctx Hsub.
  intros Hle r. rewrite run_exit_dep.
  destruct Hctx as (Ha & Hs & Hd & Hbit & Hd0).
  destruct Hsub as (_ & _ & Hall). destruct (Hall r) as [_ Hm].
  destruct (Hm Hle) as [Hn Hw].
  rewrite (proj2 (Z.leb_le _ _) Hle). cbn [andb].
  destruct (decide (r ∈ L)) as [Hin|Hnin].
  - rewrite bool_decide_eq_true_2 by done.
    unfold maxMarkerBits in Hle.
    rewrite newTracked_testbit, wasTracked_testbit by lia. cbn [dep_n dep_w with_n with_w].
    rewrite shl_1 by lia. rewrite !testbit_clear by lia.
    rewrite bool_decide_eq_true_2 by done. by rewrite !andb_false_r.
  - rewrite bool_decide_eq_false_2 in Hn |- * by done. done.
Qed.

Lemma run_exit_same_for e' d' : e' <> e -> d' <> d -> same_for e' d' st (run_exit e last st).
Proof using Hctx Hsub.
  intros He Hd'. destruct Hctx as (Ha & Hs & Hd & Hbit & Hd0). split.
  - by rewrite run_exit_effects, list_lookup_alter_ne.
  - intros r. rewrite run_exit_dep.
    destruct (Z.leb_spec d maxMarkerBits) as [Hle|Hgt]; cbn [andb]; [ |by split].
    destruct (bool_decide (r ∈ L)); [ |by split].
    split; [done|]. intros Hd'm. unfold maxMarkerBits in *.
    rewrite !newTracked_testbit, !wasTracked_testbit by lia.
    cbn [dep_n dep_w with_n with_w].
    rewrite shl_1 by lia. rewrite !testbit_clear by lia.
    rewrite bool_decide_eq_false_2 by congruence. by rewrite !andb_true_r.
Qed.

End RunExit.

(** ** A run of a body that only reads *)

Lemma run_active call e x st :
  effects st !! e = Some x -> active x = true -> inParentChain st e = Some false ->
  run call e st
  = finallyR (call (UserFn (fn x)) (log (EvFn e) (run_enter e st)))
      (run_finally call e (shouldTrack st)).
Proof. intros Hx Ha Hc. unfold run. by rewrite Hx, Ha, Hc. Qed.

Lemma call_n_user fuel p st : call_n (S fuel) (UserFn p) st = exec (call_n fuel) p st.
Proof. reflexivity. Qed.

Lemma call_n_scheduler fuel c st :
  call_n (S fuel) (ComputedScheduler c) st = computedScheduler (call_n fuel) c st.
Proof. reflexivity. Qed.

Lemma vars_run_enter e st : vars (run_enter e st) = vars st.
Proof. pose proof (run_enter_context e st) as H. by injection H. Qed.

Lemma same_for_eq e d st st' :
  effects st' = effects st -> (forall r, dep_at r st' = dep_at r st) -> same_for e d st st'.
Proof.
  intros He Hd. split; [by rewrite He|]. intros r. rewrite Hd. by split.
Qed.

Section RunSimple.

Context (e : eid) (x : ReactiveEffect) (st : State).
Hypothesis Hx : effects st !! e = Some x.
Hypothesis Hdepth : 0 <= effectTrackDepth st.
Hypothesis Hlisted : listed e st.

Let d := effectTrackDepth st + 1.
Hypothesis Hclear : markers_clear d st.

Context (p : prog).
Let ls := reads p (vars st).
Let L := add_all [] (map loc ls).

(** The state in which the body [p] of the run returns. *)
Let body_end : State :=
  set_vars (fun _ => final_vars p (vars st))
    (track_all ls (log (EvFn e) (run_enter e st))).

Lemma body_end_tracking : tracking_ctx e d body_end.
Proof using Hdepth.
  pose proof (run_enter_tracking e st Hdepth) as (H1 & H2 & H3 & H4 & H5).
  unfold body_end, tracking_ctx.
  pose proof (track_all_context ls (log (EvFn e) (run_enter e st))) as Hc.
  unfold context in Hc. injection Hc as Hc1 Hc2 Hc3 Hc4 _ _ _.
  cbn [activeEffect shouldTrack effectTrackDepth trackOpBit set_vars].
  rewrite Hc1, Hc2, Hc3, Hc4. cbn [activeEffect shouldTrack effectTrackDepth trackOpBit log].
  done.
Qed.

Lemma body_end_subscribed : subscribed_at e d L body_end.
Proof using Hx Hdepth Hlisted Hclear.
  apply (subscribed_at_same_for e d L (track_all ls (log (EvFn e) (run_enter e st)))).
  - unfold d. lia.
  - apply same_for_eq; [done|]. intros r. by destruct r.
  - apply track_all_subscribed.
    + apply (run_enter_tracking e st Hdepth).
    + apply (subscribed_at_same_for e d [] (run_enter e st)).
      * unfold d. lia.
      * apply same_for_eq; [done|]. intros r. by destruct r.
      * by apply (run_enter_subscribed e x).
Qed.

Lemma body_end_efields e' :
  efields <$> effects body_end !! e'
  = efields <$> alter (with_parent (activeEffect st)) e (effects st) !! e'.
Proof using Hx.
  unfold body_end. cbn [effects set_vars].
  rewrite track_all_efields. cbn [effects log].
  rewrite (run_enter_effects e x) by done.
  destruct (decide (e = e')) as [<-|Hne].
  - rewrite !list_lookup_alter_eq. by destruct (effects st !! e).
  - by rewrite !list_lookup_alter_ne.
Qed.

Lemma body_end_parent : parent_of body_end e = activeEffect st.
Proof using Hx.
  pose proof (body_end_efields e) as H. rewrite list_lookup_alter_eq, Hx in H.
  unfold parent_of. destruct (effects body_end !! e) as [y|]; [ |done].
  cbn in H. injection H as _ H _ _ _ _ _ _. done.
Qed.

Lemma body_end_same_for e' d' : e' <> e -> d' <> d -> same_for e' d' st body_end.
Proof using Hx Hdepth.
  intros He Hd. eapply same_for_trans; [by apply (run_enter_same_for e x)|].
  eapply same_for_trans.
  - apply (same_for_eq _ _ _ (log (EvFn e) (run_enter e st))); [done|].
    intros r. by destruct r.
  - eapply same_for_trans.
    + apply (track_all_same_for e d e' d' ls); [ |done|done].
      apply (run_enter_tracking e st Hdepth).
    + apply same_for_eq; [done|]. intros r. by destruct r.
Qed.

Lemma body_end_cfields c :
  cfields <$> computeds body_end !! c = cfields <$> computeds st !! c.
Proof using Type.
  unfold body_end. cbn [computeds set_vars].
  rewrite track_all_cfields. cbn [computeds log]. apply run_enter_cfields.
Qed.

Lemma body_end_trace :
  trace body_end = trace st ++ [EvFn e]
  /\ vars body_end = final_vars p (vars st)
  /\ trackStack body_end = trackStack st.
Proof using Type.
  unfold body_end. cbn [trace vars trackStack set_vars].
  pose proof (track_all_context ls (log (EvFn e) (run_enter e st))) as Hc.
  unfold context in Hc. injection Hc as _ _ _ _ H5 _ H7. rewrite H5, H7.
  pose proof (run_enter_context e st) as Hc. unfold context in Hc.
  injection Hc as _ _ _ _ H5' _ H7'. cbn [trace trackStack log]. by rewrite H5', H7'.
Qed.

Hypothesis Hactive : active x = true.
Hypothesis Hchain : inParentChain st e = Some false.
Hypothesis Hfn : fn x = p.
Hypothesis Hp : simple p.

Lemma run_n_simple_finally fuel :
  run_n (S fuel) e st
  = finallyR (Some (Normal (result p (vars st)), body_end))
      (run_finally (call_n (S fuel)) e (shouldTrack st)).
Proof using Hx Hactive Hchain Hfn Hp.
  unfold run_n. rewrite (run_active _ e x) by done. rewrite Hfn.
  rewrite call_n_user, exec_simple by done.
  cbn [vars log]. by rewrite vars_run_enter.
Qed.

(** Without a pending stop the run ends when the context has been
    restored. *)
Lemma run_n_simple fuel :
  deferStop x = false ->
  run_n (S fuel) e st
  = Some (Normal (result p (vars st)), run_exit e (shouldTrack st) body_end).
Proof using Hx Hactive Hchain Hfn Hp Hdepth Hlisted Hclear.
  intros Hds. rewrite run_n_simple_finally. unfold finallyR, run_finally.
  rewrite (run_exit_effects e d L) by
    (apply body_end_tracking || apply body_end_subscribed).
  rewrite list_lookup_alter_eq.
  pose proof (body_end_efields e) as H. rewrite list_lookup_alter_eq, Hx in H.
  destruct (effects body_end !! e) as [y|]; [ |done].
  cbn in H. injection H as _ _ _ _ H _ _ _. cbn. by rewrite H, Hds.
Qed.

End RunSimple.

Lemma elem_of_add_all_nil rs r : r ∈ add_all [] rs <-> r ∈ rs.
Proof. rewrite elem_of_add_all, elem_of_nil. tauto. Qed.

Lemma calls_of_snoc ev ev' st st' :
  trace st' = trace st ++ [ev'] ->
  calls_of ev st' = (calls_of ev st + if decide (ev' = ev) then 1 else 0)%nat.
Proof.
  intros H. unfold calls_of. rewrite H, filter_app, length_app. f_equal.
  rewrite filter_cons. by destruct (decide (ev' = ev)).
Qed.


(** ** Deciding the hypotheses on a given state *)

Lemma kget_elem_of k m d : kget k m = Some d -> (k, d) ∈ m.
Proof.
  induction m as [|[k' d'] m IH]; cbn; [done|].
  destruct (decide (k = k')) as [->|Hne].
  - intros [= ->]. apply list_elem_of_here.
  - intros H. apply list_elem_of_further. by apply IH.
Qed.

Lemma all_computed_deps_lookup P i l j x d :
  all_computed_deps P i l = true -> l !! j = Some x -> dep x = Some d ->
  P (DComputed (i + j)) d = true.
Proof.
  revert i j. induction l as [|y l IH]; intros i j Hall Hj Hd; [done|].
  cbn in Hall. apply andb_true_iff in Hall as [Hy Hall].
  destruct j as [|j]; cbn in Hj.
  - injection Hj as ->. rewrite Hd in Hy. by rewrite Nat.add_0_r.
  - replace (i + S j)%nat with (S i + j)%nat by lia. by apply IH.
Qed.

Lemma all_deps_dep_at P st r :
  all_deps P st = true -> P r (createDep []) = true -> P r (dep_at r st) = true.
Proof.
  intros Hall Hdef. unfold dep_at.
  destruct (lookup_dep r st) as [d|] eqn:Hl; [ |done]. cbn.
  unfold all_deps in Hall. apply andb_true_iff in Hall as [Ht Hc].
  destruct r as [t k|c]; unfold lookup_dep in Hl.
  - destruct (targetMap st !! t) as [m|] eqn:Hm; [ |done]. cbn in Hl.
    rewrite forallb_forall in Ht.
    specialize (Ht (t, m)). cbn in Ht. rewrite forallb_forall in Ht.
    apply (Ht ltac:(apply list_elem_of_In; by apply elem_of_map_to_list) (k, d)).
    apply list_elem_of_In. by apply kget_elem_of.
  - destruct (computeds st !! c) as [x|] eqn:Hx; [ |done]. cbn in Hl.
    apply (all_computed_deps_lookup P 0 _ c x d Hc Hx Hl).
Qed.

Lemma listed_b_sound e st : listed_b e st = true -> listed e st.
Proof.
  intros H r Hr.
  apply (all_deps_dep_at _ st r) in H; [ |done].
  apply orb_true_iff in H as [H|H].
  - apply negb_true_iff, bool_decide_eq_false in H. done.
  - by apply bool_decide_eq_true in H.
Qed.

Lemma markers_clear_b_sound d st : markers_clear_b d st = true -> markers_clear d st.
Proof.
  intros H _ r.
  apply (all_deps_dep_at _ st r) in H; [ |done].
  apply andb_true_iff in H as [H1 H2].
  by apply negb_true_iff in H1, H2.
Qed.

Lemma simple_branch_body : simple Examples.branch_body.
Proof.
  constructor. constructor. intros [|[|q|q]]; repeat constructor.
Qed.


(** ** What every call preserves *)

Lemma stable_refl x : stable x x.
Proof. by repeat split. Qed.

Lemma stable_trans x y z : stable x y -> stable y z -> stable x z.
Proof.
  intros (H1 & H2 & H3 & H4 & H5 & H6 & H7) (G1 & G2 & G3 & G4 & G5 & G6 & G7).
  repeat split; try congruence; auto.
Qed.

Lemma effects_stable_refl st : effects_stable st st.
Proof. intros e x Hx. exists x. split; [done|apply stable_refl]. Qed.

Lemma effects_stable_trans st1 st2 st3 :
  effects_stable st1 st2 -> effects_stable st2 st3 -> effects_stable st1 st3.
Proof.
  intros H1 H2 e x Hx. destruct (H1 e x Hx) as (y & Hy & Hxy).
  destruct (H2 e y Hy) as (z & Hz & Hyz). exists z. split; [done|].
  by apply (stable_trans x y z).
Qed.

Lemma Quiet_refl st : Quiet st st.
Proof. repeat split; try done. apply effects_stable_refl. Qed.

Lemma Quiet_trans st1 st2 st3 : Quiet st1 st2 -> Quiet st2 st3 -> Quiet st1 st3.
Proof.
  intros (A1 & A2 & A3 & A4) (B1 & B2 & B3 & B4).
  split; [congruence|]. split; [congruence|].
  split; [by apply (effects_stable_trans st1 st2 st3)|].
  intros e. by rewrite B4.
Qed.

Lemma reach_transfer st st' p e :
  (forall y, reach st p y -> parent_of st' y = parent_of st y) ->
  reach st p e -> reach st' p e.
Proof.
  intros H Hr. induction Hr as [e|y e Hr IH].
  - apply reach_here.
  - apply reach_next. rewrite (H y) by apply reach_here.
    apply IH. intros y' Hy'. apply H. by apply reach_next.
Qed.

Lemma Frame_refl st : Frame st st.
Proof. repeat split; try done. apply effects_stable_refl. Qed.

Lemma Frame_running st st' e : Frame st st' -> running st e -> running st' e.
Proof.
  intros (Ha & _ & _ & Hp) Hr. unfold running in *. rewrite Ha.
  by apply (reach_transfer st st').
Qed.

Lemma Frame_trans st1 st2 st3 : Frame st1 st2 -> Frame st2 st3 -> Frame st1 st3.
Proof.
  intros HA HB. pose proof HA as (A1 & A2 & A3 & A4). pose proof HB as (B1 & B2 & B3 & B4).
  split; [congruence|]. split; [congruence|].
  split; [by apply (effects_stable_trans st1 st2 st3)|].
  intros e Hr. rewrite B4 by (by apply (Frame_running st1 st2)). by apply A4.
Qed.

Lemma Quiet_Frame st st' : Quiet st st' -> Frame st st'.
Proof.
  intros (A1 & A2 & A3 & A4). split; [done|]. split; [done|]. split; [done|].
  intros e _. apply A4.
Qed.

(** The loop of [run] answers [false] only for an effect that is not
    running. *)
Lemma walkParents_false n st p e : walkParents n st p e = Some false -> ~ reach st p e.
Proof.
  revert p. induction n as [|n IH]; intros p Hw Hr.
  - destruct Hr as [e|y e Hr]; cbn in Hw.
    + by rewrite decide_True in Hw.
    + by destruct (decide (y = e)).
  - destruct Hr as [e|y e Hr]; cbn in Hw.
    + by rewrite decide_True in Hw.
    + destruct (decide (y = e)); [done|]. by apply (IH _ Hw).
Qed.

Lemma inParentChain_false st e : inParentChain st e = Some false -> ~ running st e.
Proof. apply walkParents_false. Qed.

(** *** Steps that are quiet *)

Lemma Quiet_same_effects st st' :
  activeEffect st' = activeEffect st -> effectTrackDepth st' = effectTrackDepth st ->
  effects st' = effects st -> Quiet st st'.
Proof.
  intros Ha Hd He. split; [done|]. split; [done|]. split.
  - intros e x Hx. exists x. rewrite He. split; [done|apply stable_refl].
  - intros e. unfold parent_of. by rewrite He.
Qed.

Lemma Quiet_alter_effect st st' e (f : ReactiveEffect -> ReactiveEffect) :
  activeEffect st' = activeEffect st -> effectTrackDepth st' = effectTrackDepth st ->
  effects st' = alter f e (effects st) ->
  (forall x, stable x (f x) /\ parent (f x) = parent x) ->
  Quiet st st'.
Proof.
  intros Ha Hd He Hf. split; [done|]. split; [done|]. split.
  - intros e' x Hx. rewrite He. destruct (decide (e = e')) as [<-|Hne].
    + exists (f x). rewrite list_lookup_alter_eq, Hx. split; [done|]. apply Hf.
    + exists x. rewrite list_lookup_alter_ne by done. split; [done|apply stable_refl].
  - intros e'. unfold parent_of. rewrite He. destruct (decide (e = e')) as [<-|Hne].
    + rewrite list_lookup_alter_eq. destruct (effects st !! e) as [x|]; [ |done].
      cbn. apply Hf.
    + by rewrite list_lookup_alter_ne.
Qed.

Lemma context_active_depth st st' :
  context st' = context st ->
  activeEffect st' = activeEffect st /\ effectTrackDepth st' = effectTrackDepth st.
Proof.
  intros H. split.
  - change (activeEffect st') with (context st').1.1.1.1.2.
    by rewrite H.
  - change (effectTrackDepth st') with (context st').1.1.1.1.1.1.
    by rewrite H.
Qed.

Lemma Quiet_track t ty k st : Quiet st (track t ty k st).
Proof.
  destruct (context_active_depth _ _ (track_context t ty k st)) as [Ha Hd].
  unfold track in *. destruct (shouldTrack st); [ |apply Quiet_refl].
  destruct (activeEffect st) as [e|] eqn:Hact; [ |apply Quiet_refl].
  assert (Ha1 : activeEffect (ensure_dep t k st) = Some e)
    by by rewrite activeEffect_ensure_dep.
  pose proof (trackEffects_effects (DLoc t k) e _ _ Ha1 (lookup_dep_ensure_dep t k st)) as H.
  cbv zeta in H. rewrite effects_ensure_dep in H.
  match type of H with context [if ?b then _ else _] => destruct b end.
  - apply (Quiet_alter_effect _ _ e (fun x => with_deps (deps x ++ [DLoc t k]) x));
      [congruence|done|done|intros x; by repeat split].
  - apply Quiet_same_effects; [congruence|done|done].
Qed.

Lemma Quiet_trackRefValue c st : Quiet st (trackRefValue c st).
Proof.
  unfold trackRefValue. destruct (shouldTrack st); [ |apply Quiet_refl].
  destruct (activeEffect st) as [e|] eqn:Hact; [ |apply Quiet_refl].
  set (st1 := ensure_ref_dep c st).
  destruct (context_active_depth _ _ (trackEffects_context (DComputed c) st1)) as [Ha Hd].
  destruct (lookup_dep (DComputed c) st1) as [d|] eqn:Hl.
  - pose proof (trackEffects_effects (DComputed c) e d st1 Hact Hl) as H.
    cbv zeta in H.
    match type of H with context [if ?b then _ else _] => destruct b end.
    + apply (Quiet_alter_effect _ _ e (fun x => with_deps (deps x ++ [DComputed c]) x));
        [done|done|done|intros x; by repeat split].
    + by apply Quiet_same_effects.
  - apply Quiet_same_effects; try done.
    unfold trackEffects. change (activeEffect st1) with (activeEffect st).
    by rewrite Hact, Hl.
Qed.

Lemma Quiet_cleanupEffect e st : Quiet st (cleanupEffect e st).
Proof.
  destruct (context_active_depth _ _ (cleanupEffect_context e st)) as [Ha Hd].
  destruct (effects st !! e) as [x|] eqn:Hx.
  - apply (Quiet_alter_effect _ _ e (with_deps []));
      [done|done|by apply (cleanupEffect_effects e x)|intros y; by repeat split].
  - unfold cleanupEffect. rewrite Hx. apply Quiet_refl.
Qed.

Lemma foldl_finalizeDep_quiet e bit ds acc :
  effects (foldl (finalizeDep e bit) acc ds).1 = effects acc.1
  /\ context (foldl (finalizeDep e bit) acc ds).1 = context acc.1.
Proof.
  revert acc. induction ds as [|r ds IH]; intros [s kept]; [done|].
  cbn [foldl]. destruct (IH (finalizeDep e bit (s, kept) r)) as [-> ->].
  unfold finalizeDep. destruct (lookup_dep r s) as [d|]; [ |done].
  cbn [fst]. rewrite effects_alter_dep, context_alter_dep.
  destruct (wasTracked d bit && negb (newTracked d bit)); [ |done].
  by rewrite effects_alter_dep, context_alter_dep.
Qed.

Lemma Quiet_finalizeDepMarkers e st : Quiet st (finalizeDepMarkers e st).
Proof.
  unfold finalizeDepMarkers. destruct (effects st !! e) as [x|]; [ |apply Quiet_refl].
  destruct (deps x) as [|r ds]; [apply Quiet_refl|].
  destruct (foldl_finalizeDep_quiet e (trackOpBit st) (r :: ds) (st, [])) as [He Hc].
  destruct (foldl _ _ _) as [st' kept]. cbn [fst] in He, Hc.
  destruct (context_active_depth _ _ Hc) as [Ha Hd].
  apply (Quiet_alter_effect _ _ e (with_deps kept));
    [done|done| |intros y; by repeat split].
  unfold update_effect. cbn [effects set_effects]. by rewrite He.
Qed.

Lemma Quiet_append st st' y :
  activeEffect st' = activeEffect st -> effectTrackDepth st' = effectTrackDepth st ->
  effects st' = effects st ++ [y] -> parent y = None -> Quiet st st'.
Proof.
  intros Ha Hd He Hy. split; [done|]. split; [done|]. split.
  - intros e x Hx. exists x. rewrite He. split; [ |apply stable_refl].
    rewrite lookup_app_l; [done|]. by apply lookup_lt_Some in Hx.
  - intros e. unfold parent_of. rewrite He.
    destruct (effects st !! e) as [x|] eqn:Hx.
    + rewrite lookup_app_l; [by rewrite Hx|]. by apply lookup_lt_Some in Hx.
    + apply lookup_ge_None in Hx. cbn.
      destruct (decide (e = length (effects st))) as [->|Hne].
      * by rewrite list_lookup_middle.
      * rewrite lookup_ge_None_2; [done|]. rewrite length_app. cbn. lia.
Qed.

(** Leaving a run restores what entering it changed, whatever the body did
    within its own frame. *)
Lemma run_exit_Frame e x ev last st st_b :
  effects st !! e = Some x ->
  ~ running st e ->
  Frame (log ev (run_enter e st)) st_b ->
  Frame st (run_exit e last st_b).
Proof.
  intros Hx Hnr HF. set (st_l := log ev (run_enter e st)) in *.
  pose proof HF as (Fa & Fd & Fs & Fp).
  assert (Hal : activeEffect st_l = Some e).
  { pose proof (run_enter_context e st) as H.
    unfold st_l. cbn [activeEffect log].
    change (activeEffect (run_enter e st)) with (context (run_enter e st)).1.1.1.1.2.
    by rewrite H. }
  assert (Hdl : effectTrackDepth st_l = effectTrackDepth st + 1).
  { pose proof (run_enter_context e st) as H.
    unfold st_l. cbn [effectTrackDepth log].
    change (effectTrackDepth (run_enter e st)) with (context (run_enter e st)).1.1.1.1.1.1.
    by rewrite H. }
  assert (Hel : effects st_l
                = alter (fun y => with_deps [] (with_parent (activeEffect st) y)) e (effects st)).
  { unfold st_l. cbn [effects log]. by apply (run_enter_effects e x). }
  assert (Hpl_e : parent_of st_l e = activeEffect st).
  { unfold parent_of. by rewrite Hel, list_lookup_alter_eq, Hx. }
  assert (Hpl : forall y, y <> e -> parent_of st_l y = parent_of st y).
  { intros y Hy. unfold parent_of. by rewrite Hel, list_lookup_alter_ne. }
  (* the finalisation of the markers *)
  set (fin := if effectTrackDepth st_b <=? maxMarkerBits
              then finalizeDepMarkers e st_b else st_b).
  assert (Hq : Quiet st_b fin).
  { unfold fin. destruct (_ <=? _); [apply Quiet_finalizeDepMarkers|apply Quiet_refl]. }
  destruct Hq as (Qa & Qd & Qs & Qp).
  assert (Hexit : run_exit e last st_b
                  = update_effect e (with_parent None)
                      (set_shouldTrack last
                         (set_activeEffect (parent_of fin e)
                            (set_depth (effectTrackDepth fin - 1)
                               (shl 1 (effectTrackDepth fin - 1)) fin)))) by done.
  assert (Hrun_e : running st_l e) by (unfold running; rewrite Hal; apply reach_here).
  assert (Hrun : forall y, running st y -> running st_l y).
  { intros y Hy. unfold running. rewrite Hal. apply reach_next. rewrite Hpl_e.
    apply (reach_transfer st st_l); [ |done].
    intros z Hz. apply Hpl. intros ->. by apply Hnr. }
  split; [ |split; [ |split]].
  - rewrite Hexit. cbn [activeEffect update_effect set_effects set_shouldTrack set_activeEffect].
    by rewrite Qp, (Fp e Hrun_e).
  - rewrite Hexit. cbn [effectTrackDepth update_effect set_effects set_shouldTrack
                          set_activeEffect set_depth].
    rewrite Qd, Fd, Hdl. lia.
  - apply (effects_stable_trans st st_l); [ |apply (effects_stable_trans st_l st_b); [done|]].
    + intros e' y Hy. rewrite Hel. destruct (decide (e = e')) as [<-|Hne].
      * rewrite list_lookup_alter_eq, Hy. eexists. split; [done|]. by repeat split.
      * rewrite list_lookup_alter_ne by done. exists y. split; [done|apply stable_refl].
    + apply (effects_stable_trans st_b fin); [done|].
      intros e' y Hy. rewrite Hexit.
      cbn [effects update_effect set_effects set_shouldTrack set_activeEffect set_depth].
      destruct (decide (e = e')) as [<-|Hne].
      * rewrite list_lookup_alter_eq, Hy. eexists. split; [done|]. by repeat split.
      * rewrite list_lookup_alter_ne by done. exists y. split; [done|apply stable_refl].
  - intros y Hy. assert (Hne : y <> e) by (intros ->; by apply Hnr).
    transitivity (parent_of fin y).
    { rewrite Hexit. unfold parent_of.
      cbn [effects update_effect set_effects set_shouldTrack set_activeEffect set_depth].
      by rewrite list_lookup_alter_ne. }
    rewrite Qp, (Fp y (Hrun y Hy)). by apply Hpl.
Qed.

Lemma pf_ret v st st0 : Frame st0 st -> preserves_frame (ret v st) st0.
Proof. intros H o st' [= <- <-]. done. Qed.

Lemma pf_throw st st0 : Frame st0 st -> preserves_frame (throw st) st0.
Proof. intros H o st' [= <- <-]. done. Qed.

Lemma pf_Frame r st st0 : Frame st0 st -> preserves_frame r st -> preserves_frame r st0.
Proof. intros H Hr o st' Heq. apply (Frame_trans st0 st); [done|by apply (Hr o)]. Qed.

Lemma pf_bindR r k st :
  preserves_frame r st -> (forall v s, preserves_frame (k v s) s) ->
  preserves_frame (bindR r k) st.
Proof.
  intros Hr Hk o st' Heq. destruct r as [[[v|] s]|]; cbn in Heq; [ | |done].
  - apply (Frame_trans st s); [by apply (Hr (Normal v))|by apply (Hk v s o)].
  - injection Heq as <- <-. by apply (Hr Thrown).
Qed.

Lemma Quiet_log ev st : Quiet st (log ev st).
Proof. by apply Quiet_same_effects. Qed.

Lemma Quiet_update_effect_stable e f st :
  (forall x, stable x (f x) /\ parent (f x) = parent x) ->
  Quiet st (update_effect e f st).
Proof. intros Hf. by apply (Quiet_alter_effect _ _ e f). Qed.

Lemma Quiet_update_computed c f st : Quiet st (update_computed c f st).
Proof. by apply Quiet_same_effects. Qed.

Lemma Quiet_computed_ getter setter isSSR st :
  Quiet st (computed_ getter setter isSSR st).2.
Proof.
  unfold computed_. cbn [new_effect snd].
  apply (Quiet_append _ _ (mkEffect (negb isSSR) [] None (Some (length (computeds st)))
                             false false None getter
                             (Some (ComputedScheduler (length (computeds st))))));
    try done.
  cbn [effects set_computeds update_effect set_effects].
  apply list_eq. intros i. destruct (decide (i = length (effects st))) as [->|Hne].
  - by rewrite list_lookup_alter_eq, !list_lookup_middle.
  - rewrite list_lookup_alter_ne by done.
    destruct (decide (i < length (effects st))%nat).
    + by rewrite !lookup_app_l.
    + rewrite !lookup_ge_None_2; [done| |]; rewrite length_app; cbn; lia.
Qed.

Section Frames.

Variable call : closure -> State -> Res.
Hypothesis Hcall : forall c st, preserves_frame (call c st) st.

Lemma pf_call c st st0 : Frame st0 st -> preserves_frame (call c st) st0.
Proof using Hcall. intros H. apply (pf_Frame _ st); [done|apply Hcall]. Qed.

Lemma stop_frame e st : preserves_frame (stop call e st) st.
Proof using Hcall.
  unfold stop. destruct (effects st !! e) as [x|]; [ |apply pf_throw, Frame_refl].
  destruct (decide (activeEffect st = Some e)).
  { apply pf_ret, Quiet_Frame, Quiet_update_effect_stable. intros y. by repeat split. }
  destruct (active x); [ |apply pf_ret, Frame_refl].
  apply (pf_Frame _ (cleanupEffect e st)); [apply Quiet_Frame, Quiet_cleanupEffect|].
  apply pf_bindR.
  - destruct (onStop x); [ |apply pf_ret, Frame_refl].
    apply pf_call, Quiet_Frame, Quiet_log.
  - intros _ s. apply pf_ret, Quiet_Frame, Quiet_update_effect_stable.
    intros y. by repeat split.
Qed.

Lemma run_finally_frame e x ev last st st_b :
  effects st !! e = Some x -> ~ running st e ->
  Frame (log ev (run_enter e st)) st_b ->
  preserves_frame (run_finally call e last st_b) st.
Proof using Hcall.
  intros Hx Hnr HF. unfold run_finally.
  pose proof (run_exit_Frame e x ev last st st_b Hx Hnr HF) as H5.
  destruct (effects (run_exit e last st_b) !! e) as [y|]; [ |by apply pf_ret].
  destruct (deferStop y); [ |by apply pf_ret].
  apply (pf_Frame _ (run_exit e last st_b)); [done|apply stop_frame].
Qed.

Lemma run_frame e st : preserves_frame (run call e st) st.
Proof using Hcall.
  unfold run. destruct (effects st !! e) as [x|] eqn:Hx; [ |apply pf_throw, Frame_refl].
  destruct (active x); cbn [negb]; [ |apply pf_call, Quiet_Frame, Quiet_log].
  destruct (inParentChain st e) as [[|]|] eqn:Hc; [apply pf_ret, Frame_refl| |done].
  apply inParentChain_false in Hc.
  intros o st' Heq. unfold finallyR in Heq.
  destruct (call _ _) as [[ob st_b]|] eqn:Hb; [ |done].
  pose proof (Hcall _ _ _ _ Hb) as HF.
  pose proof (run_finally_frame e x (EvFn e) (shouldTrack st) st st_b Hx Hc HF) as Hfin.
  destruct (run_finally _ _ _ _) as [[[v|] s]|] eqn:Hf; [ | |done].
  - injection Heq as <- <-. by apply (Hfin (Normal v)).
  - injection Heq as <- <-. by apply (Hfin Thrown).
Qed.

Lemma triggerEffect_frame e st : preserves_frame (triggerEffect call e st) st.
Proof using Hcall.
  unfold triggerEffect.
  destruct (effects st !! e) as [x|]; [ |apply pf_throw, Frame_refl].
  destruct (_ || _); [ |apply pf_ret, Frame_refl].
  destruct (scheduler x).
  - apply pf_bindR; [apply pf_call, Quiet_Frame, Quiet_log|].
    intros _ s. apply pf_ret, Frame_refl.
  - apply pf_bindR; [apply run_frame|]. intros _ s. apply pf_ret, Frame_refl.
Qed.

Lemma triggerEffects_frame es st : preserves_frame (triggerEffects call es st) st.
Proof using Hcall.
  revert st. induction es as [|e es IH]; intros st; cbn [triggerEffects].
  - apply pf_ret, Frame_refl.
  - apply pf_bindR; [apply triggerEffect_frame|]. intros _ s. apply IH.
Qed.

Lemma trigger_frame t ty k nv st : preserves_frame (trigger call t ty k nv st) st.
Proof using Hcall.
  unfold trigger. destruct (targetMap st !! t); [ |apply pf_ret, Frame_refl].
  destruct (collect_deps _ _ _ _ _) as [ds|]; [ |apply pf_throw, Frame_refl].
  destruct ds as [|[r|] [|d ds]];
    try apply triggerEffects_frame; apply pf_ret, Frame_refl.
Qed.

Lemma triggerRefValue_frame c st : preserves_frame (triggerRefValue call c st) st.
Proof using Hcall.
  unfold triggerRefValue. destruct (_ ≫= _); [apply triggerEffects_frame|].
  apply pf_ret, Frame_refl.
Qed.

Lemma computedScheduler_frame c st : preserves_frame (computedScheduler call c st) st.
Proof using Hcall.
  unfold computedScheduler.
  destruct (computeds st !! c) as [x|]; [ |apply pf_throw, Frame_refl].
  destruct (_dirty x); cbn [negb]; [apply pf_ret, Frame_refl|].
  apply (pf_Frame _ (update_computed c (with_dirty true) st));
    [apply Quiet_Frame, Quiet_update_computed|apply triggerRefValue_frame].
Qed.

Lemma get_value_frame c st : preserves_frame (get_value call c st) st.
Proof using Hcall.
  unfold get_value.
  destruct (computeds st !! c) as [x0|]; [ |apply pf_throw, Frame_refl].
  apply (pf_Frame _ (trackRefValue c st)); [apply Quiet_Frame, Quiet_trackRefValue|].
  destruct (computeds (trackRefValue c st) !! c) as [x|]; [ |apply pf_throw, Frame_refl].
  apply pf_bindR.
  - destruct (_ || _); [ |apply pf_ret, Frame_refl].
    apply (pf_Frame _ (update_computed c (with_dirty false) (trackRefValue c st)));
      [apply Quiet_Frame, Quiet_update_computed|].
    apply pf_bindR; [apply run_frame|].
    intros v s. apply pf_ret, Quiet_Frame, Quiet_update_computed.
  - intros _ s. destruct (computeds s !! c); [apply pf_ret|apply pf_throw]; apply Frame_refl.
Qed.

Lemma set_value_frame c v st : preserves_frame (set_value call c v st) st.
Proof using Hcall.
  unfold set_value.
  destruct (computeds st !! c) as [x|]; [ |apply pf_throw, Frame_refl].
  apply pf_bindR; [apply Hcall|]. intros _ s. apply pf_ret, Frame_refl.
Qed.

Lemma effect_frame f lazy sched allowRec onstop st r e :
  effect_ call f lazy sched allowRec onstop st = Some (r, e) -> preserves_frame r st.
Proof using Hcall.
  unfold effect_. destruct (match f with inl p => _ | inr q => _ end) as [p|]; [ |done].
  cbn [new_effect]. intros [= <- <-].
  set (st2 := update_effect _ _ _).
  assert (Hq : Quiet st st2).
  { apply (Quiet_append _ _ (mkEffect true [] None None allowRec false onstop p
                               (UserFn <$> sched))); try done.
    unfold st2, update_effect. cbn [effects set_effects].
    apply list_eq. intros i. destruct (decide (i = length (effects st))) as [->|Hne].
    - by rewrite list_lookup_alter_eq, !list_lookup_middle.
    - rewrite list_lookup_alter_ne by done.
      destruct (decide (i < length (effects st))%nat).
      + by rewrite !lookup_app_l.
      + rewrite !lookup_ge_None_2; [done| |]; rewrite length_app; cbn; lia. }
  destruct lazy.
  - by apply pf_ret, Quiet_Frame.
  - apply (pf_Frame _ st2); [by apply Quiet_Frame|apply run_frame].
Qed.

Lemma exec_frame p st : preserves_frame (exec call p st) st.
Proof using Hcall.
  revert st.
  induction p as [v| |t ty k next IH|t ty k nv next IH|next IH|next IH|next IH
                 |f lazy sched allowRec onstop next IH|e next IH|e next IH
                 |getter _ setter isSSR next IH|c next IH|c v next IH|x next IH
                 |x v next IH]; intros st; cbn [exec].
  - apply pf_ret, Frame_refl.
  - apply pf_throw, Frame_refl.
  - apply (pf_Frame _ (track t ty k st)); [apply Quiet_Frame, Quiet_track|apply IH].
  - apply pf_bindR; [apply trigger_frame|]. intros _ s. apply IH.
  - apply (pf_Frame _ (pauseTracking st)); [by apply Quiet_Frame, Quiet_same_effects|].
    apply IH.
  - apply (pf_Frame _ (enableTracking st)); [by apply Quiet_Frame, Quiet_same_effects|].
    apply IH.
  - apply (pf_Frame _ (resetTracking st)); [ |apply IH].
    apply Quiet_Frame, Quiet_same_effects; unfold resetTracking;
      by destruct (array_pop _).
  - destruct (effect_ _ _ _ _ _ _ _) as [[r e]|] eqn:He; [ |apply pf_throw, Frame_refl].
    apply pf_bindR; [by apply (effect_frame _ _ _ _ _ _ _ _ He)|]. intros _ s. apply IH.
  - apply pf_bindR; [apply run_frame|]. intros v s. apply IH.
  - apply pf_bindR; [apply stop_frame|]. intros _ s. apply IH.
  - pose proof (Quiet_computed_ getter setter isSSR st) as Hq.
    destruct (computed_ _ _ _ _) as [c st1]. cbn [snd] in Hq.
    apply (pf_Frame _ st1); [by apply Quiet_Frame|apply IH].
  - apply pf_bindR; [apply get_value_frame|]. intros v s. apply IH.
  - apply pf_bindR; [apply set_value_frame|]. intros _ s. apply IH.
  - apply IH.
  - apply (pf_Frame _ (set_vars (insert x v) st)); [ |apply IH].
    by apply Quiet_Frame, Quiet_same_effects.
Qed.

End Frames.

(** Every call preserves the frame. *)
Lemma call_n_frame fuel c st : preserves_frame (call_n fuel c st) st.
Proof.
  revert c st. induction fuel as [|fuel IH]; intros c st; [done|].
  destruct c as [p|c]; cbn [call_n].
  - by apply exec_frame.
  - by apply computedScheduler_frame.
Qed.

(** ** Running an inactive effect *)




(** ** A body that throws *)

Lemma Frame_lookup st st' e x :
  Frame st st' -> effects st !! e = Some x ->
  exists x', effects st' !! e = Some x' /\ stable x x'.
Proof. intros (_ & _ & Hs & _) Hx. by apply Hs. Qed.

Section RunThrow.

Context (fuel : nat) (e : eid) (x : ReactiveEffect) (st st_b : State) (o : outcome).
Hypothesis Hx : effects st !! e = Some x.
Hypothesis Hactive : active x = true.
Hypothesis Hchain : inParentChain st e = Some false.
Hypothesis Hbody :
  call_n fuel (UserFn (fn x)) (log (EvFn e) (run_enter e st)) = Some (o, st_b).

Let st5 := run_exit e (shouldTrack st) st_b.

Lemma run_body_frame : Frame (log (EvFn e) (run_enter e st)) st_b.
Proof using Hbody. exact (call_n_frame fuel _ _ o st_b Hbody). Qed.

(** Inside the run the effect is the running one, one level deeper. *)
Lemma run_body_inside :
  activeEffect st_b = Some e /\ effectTrackDepth st_b = effectTrackDepth st + 1.
Proof using Hbody.
  destruct run_body_frame as (Ha & Hd & _ & _). rewrite Ha, Hd.
  pose proof (run_enter_context e st) as H. split.
  - cbn [activeEffect log].
    change (activeEffect (run_enter e st)) with (context (run_enter e st)).1.1.1.1.2.
    by rewrite H.
  - cbn [effectTrackDepth log].
    change (effectTrackDepth (run_enter e st)) with (context (run_enter e st)).1.1.1.1.1.1.
    by rewrite H.
Qed.

Lemma run_exit_restores :
  activeEffect st5 = activeEffect st
  /\ shouldTrack st5 = shouldTrack st
  /\ effectTrackDepth st5 = effectTrackDepth st
  /\ trackOpBit st5 = shl 1 (effectTrackDepth st).
Proof using Hx Hchain Hbody.
  pose proof (run_exit_Frame e x (EvFn e) (shouldTrack st) st st_b Hx
                (inParentChain_false _ _ Hchain) run_body_frame) as (Ha & Hd & _ & _).
  split; [done|]. split; [done|]. split; [done|].
  unfold st5 in *. unfold run_exit in *.
  cbn [trackOpBit effectTrackDepth update_effect set_effects set_shouldTrack
         set_activeEffect set_depth] in *.
  by rewrite Hd.
Qed.

Lemma run_exit_effect :
  exists y, effects st5 !! e = Some y /\ stable x y /\ parent y = None.
Proof using Hx Hchain Hbody.
  pose proof (run_exit_Frame e x (EvFn e) (shouldTrack st) st st_b Hx
                (inParentChain_false _ _ Hchain) run_body_frame) as HF.
  destruct (Frame_lookup _ _ e x HF Hx) as (y & Hy & Hst).
  exists y. split; [done|]. split; [done|].
  unfold st5, run_exit in Hy.
  cbn [effects update_effect set_effects set_shouldTrack set_activeEffect set_depth] in Hy.
  rewrite list_lookup_alter_eq in Hy.
  by apply fmap_Some in Hy as (z & Hz & ->).
Qed.

End RunThrow.

(** ** Reads seen from an effect that is not the running one *)

Lemma track_other t ty k st e' :
  activeEffect st <> Some e' ->
  effects (track t ty k st) !! e' = effects st !! e'
  /\ forall r, occurrences e' (members (dep_at r (track t ty k st)))
               = occurrences e' (members (dep_at r st)).
Proof.
  intros Hne. unfold track. destruct (shouldTrack st); [ |done].
  destruct (activeEffect st) as [e|] eqn:Hact; [ |done].
  assert (He : e' <> e) by congruence.
  assert (Ha1 : activeEffect (ensure_dep t k st) = Some e)
    by by rewrite activeEffect_ensure_dep.
  pose proof (lookup_dep_ensure_dep t k st) as Hl1.
  pose proof (trackEffects_dep _ e _ _ Ha1 Hl1) as Hdep.
  pose proof (trackEffects_dep_ne _ e _ _ Ha1 Hl1) as Hdne.
  pose proof (trackEffects_effects _ e _ _ Ha1 Hl1) as Heff.
  cbv zeta in Hdep, Heff. split.
  - rewrite Heff, effects_ensure_dep.
    match goal with |- context [if ?b then _ else _] => destruct b end; [ |done].
    by rewrite list_lookup_alter_ne.
  - intros r. destruct (decide (DLoc t k = r)) as [<-|Hr].
    + rewrite Hdep. cbn [members].
      match goal with |- context [if ?b then _ else _] => destruct b end; [ |done].
      by apply occurrences_set_add_ne.
    + by rewrite Hdne, dep_at_ensure_dep.
Qed.

Lemma activeEffect_track_all ls st : activeEffect (track_all ls st) = activeEffect st.
Proof. by destruct (context_active_depth _ _ (track_all_context ls st)). Qed.

Lemma track_all_other ls st e' :
  activeEffect st <> Some e' ->
  effects (track_all ls st) !! e' = effects st !! e'
  /\ forall r, occurrences e' (members (dep_at r (track_all ls st)))
               = occurrences e' (members (dep_at r st)).
Proof.
  revert st. induction ls as [|[t k] ls IH]; intros st Hne; [done|].
  rewrite track_all_cons. cbn [fst snd].
  destruct (track_other t GET k st e' Hne) as [He Ho].
  destruct (IH (track t GET k st)) as [He' Ho'].
  { by destruct (context_active_depth _ _ (track_context t GET k st)) as [-> _]. }
  split; [congruence|]. intros r. by rewrite Ho', Ho.
Qed.

(** ** [stop] outside of the effect's own run *)

Section Stop.

Context (fuel : nat) (e : eid) (x : ReactiveEffect) (st : State).
Hypothesis Hx : effects st !! e = Some x.
Hypothesis Hother : activeEffect st <> Some e.
Hypothesis Hhook : forall h, onStop x = Some h -> simple h.

(** The state in which the [onStop] hook, if any, returns. *)
Let hooked : State :=
  match onStop x with
  | Some h =>
      set_vars (fun _ => final_vars h (vars st))
        (track_all (reads h (vars st)) (log (EvOnStop e) (cleanupEffect e st)))
  | None => cleanupEffect e st
  end.

Lemma stop_n_spec :
  stop_n (S fuel) e st
  = Some (Normal VUndefined,
          if active x then update_effect e (with_active false) hooked else st).
Proof using Hx Hother Hhook.
  unfold stop_n, stop. rewrite Hx, decide_False by done.
  destruct (active x); [ |done]. unfold hooked.
  destruct (onStop x) as [h|] eqn:Hh; [ |done].
  rewrite call_n_user, exec_simple by auto. cbn [bindR vars log].
  pose proof (cleanupEffect_context e st) as Hc.
  apply (f_equal (fun c => c.1.2)) in Hc. cbn in Hc. by rewrite Hc.
Qed.

Lemma hooked_context :
  activeEffect hooked = activeEffect st /\ shouldTrack hooked = shouldTrack st
  /\ effectTrackDepth hooked = effectTrackDepth st /\ trackOpBit hooked = trackOpBit st
  /\ trace hooked
     = trace st ++ match onStop x with Some _ => [EvOnStop e] | None => [] end.
Proof using Type.
  clear Hhook.
  pose proof (cleanupEffect_context e st) as Hc. unfold context in Hc.
  unfold hooked. destruct (onStop x) as [h|].
  - pose proof (track_all_context (reads h (vars st))
                  (log (EvOnStop e) (cleanupEffect e st))) as Ht.
    unfold context in Ht. cbn [activeEffect shouldTrack effectTrackDepth trackOpBit trace
                                  set_vars].
    injection Ht as -> -> -> -> _ _ ->.
    cbn [activeEffect shouldTrack effectTrackDepth trackOpBit trace log].
    by injection Hc as -> -> -> -> _ _ ->.
  - rewrite app_nil_r. by injection Hc as -> -> -> -> _ _ ->.
Qed.

Lemma hooked_effect : effects hooked !! e = Some (with_deps [] x).
Proof using Hx Hother.
  clear Hhook.
  assert (H : effects (cleanupEffect e st) !! e = Some (with_deps [] x)).
  { by rewrite (cleanupEffect_effects e x), list_lookup_alter_eq, Hx. }
  unfold hooked. destruct (onStop x) as [h|]; [ |done].
  cbn [effects set_vars].
  destruct (track_all_other (reads h (vars st)) (log (EvOnStop e) (cleanupEffect e st)) e)
    as [-> _]; [ |done].
  cbn [activeEffect log].
  by destruct (context_active_depth _ _ (cleanupEffect_context e st)) as [-> _].
Qed.

Lemma hooked_occurrences r :
  (e ∈ members (dep_at r st) -> r ∈ deps x) ->
  occurrences e (members (dep_at r hooked)) = 0%nat.
Proof using Hx Hother.
  clear Hhook. intros Hl. pose proof (cleanupEffect_unsubscribes e x st r Hx Hl) as H0.
  unfold hooked. destruct (onStop x) as [h|]; [ |done].
  transitivity (occurrences e (members (dep_at r
                  (track_all (reads h (vars st)) (log (EvOnStop e) (cleanupEffect e st)))))).
  { by destruct r. }
  destruct (track_all_other (reads h (vars st)) (log (EvOnStop e) (cleanupEffect e st)) e)
    as [_ ->].
  - cbn [activeEffect log].
    by destruct (context_active_depth _ _ (cleanupEffect_context e st)) as [-> _].
  - rewrite <- H0. by destruct r.
Qed.

End Stop.

Lemma inParentChain_not_active st e : inParentChain st e = Some false -> activeEffect st <> Some e.
Proof.
  intros H Ha. apply (inParentChain_false st e H). unfold running. rewrite Ha.
  apply reach_here.
Qed.

(** ** C4 *)

Lemma stable_effects_exit e last st_b y :
  effects st_b !! e = Some y ->
  exists y', effects (run_exit e last st_b) !! e = Some y' /\ stable y y'.
Proof.
  intros Hy.
  set (fin := if effectTrackDepth st_b <=? maxMarkerBits
              then finalizeDepMarkers e st_b else st_b).
  assert (Hq : Quiet st_b fin).
  { unfold fin. destruct (_ <=? _); [apply Quiet_finalizeDepMarkers|apply Quiet_refl]. }
  destruct Hq as (_ & _ & Hs & _). destruct (Hs e y Hy) as (z & Hz & Hyz).
  exists (with_parent None z). split.
  - unfold run_exit. fold fin.
    cbn [effects update_effect set_effects set_shouldTrack set_activeEffect set_depth].
    by rewrite list_lookup_alter_eq, Hz.
  - apply (stable_trans y z); [done|]. by repeat split.
Qed.



(** ** C8 *)

Lemma calls_of_app ev st st' l :
  trace st' = trace st ++ l ->
  calls_of ev st' = (calls_of ev st + length (filter (fun y => y = ev) l))%nat.
Proof. intros H. unfold calls_of. by rewrite H, filter_app, length_app. Qed.

Section StopTwice.

Context (fuel : nat) (e : eid) (x : ReactiveEffect) (st : State).
Hypothesis Hx : effects st !! e = Some x.
Hypothesis Hactive : active x = true.
Hypothesis Hother : activeEffect st <> Some e.
Hypothesis Hhook : forall h, onStop x = Some h -> simple h.
Hypothesis Hlisted : forall r, e ∈ members (dep_at r st) -> r ∈ deps x.

Lemma stop_outside_run :
  exists st',
    stop_n (S fuel) e st = Some (Normal VUndefined, st')
    /\ (forall r, e ∉ members (dep_at r st'))
    /\ effects st' !! e = Some (with_active false (with_deps [] x))
    /\ trace st' = trace st ++ match onStop x with Some _ => [EvOnStop e] | None => [] end
    /\ activeEffect st' = activeEffect st
    /\ stop_n (S fuel) e st' = Some (Normal VUndefined, st')
    /\ (forall fuel' c o st'',
          call_n fuel' c st' = Some (o, st'') ->
          (active <$> effects st'' !! e) = Some false).
Proof using Hx Hactive Hother Hhook Hlisted.
  pose proof (stop_n_spec fuel e x st Hx Hother Hhook) as Hstop.
  rewrite Hactive in Hstop.
  pose proof (hooked_context e x st) as (C1 & _ & _ & _ & C5).
  pose proof (hooked_effect e x st Hx Hother) as He.
  eexists. split; [exact Hstop|].
  set (st' := update_effect e (with_active false) _) in *.
  assert (He' : effects st' !! e = Some (with_active false (with_deps [] x))).
  { unfold st', update_effect. cbn [effects set_effects].
    by rewrite list_lookup_alter_eq, He. }
  split; [ |split; [done|split; [done|split; [done|split]]]].
  - intros r. apply occurrences_zero. unfold st'. rewrite dep_at_update_effect.
    apply (hooked_occurrences e x st Hx Hother). apply Hlisted.
  - pose proof (stop_n_spec fuel e _ st' He') as H2. cbn [active with_active] in H2.
    apply H2; [by rewrite <- C1 in Hother|]. intros h Hh. by apply Hhook.
  - intros fuel' c o st'' Hcall.
    destruct (Frame_lookup _ _ e _ (call_n_frame fuel' c st' o st'' Hcall) He')
      as (y & -> & Hs).
    destruct Hs as (_ & _ & _ & _ & _ & Hact & _). cbn. by rewrite Hact.
Qed.

End StopTwice.

(** A stop asked for in the body of the run is performed when the run
    ends. *)
Section StopDeferred.

Context (fuel : nat) (e : eid) (x : ReactiveEffect) (st : State) (p : prog).
Hypothesis Hx : effects st !! e = Some x.
Hypothesis Hactive : active x = true.
Hypothesis Hchain : inParentChain st e = Some false.
Hypothesis Hhook : forall h, onStop x = Some h -> simple h.
Hypothesis Hlisted : listed e st.
Hypothesis Hdepth : 0 <= effectTrackDepth st.
Hypothesis Hclear : markers_clear (effectTrackDepth st + 1) st.
Hypothesis Hfn : fn x = Stop e p.
Hypothesis Hp : simple p.

Let d := effectTrackDepth st + 1.
Let s0 := update_effect e (with_deferStop true) (log (EvFn e) (run_enter e st)).
Let ls := reads p (vars st).
Let L := add_all [] (map loc ls).
Let st_b := set_vars (fun _ => final_vars p (vars st)) (track_all ls s0).

Lemma deferred_body :
  call_n (S fuel) (UserFn (fn x)) (log (EvFn e) (run_enter e st))
  = Some (Normal (result p (vars st)), st_b).
Proof using Hx Hfn Hp.
  rewrite Hfn, call_n_user. cbn [exec]. unfold stop.
  destruct (effects (log (EvFn e) (run_enter e st)) !! e) as [y|] eqn:Hy.
  - rewrite decide_True.
    + cbn [bindR ret]. rewrite exec_simple by done.
      cbn [vars update_effect set_effects log]. by rewrite vars_run_enter.
    + cbn [activeEffect log].
      change (activeEffect (run_enter e st)) with (context (run_enter e st)).1.1.1.1.2.
      by rewrite run_enter_context.
  - cbn [effects log] in Hy. rewrite (run_enter_effects e x) in Hy by exact Hx.
    rewrite list_lookup_alter_eq in Hy. by rewrite Hx in Hy.
Qed.

Lemma deferred_tracking : tracking_ctx e d st_b.
Proof using Hdepth.
  pose proof (run_enter_tracking e st Hdepth) as (H1 & H2 & H3 & H4 & H5).
  unfold st_b, tracking_ctx.
  pose proof (track_all_context ls s0) as Hc.
  unfold context in Hc. injection Hc as Hc1 Hc2 Hc3 Hc4 _ _ _.
  cbn [activeEffect shouldTrack effectTrackDepth trackOpBit set_vars].
  rewrite Hc1, Hc2, Hc3, Hc4. done.
Qed.

Lemma deferred_subscribed : subscribed_at e d L st_b.
Proof using Hx Hdepth Hlisted Hclear.
  apply (subscribed_at_same_for e d L (track_all ls s0)).
  - unfold d. lia.
  - apply same_for_eq; [done|]. intros r. by destruct r.
  - apply track_all_subscribed.
    + apply (run_enter_tracking e st Hdepth).
    + destruct (run_enter_subscribed e x st Hx Hlisted Hclear)
        as ((y & Hy & Hdy) & Hnd & Hall).
      split; [ |split; [done|]].
      * exists (with_deferStop true y). unfold s0, update_effect.
        cbn [effects set_effects log]. by rewrite list_lookup_alter_eq, Hy.
      * intros r. unfold s0. rewrite dep_at_update_effect.
        replace (dep_at r (log (EvFn e) (run_enter e st))) with (dep_at r (run_enter e st))
          by by destruct r.
        apply Hall.
Qed.

Lemma deferred_effect :
  effects st_b !! e
  = Some (mkEffect true L (activeEffect st) (computed x) (allowRecurse x) true
            (onStop x) (fn x) (scheduler x)).
Proof using Hx Hactive Hdepth Hlisted Hclear.
  destruct deferred_subscribed as ((y & Hy & Hdy) & _).
  pose proof (track_all_efields ls s0 e) as Hf.
  unfold st_b in Hy. cbn [effects set_vars] in Hy. rewrite Hy in Hf.
  unfold s0, update_effect in Hf. cbn [effects set_effects log] in Hf.
  rewrite list_lookup_alter_eq, (run_enter_effects e x), list_lookup_alter_eq, Hx in Hf
    by exact Hx.
  cbn in Hf. unfold st_b. cbn [effects set_vars]. rewrite Hy.
  destruct y. cbn in *. injection Hf as -> -> -> -> -> -> -> ->. by rewrite Hactive, Hdy.
Qed.

Lemma stop_deferred_to_exit :
  exists st',
    run_n (S fuel) e st = Some (Normal (result p (vars st)), st')
    /\ (forall r, e ∉ members (dep_at r st'))
    /\ deps_of e st' = []
    /\ (active <$> effects st' !! e) = Some false
    /\ trace st' = trace st ++ [EvFn e]
                   ++ match onStop x with Some _ => [EvOnStop e] | None => [] end.
Proof using Hx Hactive Hchain Hhook Hlisted Hdepth Hclear Hfn Hp.
  pose proof deferred_tracking as Hctx. pose proof deferred_subscribed as Hsub.
  unfold run_n. rewrite (run_active _ e x) by done.
  fold (call_n (S fuel)). rewrite deferred_body.
  unfold finallyR, run_finally.
  set (st5 := run_exit e (shouldTrack st) st_b).
  assert (He5 : effects st5 !! e
                = Some (mkEffect true L None (computed x) (allowRecurse x) true
                          (onStop x) (fn x) (scheduler x))).
  { unfold st5. rewrite (run_exit_effects e d L) by done.
    by rewrite list_lookup_alter_eq, deferred_effect. }
  rewrite He5. cbn [deferStop].
  pose proof (run_exit_context e d L (shouldTrack st) st_b Hctx Hsub) as Hc5.
  assert (Hp5 : parent_of st_b e = activeEffect st).
  { unfold parent_of. by rewrite deferred_effect. }
  assert (Ha5 : activeEffect st5 = activeEffect st).
  { change (activeEffect st5) with (context st5).1.1.1.1.2. unfold st5.
    by rewrite Hc5. }
  assert (Ht5 : trace st5 = trace st ++ [EvFn e]).
  { change (trace st5) with (context st5).2. unfold st5. rewrite Hc5. cbn [snd].
    unfold st_b. cbn [trace set_vars].
    pose proof (track_all_context ls s0) as Hc. apply (f_equal snd) in Hc.
    cbn [snd context] in Hc. rewrite Hc. unfold s0.
    cbn [trace update_effect set_effects log].
    pose proof (run_enter_context e st) as Hc'. apply (f_equal snd) in Hc'.
    cbn [snd context] in Hc'. by rewrite Hc'. }
  destruct (stop_outside_run fuel e _ st5 He5) as (st' & Hstop & Hm & He' & Htr & _).
  - done.
  - rewrite Ha5. by apply inParentChain_not_active.
  - exact Hhook.
  - intros r Hr. cbn [deps]. apply occurrences_pos in Hr. unfold st5 in Hr.
    rewrite (run_exit_occurrences e d L) in Hr by done.
    destruct (decide (r ∈ L)); [done|lia].
  - unfold stop_n in Hstop. rewrite Hstop.
    exists st'. split; [done|]. split; [done|].
    split; [by unfold deps_of; rewrite He'|].
    split; [by rewrite He'|].
    cbn [onStop] in Htr. by rewrite Htr, Ht5, <- app_assoc.
Qed.

End StopDeferred.



(** ** An effect that writes what it reads *)

Lemma trigger_eq call t ty k nv st :
  trigger call t ty k nv st
  = match trigger_targets t ty k nv st with
    | None => throw st
    | Some es => triggerEffects call es st
    end.
Proof.
  unfold trigger, trigger_targets. destruct (targetMap st !! t) as [m|]; [ |done].
  destruct (collect_deps t m ty k nv) as [ds|]; [ |done].
  destruct ds as [|[r|] [|d ds]]; reflexivity.
Qed.

Lemma elem_of_set_add e e' l : e' ∈ set_add e l <-> e' = e \/ e' ∈ l.
Proof.
  unfold set_add. destruct (decide (e ∈ l)) as [Hin|Hnin].
  - split; [tauto|]. intros [->|?]; done.
  - rewrite elem_of_app, list_elem_of_singleton. tauto.
Qed.

Lemma NoDup_set_add e l : NoDup l -> NoDup (set_add e l).
Proof.
  intros Hl. unfold set_add. destruct (decide (e ∈ l)); [done|].
  apply NoDup_app. split; [done|]. split; [ |apply NoDup_singleton].
  intros y Hy ->%list_elem_of_singleton. done.
Qed.

Lemma set_of_list_spec l :
  NoDup (set_of_list l) /\ forall e, e ∈ set_of_list l <-> e ∈ l.
Proof.
  unfold set_of_list.
  assert (H : forall acc, NoDup acc ->
            NoDup (foldl (fun a y => set_add y a) acc l)
            /\ forall e, e ∈ foldl (fun a y => set_add y a) acc l <-> e ∈ acc \/ e ∈ l).
  { induction l as [|y l IH]; intros acc Hacc; cbn [foldl].
    - split; [done|]. intros e. rewrite elem_of_nil. tauto.
    - destruct (IH (set_add y acc) (NoDup_set_add y acc Hacc)) as [H1 H2].
      split; [done|]. intros e. rewrite H2, elem_of_set_add, elem_of_cons. tauto. }
  destruct (H [] (NoDup_nil_2)) as [H1 H2]. split; [done|].
  intros e. rewrite H2, elem_of_nil. tauto.
Qed.

Lemma NoDup_all_eq (e : nat) (l : list nat) :
  NoDup l -> (forall e', e' ∈ l -> e' = e) -> l = [] \/ l = [e].
Proof.
  intros Hnd Hall. destruct l as [|a l]; [by left|]. right.
  assert (a = e) as -> by (apply Hall; apply list_elem_of_here).
  destruct l as [|b l]; [done|].
  assert (b = e) as -> by (apply Hall; apply list_elem_of_further, list_elem_of_here).
  apply NoDup_cons in Hnd as [Hnin _]. exfalso. apply Hnin, list_elem_of_here.
Qed.

Lemma elem_of_concat_map {A} (F : A -> list nat) (l : list A) (e : nat) :
  e ∈ concat (map F l) -> exists a, a ∈ l /\ e ∈ F a.
Proof.
  induction l as [|a l IH]; cbn [map concat].
  - by intros ?%elem_of_nil.
  - rewrite elem_of_app. intros [H|H].
    + exists a. split; [apply list_elem_of_here|done].
    + destruct (IH H) as (b & Hb & He). exists b. split; [by apply list_elem_of_further|done].
Qed.

(** With a sole subscriber, [trigger] triggers that subscriber or nothing. *)
Lemma trigger_targets_sole e st t ty k nv es :
  sole_subscriber e st ->
  trigger_targets t ty k nv st = Some es -> es = [] \/ es = [e].
Proof.
  intros Hsole. unfold trigger_targets.
  destruct (targetMap st !! t) as [m|]; [ |intros [= <-]; by left].
  destruct (collect_deps t m ty k nv) as [ds|]; [ |done].
  assert (Hmem : forall r, NoDup (members_of r st)
                           /\ forall e', e' ∈ members_of r st -> e' = e).
  { intros r. unfold members_of.
    destruct (Hsole r) as [H1 H2]. unfold dep_at in H1, H2.
    destruct (lookup_dep r st); [done|]. split; [apply NoDup_nil_2|].
    intros e' He'. by apply elem_of_nil in He'. }
  assert (Hcreate : forall l : list (option depref),
            members (createDep (concat (map (fun d => match d with
                                                      | Some r => members_of r st
                                                      | None => []
                                                      end) l))) = []
            \/ members (createDep (concat (map (fun d => match d with
                                                         | Some r => members_of r st
                                                         | None => []
                                                         end) l))) = [e]).
  { intros l. cbn [members createDep].
    destruct (set_of_list_spec (concat (map (fun d => match d with
                                                      | Some r => members_of r st
                                                      | None => []
                                                      end) l))) as [H1 H2].
    apply NoDup_all_eq; [done|]. intros e' He'. apply H2 in He'.
    apply elem_of_concat_map in He' as ([r|] & _ & He').
    - by apply (Hmem r).
    - by apply elem_of_nil in He'. }
  destruct ds as [|[r|] [|d ds]]; intros [= <-].
  - apply (Hcreate []).
  - destruct (Hmem r). by apply NoDup_all_eq.
  - apply (Hcreate (Some r :: d :: ds)).
  - by left.
  - apply (Hcreate (None :: d :: ds)).
Qed.

Lemma finalizeDepMarkers_context e st : context (finalizeDepMarkers e st) = context st.
Proof.
  unfold finalizeDepMarkers. destruct (effects st !! e) as [x|]; [ |done].
  destruct (deps x) as [|r ds]; [done|].
  destruct (foldl_finalizeDep_quiet e (trackOpBit st) (r :: ds) (st, [])) as [_ Hc].
  destruct (foldl _ _ _) as [st' kept]. by rewrite context_update_effect.
Qed.

Lemma finalizeDepMarkers_options e st e' :
  options_of <$> effects (finalizeDepMarkers e st) !! e'
  = options_of <$> effects st !! e'.
Proof.
  unfold finalizeDepMarkers. destruct (effects st !! e) as [x|]; [ |done].
  destruct (deps x) as [|r ds]; [done|].
  destruct (foldl_finalizeDep_quiet e (trackOpBit st) (r :: ds) (st, [])) as [He _].
  destruct (foldl _ _ _) as [st' kept]. cbn [fst] in He.
  unfold update_effect. cbn [effects set_effects]. rewrite He.
  destruct (decide (e = e')) as [<-|Hne].
  - rewrite list_lookup_alter_eq. by destruct (effects st !! e).
  - by rewrite list_lookup_alter_ne.
Qed.

Lemma run_exit_trace e last st : trace (run_exit e last st) = trace st.
Proof.
  unfold run_exit.
  cbn [trace update_effect set_effects set_shouldTrack set_activeEffect set_depth].
  destruct (_ <=? _); [ |done].
  pose proof (finalizeDepMarkers_context e st) as H. apply (f_equal snd) in H. done.
Qed.

Lemma run_exit_options e last st e' :
  options_of <$> effects (run_exit e last st) !! e' = options_of <$> effects st !! e'.
Proof.
  unfold run_exit.
  cbn [effects update_effect set_effects set_shouldTrack set_activeEffect set_depth].
  rewrite <- (finalizeDepMarkers_options e st e').
  destruct (decide (e = e')) as [<-|Hne].
  - rewrite list_lookup_alter_eq.
    destruct (_ <=? _).
    + by destruct (effects (finalizeDepMarkers e st) !! e).
    + rewrite finalizeDepMarkers_options. by destruct (effects st !! e).
  - rewrite list_lookup_alter_ne by done.
    destruct (_ <=? _); [done|]. by rewrite finalizeDepMarkers_options.
Qed.

Lemma track_sole e t ty k st :
  activeEffect st = Some e -> sole_subscriber e st -> sole_subscriber e (track t ty k st).
Proof.
  intros Ha Hs. unfold track. destruct (shouldTrack st); [ |done]. rewrite Ha.
  assert (Ha1 : activeEffect (ensure_dep t k st) = Some e)
    by by rewrite activeEffect_ensure_dep.
  pose proof (lookup_dep_ensure_dep t k st) as Hl1.
  pose proof (trackEffects_dep _ e _ _ Ha1 Hl1) as Hdep.
  pose proof (trackEffects_dep_ne _ e _ _ Ha1 Hl1) as Hdne.
  cbv zeta in Hdep. intros r. destruct (decide (DLoc t k = r)) as [<-|Hr].
  - rewrite Hdep. cbn [members]. destruct (Hs (DLoc t k)) as [H1 H2].
    match goal with |- context [if ?b then _ else _] => destruct b end; [ |done].
    split; [by apply NoDup_set_add|].
    intros e' [->|He']%elem_of_set_add; [done|by apply H2].
  - rewrite Hdne, dep_at_ensure_dep by done. apply Hs.
Qed.

Lemma track_options t ty k st e' :
  options_of <$> effects (track t ty k st) !! e' = options_of <$> effects st !! e'.
Proof.
  pose proof (track_efields t ty k st e') as H.
  destruct (effects (track t ty k st) !! e') as [y|], (effects st !! e') as [z|];
    cbn in *; try done.
  injection H as H1 _ H3 H4 H5 H6 H7 H8. unfold options_of. congruence.
Qed.

(** While [e] is the running effect, is not allowed to recurse and is the
    only subscriber, a body that reads and writes leaves this so and calls
    no body. *)

Lemma triggerEffect_self call e y st :
  effects st !! e = Some y -> activeEffect st = Some e -> allowRecurse y = false ->
  triggerEffect call e st = Some (Normal VUndefined, st).
Proof.
  intros Hy Ha Hr. unfold triggerEffect. rewrite Hy, Ha, Hr.
  by rewrite bool_decide_eq_true_2.
Qed.

Lemma exec_readwrite call e x n p s :
  allowRecurse x = false ->
  readwrite p -> self_inv e x n s ->
  exists o s', exec call p s = Some (o, s') /\ self_inv e x n s'.
Proof.
  intros Hrec Hp. revert s.
  induction Hp as [v|t ty k next _ IH|t ty k nv next _ IH|y next _ IH|y v next _ IH];
    intros s (Ha & Ho & Hs & Hn); cbn [exec].
  - exists (Normal v), s. by split.
  - apply IH. split; [ |split; [ |split]].
    + by destruct (context_active_depth _ _ (track_context t ty k s)) as [-> _].
    + by rewrite track_options.
    + by apply track_sole.
    + unfold calls_of. pose proof (track_context t ty k s) as H.
      apply (f_equal snd) in H. cbn [snd context] in H. by rewrite H.
  - rewrite trigger_eq.
    destruct (trigger_targets t ty k nv s) as [es|] eqn:Ht.
    + assert (Hes : triggerEffects call es s = Some (Normal VUndefined, s)).
      { destruct (trigger_targets_sole e s t ty k nv es Hs Ht) as [-> | ->]; [done|].
        cbn [triggerEffects].
        destruct (effects s !! e) as [z|] eqn:Hz; [ |done].
        rewrite (triggerEffect_self call e z); [done|done|done|].
        cbn in Ho. injection Ho as _ _ H _ _ _ _. congruence. }
      rewrite Hes. cbn [bindR]. by apply IH.
    + exists Thrown, s. by split.
  - by apply IH.
  - apply IH. by split.
Qed.

Lemma NoDup_set_delete e l : NoDup l -> NoDup (set_delete e l).
Proof. apply NoDup_filter. Qed.

Lemma run_enter_sole e x st :
  effects st !! e = Some x -> sole_subscriber e st -> sole_subscriber e (run_enter e st).
Proof.
  intros Hx Hs r. rewrite (run_enter_dep e x) by done. destruct (Hs r) as [H1 H2].
  destruct (decide (r ∈ deps x)); [ |done]. cbn [members with_members]. split.
  - by apply NoDup_set_delete.
  - intros e' He'. apply H2. unfold set_delete in He'.
    by apply list_elem_of_filter in He' as [_ ?].
Qed.

Section RunReadWrite.

Context (fuel : nat) (e : eid) (x : ReactiveEffect) (st : State).
Hypothesis Hx : effects st !! e = Some x.
Hypothesis Hactive : active x = true.
Hypothesis Hrec : allowRecurse x = false.
Hypothesis Hds : deferStop x = false.
Hypothesis Hrw : readwrite (fn x).
Hypothesis Hchain : inParentChain st e = Some false.
Hypothesis Hsole : sole_subscriber e st.

Lemma run_readwrite_enter :
  self_inv e x (S (calls_of (EvFn e) st)) (log (EvFn e) (run_enter e st)).
Proof using Hx Hsole.
  pose proof (run_enter_context e st) as Hc.
  split; [ |split; [ |split]].
  - cbn [activeEffect log].
    change (activeEffect (run_enter e st)) with (context (run_enter e st)).1.1.1.1.2.
    by rewrite Hc.
  - cbn [effects log]. by rewrite (run_enter_effects e x), list_lookup_alter_eq, Hx.
  - intros r. replace (dep_at r (log (EvFn e) (run_enter e st)))
      with (dep_at r (run_enter e st)) by by destruct r.
    by apply (run_enter_sole e x).
  - rewrite (calls_of_snoc (EvFn e) (EvFn e) st).
    + rewrite decide_True by done. lia.
    + cbn [trace log]. apply (f_equal snd) in Hc. cbn [snd context] in Hc. by rewrite Hc.
Qed.

(** The run executes the body once and returns or throws. *)
Lemma run_readwrite :
  exists o st',
    run_n (S fuel) e st = Some (o, st')
    /\ calls_of (EvFn e) st' = S (calls_of (EvFn e) st).
Proof using Hx Hactive Hrec Hds Hrw Hchain Hsole.
  unfold run_n. rewrite (run_active _ e x) by done. rewrite call_n_user.
  destruct (exec_readwrite (call_n fuel) e x _ (fn x) _ Hrec Hrw run_readwrite_enter)
    as (o & s_b & -> & _ & Ho & _ & Hn).
  unfold finallyR, run_finally.
  pose proof (run_exit_options e (shouldTrack st) s_b e) as Hopt. rewrite Ho in Hopt.
  destruct (effects (run_exit e (shouldTrack st) s_b) !! e) as [y|]; [ |done].
  cbn in Hopt. injection Hopt as _ _ _ Hd _ _ _. rewrite Hd, Hds.
  exists o, (run_exit e (shouldTrack st) s_b). split; [done|].
  unfold calls_of in *. by rewrite run_exit_trace.
Qed.

End RunReadWrite.


Lemma sole_subscriber_b_sound e st : sole_subscriber_b e st = true -> sole_subscriber e st.
Proof.
  intros H r.
  apply (all_deps_dep_at _ st r) in H.
  - apply andb_true_iff in H as [H1 H2]. apply bool_decide_eq_true in H1.
    split; [done|]. intros e' He'. rewrite forallb_forall in H2.
    apply list_elem_of_In in He'. apply H2 in He'. by apply bool_decide_eq_true in He'.
  - apply andb_true_iff. split; [ |done].
    apply bool_decide_eq_true. apply NoDup_nil_2.
Qed.


(** ** Nested effects *)

Lemma exec_reads_then call ls k s :
  exec call (reads_then ls k) s = exec call k (track_all ls s).
Proof.
  revert s. induction ls as [|[t key] ls IH]; intros s; [done|].
  cbn [reads_then exec fst snd]. by rewrite IH.
Qed.

Lemma effect_new call p st :
  effect_ call (inl p) false None false None st
  = Some (run call (length (effects st)) (with_new_effect p st), length (effects st)).
Proof.
  unfold effect_. cbn [new_effect]. f_equal. f_equal. f_equal.
  unfold update_effect, with_new_effect, set_effects. cbn [effects targetMap
    effectTrackDepth trackOpBit activeEffect shouldTrack trackStack computeds vars trace].
  f_equal. apply list_eq. intros i.
  destruct (decide (i = length (effects st))) as [->|Hne].
  - by rewrite list_lookup_alter_eq, !list_lookup_middle.
  - by rewrite list_lookup_alter_ne.
Qed.

Lemma walkParents_transfer n st st' p a b :
  walkParents n st p a = Some false ->
  walkParents n st p b = Some false ->
  (forall y, y <> a -> parent_of st' y = parent_of st y) ->
  walkParents n st' p b = Some false.
Proof.
  intros Ha Hb Hp. revert p Ha Hb.
  induction n as [|n IH]; intros [y|] Ha Hb; cbn [walkParents] in *; try done.
  destruct (decide (y = b)); [done|]. destruct (decide (y = a)); [done|].
  rewrite Hp by done. by apply IH.
Qed.

Lemma walkParents_more n st p e b :
  walkParents n st p e = Some b -> walkParents (S n) st p e = Some b.
Proof.
  revert p. induction n as [|n IH]; intros [y|]; cbn [walkParents]; try done.
  - by destruct (decide (y = e)).
  - destruct (decide (y = e)); [done|]. apply IH.
Qed.

Lemma same_for_new_effect e d p st :
  e <> length (effects st) -> same_for e d st (with_new_effect p st).
Proof.
  intros Hne. split.
  - unfold with_new_effect. cbn [effects set_effects].
    destruct (decide (e < length (effects st))%nat).
    + by rewrite lookup_app_l.
    + rewrite !lookup_ge_None_2; [done|lia|]. rewrite length_app. cbn. lia.
  - intros r. replace (dep_at r (with_new_effect p st)) with (dep_at r st) by by destruct r.
    done.
Qed.

Lemma markers_clear_same_for e d st st' :
  0 <= d -> same_for e d st st' -> markers_clear d st -> markers_clear d st'.
Proof.
  intros Hd [_ Hs] Hm Hle r. destruct (Hs r) as [_ Hb].
  destruct (Hb (conj Hd Hle)) as [-> ->]. by apply Hm.
Qed.

Lemma unsubscribed_same_for e d st st' :
  same_for e d st st' -> unsubscribed e st -> unsubscribed e st'.
Proof.
  intros [_ Hs] Hu r. apply occurrences_zero. destruct (Hs r) as [-> _].
  apply occurrences_zero, Hu.
Qed.

Lemma unsubscribed_b_sound e st : unsubscribed_b e st = true -> unsubscribed e st.
Proof.
  intros H r. apply (all_deps_dep_at _ st r) in H.
  - by apply negb_true_iff, bool_decide_eq_false in H.
  - apply negb_true_iff, bool_decide_eq_false. apply not_elem_of_nil.
Qed.

Lemma track_all_options ls st e' :
  options_of <$> effects (track_all ls st) !! e' = options_of <$> effects st !! e'.
Proof.
  revert st. induction ls as [|l ls IH]; intros st; [done|].
  by rewrite track_all_cons, IH, track_options.
Qed.

Lemma run_enter_options e x st e' :
  effects st !! e = Some x ->
  options_of <$> effects (run_enter e st) !! e' = options_of <$> effects st !! e'.
Proof.
  intros Hx. rewrite (run_enter_effects e x) by done.
  destruct (decide (e = e')) as [<-|Hne].
  - rewrite list_lookup_alter_eq. by destruct (effects st !! e).
  - by rewrite list_lookup_alter_ne.
Qed.

Lemma run_enter_length e x st :
  effects st !! e = Some x -> length (effects (run_enter e st)) = length (effects st).
Proof. intros Hx. by rewrite (run_enter_effects e x), length_alter. Qed.

Lemma dep_at_with_new_effect p st r : dep_at r (with_new_effect p st) = dep_at r st.
Proof. by destruct r. Qed.

Section Nested.

Context (fuel : nat) (e : eid) (x : ReactiveEffect) (st : State).
Context (before after : list (target * key)) (inner : prog) (v : value).
Hypothesis Hx : effects st !! e = Some x.
Hypothesis Hactive : active x = true.
Hypothesis Hds : deferStop x = false.
Hypothesis Hfn : fn x = nesting_body before inner after v.
Hypothesis Hinner : simple inner.
Hypothesis Hchain : inParentChain st e = Some false.
Hypothesis Hdepth : 0 <= effectTrackDepth st.
Hypothesis Hlisted : listed e st.
Hypothesis Hclear1 : markers_clear (effectTrackDepth st + 1) st.
Hypothesis Hclear2 : markers_clear (effectTrackDepth st + 2) st.

(** The effect that the body creates. *)
Let i := length (effects st).
Hypothesis Hchain_i : inParentChain st i = Some false.
Hypothesis Hfresh : unsubscribed i st.

Let d := effectTrackDepth st + 1.
Let x_i := mkEffect true [] None None false false None inner None.
Let L_A := add_all [] (map loc before).
Let L_o := add_all L_A (map loc after).
Let L_i := add_all [] (map loc (reads inner (vars st))).

(** The states in which the outer body starts, creates the inner effect,
    the inner body returns, the inner run returns, and the outer body
    returns. *)
Let s_l := log (EvFn e) (run_enter e st).
Let s_A := track_all before s_l.
Let s_2 := with_new_effect inner s_A.
Let s_ib := set_vars (fun _ => final_vars inner (vars s_2))
              (track_all (reads inner (vars s_2)) (log (EvFn i) (run_enter i s_2))).
Let s_i := run_exit i (shouldTrack s_2) s_ib.
Let s_B := track_all after s_i.

Lemma nested_e_lt : (e < i)%nat.
Proof using Hx. by apply lookup_lt_Some in Hx. Qed.

Lemma nested_ctx_l : tracking_ctx e d s_l.
Proof using Hdepth. apply (run_enter_tracking e st Hdepth). Qed.

Lemma nested_sub_l : subscribed_at e d [] s_l.
Proof using Hx Hdepth Hlisted Hclear1.
  apply (subscribed_at_same_for e d [] (run_enter e st)).
  - unfold d. lia.
  - apply same_for_eq; [done|]. intros r. by destruct r.
  - by apply (run_enter_subscribed e x).
Qed.

Lemma nested_ctx_A : tracking_ctx e d s_A.
Proof using Hdepth.
  pose proof nested_ctx_l as (H1 & H2 & H3 & H4 & H5).
  pose proof (track_all_context before s_l) as Hc. unfold context in Hc.
  injection Hc as Hc1 Hc2 Hc3 Hc4 _ _ _. unfold tracking_ctx, s_A.
  by rewrite Hc1, Hc2, Hc3, Hc4.
Qed.

Lemma nested_sub_A : subscribed_at e d L_A s_A.
Proof using Hx Hdepth Hlisted Hclear1.
  apply track_all_subscribed; [apply nested_ctx_l|apply nested_sub_l].
Qed.

Lemma nested_length_A : length (effects s_A) = i.
Proof using Hx.
  unfold s_A. rewrite track_all_length. unfold s_l. cbn [effects log].
  by apply (run_enter_length e x).
Qed.

Lemma nested_vars_2 : vars s_2 = vars st.
Proof using Type.
  unfold s_2, s_A. cbn [vars with_new_effect set_effects].
  rewrite vars_track_all. unfold s_l. cbn [vars log]. apply vars_run_enter.
Qed.

(** What the created effect sees has not changed when it is created. *)
Lemma nested_same_for_i : same_for i (d + 1) st s_A.
Proof using Hx Hdepth.
  pose proof nested_e_lt.
  eapply same_for_trans; [apply (run_enter_same_for e x st Hx); lia|].
  eapply same_for_trans.
  - apply (same_for_eq _ _ _ s_l); [done|]. intros r. by destruct r.
  - apply (track_all_same_for e d); [apply nested_ctx_l|lia|lia].
Qed.

Lemma nested_effect_i : effects s_2 !! i = Some x_i.
Proof using Hx.
  unfold s_2, with_new_effect. cbn [effects set_effects].
  rewrite <- nested_length_A. apply list_lookup_middle. done.
Qed.

Lemma nested_context_2 : context s_2 = context s_A.
Proof using Type. reflexivity. Qed.

Lemma nested_depth_2 : effectTrackDepth s_2 = d.
Proof using Hdepth. by destruct nested_ctx_A as (_ & _ & ? & _). Qed.

Lemma nested_active_2 : activeEffect s_2 = Some e.
Proof using Hdepth. by destruct nested_ctx_A as (? & _). Qed.

Lemma nested_listed_i : listed i s_2.
Proof using Hx Hdepth Hfresh.
  intros r Hr. exfalso. revert Hr. unfold s_2. rewrite dep_at_with_new_effect.
  by apply (unsubscribed_same_for i (d + 1) st s_A nested_same_for_i).
Qed.

Lemma nested_clear_i : markers_clear (effectTrackDepth s_2 + 1) s_2.
Proof using Hx Hdepth Hclear2.
  rewrite nested_depth_2. intros Hle r. unfold s_2. rewrite dep_at_with_new_effect.
  apply (markers_clear_same_for i (d + 1) st s_A); [unfold d; lia|apply nested_same_for_i| |done].
  unfold d. by replace (effectTrackDepth st + 1 + 1) with (effectTrackDepth st + 2) by lia.
Qed.

Lemma nested_parent_2 y : y <> e -> parent_of s_2 y = parent_of st y.
Proof using Hx.
  intros Hy. unfold parent_of.
  destruct (decide (y < i)%nat) as [Hlt|Hge].
  - unfold s_2, with_new_effect. cbn [effects set_effects].
    rewrite lookup_app_l by (by rewrite nested_length_A).
    pose proof (track_all_efields before s_l y) as H.
    unfold s_l in H at 2. cbn [effects log] in H.
    rewrite (run_enter_effects e x), list_lookup_alter_ne in H by done.
    fold s_A in H.
    destruct (effects s_A !! y) as [a|], (effects st !! y) as [b|]; cbn in *; try done.
    by injection H as _ -> _.
  - rewrite (lookup_ge_None_2 (effects st)) by (fold i; lia).
    destruct (decide (y = i)) as [->|Hne].
    + by rewrite nested_effect_i.
    + rewrite lookup_ge_None_2; [done|].
      unfold s_2, with_new_effect. cbn [effects set_effects].
      rewrite length_app, nested_length_A. cbn. lia.
Qed.

Lemma nested_efields_A :
  efields <$> effects s_A !! e
  = Some (active x, activeEffect st, computed x, allowRecurse x, deferStop x,
          onStop x, fn x, scheduler x).
Proof using Hx.
  unfold s_A. rewrite track_all_efields. unfold s_l. cbn [effects log].
  by rewrite (run_enter_effects e x), list_lookup_alter_eq, Hx.
Qed.

Lemma nested_chain_i : inParentChain s_2 i = Some false.
Proof using Hx Hds Hchain Hchain_i Hdepth.
  pose proof nested_e_lt. unfold inParentChain.
  assert (Hlen : length (effects s_2) = S i).
  { unfold s_2, with_new_effect. cbn [effects set_effects].
    rewrite length_app, nested_length_A. cbn. lia. }
  rewrite Hlen, nested_active_2. cbn [walkParents]. rewrite decide_False by lia.
  assert (Hp : parent_of s_2 e = activeEffect st).
  { unfold parent_of, s_2, with_new_effect. cbn [effects set_effects].
    rewrite lookup_app_l by (rewrite nested_length_A; lia).
    pose proof nested_efields_A as H'.
    destruct (effects s_A !! e) as [y|]; [ |done]. cbn in *. by injection H' as _ -> _. }
  rewrite Hp. apply (walkParents_transfer (S i) st s_2 (activeEffect st) e i); try done.
  apply nested_parent_2.
Qed.

(** The run of the created effect. *)
Lemma nested_inner_run :
  run_n (S fuel) i s_2 = Some (Normal (result inner (vars s_2)), s_i).
Proof using Hx Hds Hchain Hchain_i Hdepth Hfresh Hclear2 Hinner.
  apply (run_n_simple i x_i s_2); try done.
  - apply nested_effect_i.
  - rewrite nested_depth_2. unfold d. lia.
  - apply nested_listed_i.
  - apply nested_clear_i.
  - apply nested_chain_i.
Qed.

Lemma nested_inner_ctx : tracking_ctx i (d + 1) s_ib.
Proof using Hdepth.
  pose proof (body_end_tracking i s_2) as H. rewrite nested_depth_2 in H.
  apply H. unfold d. lia.
Qed.

Lemma nested_inner_sub : subscribed_at i (d + 1) L_i s_ib.
Proof using Hx Hdepth Hfresh Hclear2.
  pose proof (body_end_subscribed i x_i s_2 nested_effect_i) as H.
  rewrite nested_depth_2, nested_vars_2 in H. unfold s_ib. rewrite nested_vars_2.
  apply H.
  - unfold d. lia.
  - apply nested_listed_i.
  - rewrite <- nested_depth_2. apply nested_clear_i.
Qed.

(** The reads of the inner run are not seen by the outer effect. *)
Lemma nested_same_for_e : same_for e d s_A s_i.
Proof using Hx Hdepth Hfresh Hclear2.
  pose proof nested_e_lt.
  eapply same_for_trans.
  { apply same_for_new_effect. rewrite nested_length_A. lia. }
  fold s_2. eapply same_for_trans.
  - apply (body_end_same_for i x_i s_2 nested_effect_i); [ |lia| ].
    + rewrite nested_depth_2. unfold d. lia.
    + rewrite nested_depth_2. lia.
  - apply (run_exit_same_for i (d + 1) L_i); [apply nested_inner_ctx|apply nested_inner_sub|lia|lia].
Qed.

Lemma nested_context_i :
  context s_i = (d, shl 1 d, Some e, true, trackStack s_ib, vars s_ib, trace s_ib).
Proof using Hx Hdepth Hfresh Hclear2.
  unfold s_i. rewrite (run_exit_context i (d + 1) L_i)
    by (apply nested_inner_ctx || apply nested_inner_sub).
  pose proof (body_end_parent i x_i s_2 nested_effect_i inner) as Hp.
  fold s_ib in Hp. rewrite Hp, nested_active_2.
  destruct nested_ctx_A as (_ & Hs & _).
  replace (d + 1 - 1) with d by lia.
  change (shouldTrack s_2) with (shouldTrack s_A). by rewrite Hs.
Qed.

Lemma nested_ctx_i : tracking_ctx e d s_i.
Proof using Hx Hdepth Hfresh Hclear2.
  pose proof nested_context_i as H. unfold tracking_ctx.
  change (activeEffect s_i) with (context s_i).1.1.1.1.2.
  change (shouldTrack s_i) with (context s_i).1.1.1.2.
  change (effectTrackDepth s_i) with (context s_i).1.1.1.1.1.1.
  change (trackOpBit s_i) with (context s_i).1.1.1.1.1.2.
  rewrite H. cbn [fst snd]. repeat split; try done. unfold d. lia.
Qed.

Lemma nested_sub_i : subscribed_at e d L_A s_i.
Proof using Hx Hdepth Hfresh Hclear2 Hlisted Hclear1.
  apply (subscribed_at_same_for e d L_A s_A);
    [unfold d; lia|apply nested_same_for_e|apply nested_sub_A].
Qed.

Lemma nested_ctx_B : tracking_ctx e d s_B.
Proof using Hx Hdepth Hfresh Hclear2.
  pose proof nested_ctx_i as (H1 & H2 & H3 & H4 & H5).
  pose proof (track_all_context after s_i) as Hc. unfold context in Hc.
  injection Hc as Hc1 Hc2 Hc3 Hc4 _ _ _. unfold tracking_ctx, s_B.
  by rewrite Hc1, Hc2, Hc3, Hc4.
Qed.

Lemma nested_sub_B : subscribed_at e d L_o s_B.
Proof using Hx Hdepth Hfresh Hclear2 Hlisted Hclear1.
  apply track_all_subscribed; [apply nested_ctx_i|apply nested_sub_i].
Qed.

(** The body of the outer effect. *)
Lemma nested_outer_body :
  call_n (S (S fuel)) (UserFn (fn x)) s_l = Some (Normal v, s_B).
Proof using Hx Hds Hchain Hchain_i Hdepth Hfresh Hclear2 Hinner Hfn.
  rewrite Hfn, call_n_user. unfold nesting_body. rewrite exec_reads_then.
  fold s_A. cbn [exec]. rewrite effect_new, nested_length_A. fold s_2.
  fold (run_n (S fuel) i s_2). rewrite nested_inner_run. cbn [bindR].
  by rewrite exec_reads_then.
Qed.

Lemma nested_options_B : options_of <$> effects s_B !! e = Some (options_of x).
Proof using Hx Hdepth Hfresh Hclear2.
  pose proof nested_e_lt.
  unfold s_B. rewrite track_all_options. unfold s_i. rewrite run_exit_options.
  pose proof (body_end_efields i x_i s_2 nested_effect_i inner e) as H1.
  fold s_ib in H1. rewrite list_lookup_alter_ne in H1 by lia.
  assert (H2 : options_of <$> effects s_ib !! e = options_of <$> effects s_2 !! e).
  { destruct (effects s_ib !! e) as [a|], (effects s_2 !! e) as [b|]; cbn in *; try done.
    injection H1 as H3 _ H4 H5 H6 H7 H8 H9. unfold options_of. congruence. }
  rewrite H2. unfold s_2, with_new_effect. cbn [effects set_effects].
  rewrite lookup_app_l by (rewrite nested_length_A; lia).
  unfold s_A. rewrite track_all_options. unfold s_l. cbn [effects log].
  by rewrite (run_enter_options e x), Hx.
Qed.

Lemma nested_run :
  run_n (S (S fuel)) e st = Some (Normal v, run_exit e (shouldTrack st) s_B).
Proof using Hx Hactive Hds Hchain Hchain_i Hdepth Hfresh Hclear2 Hinner Hfn.
  unfold run_n. rewrite (run_active _ e x) by done.
  fold s_l. rewrite nested_outer_body. unfold finallyR, run_finally.
  pose proof (run_exit_options e (shouldTrack st) s_B e) as Ho.
  rewrite nested_options_B in Ho.
  destruct (effects (run_exit e (shouldTrack st) s_B) !! e) as [y|]; [ |done].
  cbn in Ho. injection Ho as _ _ _ Hd _ _ _. by rewrite Hd, Hds.
Qed.

(** The subscriptions of the two effects when the outer run returns. *)
Lemma nested_outer_occurrences r :
  occurrences e (members (dep_at r (run_exit e (shouldTrack st) s_B)))
  = (if decide (r ∈ L_o) then 1 else 0)%nat.
Proof using Hx Hdepth Hfresh Hclear2 Hlisted Hclear1.
  apply (run_exit_occurrences e d L_o); [apply nested_ctx_B|apply nested_sub_B].
Qed.

Lemma nested_inner_occurrences r :
  occurrences i (members (dep_at r (run_exit e (shouldTrack st) s_B)))
  = (if decide (r ∈ L_i) then 1 else 0)%nat.
Proof using Hx Hdepth Hfresh Hclear2 Hlisted Hclear1.
  pose proof nested_e_lt.
  destruct (run_exit_same_for e d L_o (shouldTrack st) s_B nested_ctx_B nested_sub_B
              i (d + 1)) as [_ Hs]; [lia|lia|].
  destruct (Hs r) as [-> _].
  destruct (track_all_other after s_i i) as [_ ->].
  { destruct nested_ctx_i as (-> & _). intros [=]. lia. }
  apply (run_exit_occurrences i (d + 1) L_i); [apply nested_inner_ctx|apply nested_inner_sub].
Qed.

Lemma nested_outer_deps : deps_of e (run_exit e (shouldTrack st) s_B) = L_o.
Proof using Hx Hdepth Hfresh Hclear2 Hlisted Hclear1.
  unfold deps_of. rewrite (run_exit_effects e d L_o)
    by (apply nested_ctx_B || apply nested_sub_B).
  rewrite list_lookup_alter_eq. by destruct nested_sub_B as ((y & -> & Hy) & _).
Qed.

Lemma nested_inner_deps : deps_of i (run_exit e (shouldTrack st) s_B) = L_i.
Proof using Hx Hdepth Hfresh Hclear2 Hlisted Hclear1.
  pose proof nested_e_lt.
  unfold deps_of. rewrite (run_exit_effects e d L_o)
    by (apply nested_ctx_B || apply nested_sub_B).
  rewrite list_lookup_alter_ne by lia.
  destruct (track_all_other after s_i i) as [Heq _].
  { destruct nested_ctx_i as (-> & _). intros [=]. lia. }
  fold s_B in Heq. rewrite Heq. unfold s_i.
  rewrite (run_exit_effects i (d + 1) L_i) by (apply nested_inner_ctx || apply nested_inner_sub).
  rewrite list_lookup_alter_eq. by destruct nested_inner_sub as ((y & -> & Hy) & _).
Qed.

Lemma nested_restored :
  activeEffect (run_exit e (shouldTrack st) s_B) = activeEffect st.
Proof using Hx Hdepth Hfresh Hclear2 Hlisted Hclear1.
  pose proof (run_exit_context e d L_o (shouldTrack st) s_B nested_ctx_B nested_sub_B) as H.
  change (activeEffect (run_exit e (shouldTrack st) s_B))
    with (context (run_exit e (shouldTrack st) s_B)).1.1.1.1.2.
  rewrite H. cbn [fst snd]. unfold parent_of.
  pose proof nested_options_B as Ho.
  pose proof (track_all_efields after s_i e) as H1. fold s_B in H1.
  pose proof (run_exit_effects i (d + 1) L_i (shouldTrack s_2) s_ib nested_inner_ctx
                nested_inner_sub) as H2. fold s_i in H2.
  rewrite H2, list_lookup_alter_ne in H1 by (pose proof nested_e_lt; lia).
  pose proof (body_end_efields i x_i s_2 nested_effect_i inner e) as H3.
  fold s_ib in H3. rewrite list_lookup_alter_ne in H3 by (pose proof nested_e_lt; lia).
  rewrite H3 in H1. unfold s_2, with_new_effect in H1. cbn [effects set_effects] in H1.
  rewrite lookup_app_l in H1 by (rewrite nested_length_A; pose proof nested_e_lt; lia).
  rewrite nested_efields_A in H1.
  destruct (effects s_B !! e) as [y|]; [ |done]. cbn in *. by injection H1 as _ -> _.
Qed.

(** The links set on entry of the two runs. *)
Lemma nested_outer_enter :
  activeEffect (run_enter e st) = Some e /\ parent_of (run_enter e st) e = activeEffect st.
Proof using Hx.
  split.
  - change (activeEffect (run_enter e st)) with (context (run_enter e st)).1.1.1.1.2.
    by rewrite run_enter_context.
  - unfold parent_of. by rewrite (run_enter_effects e x), list_lookup_alter_eq, Hx.
Qed.

Lemma nested_inner_enter :
  activeEffect (run_enter i s_2) = Some i /\ parent_of (run_enter i s_2) i = Some e.
Proof using Hx Hdepth.
  split.
  - change (activeEffect (run_enter i s_2)) with (context (run_enter i s_2)).1.1.1.1.2.
    by rewrite run_enter_context.
  - unfold parent_of.
    rewrite (run_enter_effects i x_i) by apply nested_effect_i.
    rewrite list_lookup_alter_eq, nested_effect_i. cbn. apply nested_active_2.
Qed.

Lemma nested_summary :
  (activeEffect (run_enter e st) = Some e
   /\ parent_of (run_enter e st) e = activeEffect st)
  /\ (activeEffect (run_enter i s_2) = Some i
      /\ parent_of (run_enter i s_2) i = Some e)
  /\ exists st',
      run_n (S (S fuel)) e st = Some (Normal v, st')
      /\ (forall r, occurrences e (members (dep_at r st'))
                    = if decide (r ∈ map loc (before ++ after)) then 1%nat else 0%nat)
      /\ (forall r, occurrences i (members (dep_at r st'))
                    = if decide (r ∈ map loc (reads inner (vars st))) then 1%nat else 0%nat)
      /\ (forall r, r ∈ deps_of e st' <-> r ∈ map loc (before ++ after))
      /\ (forall r, r ∈ deps_of i st' <-> r ∈ map loc (reads inner (vars st)))
      /\ activeEffect st' = activeEffect st.
Proof using All.
  split; [apply nested_outer_enter|]. split; [apply nested_inner_enter|].
  assert (Ho : forall r, r ∈ L_o <-> r ∈ map loc (before ++ after)).
  { intros r. unfold L_o, L_A. rewrite !elem_of_add_all, map_app, elem_of_app, elem_of_nil.
    tauto. }
  assert (Hi : forall r, r ∈ L_i <-> r ∈ map loc (reads inner (vars st))).
  { intros r. apply elem_of_add_all_nil. }
  exists (run_exit e (shouldTrack st) s_B).
  split; [apply nested_run|]. split; [ |split; [ |split; [ |split]]].
  - intros r. rewrite nested_outer_occurrences.
    destruct (decide (r ∈ L_o)) as [H|H], (decide (r ∈ map loc (before ++ after))) as [H'|H'];
      try done; exfalso; by apply Ho in H || apply Ho in H'.
  - intros r. rewrite nested_inner_occurrences.
    destruct (decide (r ∈ L_i)) as [H|H],
      (decide (r ∈ map loc (reads inner (vars st)))) as [H'|H'];
      try done; exfalso; by apply Hi in H || apply Hi in H'.
  - intros r. by rewrite nested_outer_deps.
  - intros r. by rewrite nested_inner_deps.
  - apply nested_restored.
Qed.

End Nested.



(** ** Computed values *)

Lemma scheduler_events_scheduler s l :
  length (filter (fun y => y = EvScheduler s) (map EvScheduler l)) = occurrences s l.
Proof.
  unfold occurrences. induction l as [|a l IH]; [done|].
  cbn [map]. rewrite !filter_cons.
  destruct (decide (a = s)) as [->|Hne].
  - rewrite decide_True by done. cbn [length]. by rewrite IH.
  - rewrite decide_False by congruence. done.
Qed.

Lemma scheduler_events_fn s l :
  length (filter (fun y => y = EvFn s) (map EvScheduler l)) = 0%nat.
Proof.
  induction l as [|a l IH]; [done|].
  cbn [map]. rewrite filter_cons. by rewrite decide_False by done.
Qed.

Lemma subscribers_update_computed c f st :
  (forall x, dep (f x) = dep x) ->
  subscribers c (update_computed c f st) = subscribers c st.
Proof.
  intros Hf. unfold subscribers, update_computed. cbn [computeds set_computeds].
  rewrite list_lookup_alter_eq. destruct (computeds st !! c) as [x|]; [ |done].
  cbn. by rewrite Hf.
Qed.

(** Subscribers with a reading scheduler, notified from outside of any
    effect: each scheduler is called, in the order of the set, and only
    the captured variables change. *)
Lemma triggerEffects_scheduled fuel es st :
  activeEffect st = None ->
  (forall s, s ∈ es -> scheduled_simple st s) ->
  exists st',
    triggerEffects (call_n (S fuel)) es st = Some (Normal VUndefined, st')
    /\ trace st' = trace st ++ map EvScheduler es
    /\ store st' = store st.
Proof.
  revert st. induction es as [|s es IH]; intros st Ha Hes.
  - exists st. cbn. by rewrite app_nil_r.
  - destruct (Hes s) as (z & p & Hz & Hs & Hp); [apply list_elem_of_here|].
    cbn [triggerEffects]. unfold triggerEffect. rewrite Hz, Ha.
    rewrite bool_decide_eq_false_2 by done. cbn [negb orb]. rewrite Hs.
    rewrite call_n_user, exec_simple by done. cbn [bindR ret].
    rewrite track_all_untracked by (right; exact Ha).
    set (st1 := set_vars _ (log (EvScheduler s) st)).
    destruct (IH st1) as (st' & Hrun & Htr & Hst); [exact Ha| |].
    { intros s' Hs'. destruct (Hes s') as (z' & p' & H1 & H2 & H3);
        [by apply list_elem_of_further|]. by exists z', p'. }
    exists st'. split; [exact Hrun|]. split; [ |by rewrite Hst].
    rewrite Htr. unfold st1. cbn [trace set_vars log map].
    by rewrite <- app_assoc.
Qed.

Section Scheduler.

Context (c : cid) (x : ComputedRefImpl) (y : ReactiveEffect) (st : State).
Hypothesis Hx : computeds st !! c = Some x.
Hypothesis Hy : effects st !! effect x = Some y.
Hypothesis Hsched : scheduler y = Some (ComputedScheduler c).
Hypothesis Hactive : activeEffect st <> Some (effect x).

Let e := effect x.

(** An upstream trigger calls the scheduler. *)
Lemma upstream_scheduler fuel :
  triggerEffect_n (S fuel) e st
  = bindR (computedScheduler (call_n fuel) c (log (EvScheduler e) st))
      (fun _ => ret VUndefined).
Proof using Hy Hsched Hactive.
  unfold triggerEffect_n, triggerEffect, e. rewrite Hy.
  rewrite bool_decide_eq_false_2 by congruence. cbn [negb orb].
  by rewrite Hsched, call_n_scheduler.
Qed.

Lemma upstream_dirty fuel :
  _dirty x = true ->
  triggerEffect_n (S fuel) e st = Some (Normal VUndefined, log (EvScheduler e) st).
Proof using Hx Hy Hsched Hactive.
  intros Hd. rewrite upstream_scheduler. unfold computedScheduler.
  cbn [computeds log]. by rewrite Hx, Hd.
Qed.

Lemma upstream_clean fuel :
  _dirty x = false ->
  triggerEffect_n (S fuel) e st
  = bindR (triggerEffects (call_n fuel) (subscribers c st)
             (update_computed c (with_dirty true) (log (EvScheduler e) st)))
      (fun _ => ret VUndefined).
Proof using Hx Hy Hsched Hactive.
  intros Hd. rewrite upstream_scheduler. unfold computedScheduler.
  cbn [computeds log]. rewrite Hx, Hd. cbn [negb]. unfold triggerRefValue.
  pose proof (subscribers_update_computed c (with_dirty true) (log (EvScheduler e) st)) as H.
  unfold subscribers in H at 1. unfold subscribers.
  cbn [computeds log] in *.
  change (computeds (update_computed c (with_dirty true) (log (EvScheduler e) st)))
    with (alter (with_dirty true) c (computeds st)) in *.
  rewrite list_lookup_alter_eq, Hx in *. cbn in *.
  by destruct (dep x).
Qed.

Lemma upstream_clean_scheduled fuel :
  _dirty x = false ->
  activeEffect st = None ->
  (forall s, s ∈ subscribers c st -> scheduled_simple st s) ->
  exists st',
    triggerEffect_n (S (S fuel)) e st = Some (Normal VUndefined, st')
    /\ trace st' = trace st ++ EvScheduler e :: map EvScheduler (subscribers c st)
    /\ store st' = store (update_computed c (with_dirty true) st).
Proof using Hx Hy Hsched Hactive.
  intros Hd Ha Hsubs. rewrite upstream_clean by done.
  destruct (triggerEffects_scheduled fuel (subscribers c st)
              (update_computed c (with_dirty true) (log (EvScheduler e) st)))
    as (st' & Hrun & Htr & Hst); [exact Ha|exact Hsubs|].
  exists st'. rewrite Hrun. split; [done|]. split; [ |exact Hst].
  rewrite Htr. cbn [trace update_computed set_computeds log].
  by rewrite <- app_assoc.
Qed.

End Scheduler.

(** C6: an upstream trigger reaching the effect [e] of the computed [c]
    from outside of that effect.  When [c] is dirty the scheduler returns
    at once: the state is the one of before (the call of the scheduler
    being recorded).  When [c] is clean the flag is set and the effects of
    the Dependency Set of [c] are triggered, in one pass over the set.  For
    subscribers with reading schedulers, notified from outside of any
    effect, each scheduler is called once per membership, [c] is left
    dirty and nothing else of the reactive state changes, so that a second
    upstream trigger calls no scheduler of a subscriber. *)
Theorem computed_scheduler_idempotent (fuel : nat) (c : cid) (x : ComputedRefImpl)
    (y : ReactiveEffect) (st : State) :
  computeds st !! c = Some x ->
  effects st !! effect x = Some y ->
  scheduler y = Some (ComputedScheduler c) ->
  activeEffect st <> Some (effect x) ->
  let e := effect x in
  (_dirty x = true ->
   triggerEffect_n (S fuel) e st = Some (Normal VUndefined, log (EvScheduler e) st))
  /\ (_dirty x = false ->
      triggerEffect_n (S fuel) e st
      = bindR (triggerEffects (call_n fuel) (subscribers c st)
                 (update_computed c (with_dirty true) (log (EvScheduler e) st)))
          (fun _ => ret VUndefined))
  /\ (_dirty x = false ->
      activeEffect st = None ->
      (forall s, s ∈ subscribers c st -> scheduled_simple st s) ->
      exists st',
        triggerEffect_n (S (S fuel)) e st = Some (Normal VUndefined, st')
        /\ trace st' = trace st ++ EvScheduler e :: map EvScheduler (subscribers c st)
        /\ store st' = store (update_computed c (with_dirty true) st)
        /\ triggerEffect_n (S fuel) e st'
           = Some (Normal VUndefined, log (EvScheduler e) st')).
Proof.
  intros Hx Hy Hs Ha e. split; [ |split].
  - by apply (upstream_dirty c x y).
  - by apply (upstream_clean c x y).
  - intros Hd Hnone Hsubs.
    destruct (upstream_clean_scheduled c x y st Hx Hy Hs Ha fuel Hd Hnone Hsubs)
      as (st' & Hrun & Htr & Hst).
    exists st'. split; [exact Hrun|]. split; [exact Htr|]. split; [exact Hst|].
    unfold store in Hst. injection Hst as _ _ _ Ha' _ _ He' Hc'.
    cbn [activeEffect effects computeds update_computed set_computeds] in Ha', He', Hc'.
    apply (upstream_dirty c (with_dirty true x) y).
    + by rewrite Hc', list_lookup_alter_eq, Hx.
    + cbn [effect with_dirty]. by rewrite He'.
    + exact Hs.
    + cbn [effect with_dirty]. by rewrite Ha'.
    + done.
Qed.

(** The theorem at [effect(() => c.value, { scheduler })] with
    [c = computed(() => obj.a)]: a first upstream trigger calls the
    schedulers of [c] and of the effect, a second one only that of [c]. *)
Lemma computed_scheduler_idempotent_witness :
  exists st',
    triggerEffect_n 2 0 Examples.watched_state = Some (Normal VUndefined, st')
    /\ trace st' = trace Examples.watched_state ++ [EvScheduler 0; EvScheduler 1]
    /\ triggerEffect_n 1 0 st' = Some (Normal VUndefined, log (EvScheduler 0) st').
Proof.
  destruct (computed_scheduler_idempotent 0 0
              (mkComputed (Some (mkDep [1%nat] 0 0)) (VNum 1) 0 true false true
                 (fun _ => Ret VUndefined))
              (mkEffect true [DLoc Examples.obj (KStr "a")] None (Some 0%nat) false
                 false None Examples.getter_body (Some (ComputedScheduler 0)))
              Examples.watched_state)
    as (_ & _ & H).
  - reflexivity.
  - reflexivity.
  - reflexivity.
  - vm_compute. discriminate.
  - destruct H as (st' & Hrun & Htr & _ & Hagain).
    + reflexivity.
    + reflexivity.
    + intros s Hs. apply list_elem_of_singleton in Hs. subst s.
      eexists _, _. split; [reflexivity|]. split; [reflexivity|]. constructor.
    + exists st'. split; [exact Hrun|]. split; [exact Htr|exact Hagain].
Defined.

(** *** Reading a computed: [trackRefValue] *)

Lemma dep_at_update_computed c f r st :
  (forall x, dep (f x) = dep x) -> dep_at r (update_computed c f st) = dep_at r st.
Proof.
  intros Hf. destruct r as [t k|c']; [done|].
  unfold dep_at, lookup_dep, update_computed. cbn [computeds set_computeds].
  destruct (decide (c = c')) as [<-|Hne].
  - rewrite list_lookup_alter_eq. destruct (computeds st !! c) as [x|]; [ |done].
    cbn. by rewrite Hf.
  - by rewrite list_lookup_alter_ne.
Qed.

Lemma cfields_update_computed c f st c' :
  c <> c' ->
  cfields <$> computeds (update_computed c f st) !! c' = cfields <$> computeds st !! c'.
Proof.
  intros Hne. unfold update_computed. cbn [computeds set_computeds].
  by rewrite list_lookup_alter_ne.
Qed.

Lemma dep_at_ensure_ref_dep c r st : dep_at r (ensure_ref_dep c st) = dep_at r st.
Proof.
  destruct r as [t k|c']; [done|].
  unfold dep_at, lookup_dep, ensure_ref_dep, update_computed.
  cbn [computeds set_computeds].
  destruct (decide (c = c')) as [<-|Hne].
  - rewrite list_lookup_alter_eq. destruct (computeds st !! c) as [x|]; [ |done].
    cbn. destruct (dep x) eqn:E; cbn; by rewrite ?E.
  - by rewrite list_lookup_alter_ne.
Qed.

Lemma lookup_dep_ensure_ref_dep c x st :
  computeds st !! c = Some x ->
  lookup_dep (DComputed c) (ensure_ref_dep c st) = Some (dep_at (DComputed c) st).
Proof.
  intros Hx. unfold dep_at, lookup_dep, ensure_ref_dep, update_computed.
  cbn [computeds set_computeds]. rewrite list_lookup_alter_eq, Hx. cbn.
  destruct (dep x) eqn:E; cbn; by rewrite ?E.
Qed.

Lemma cfields_ensure_ref_dep c st c' :
  cfields <$> computeds (ensure_ref_dep c st) !! c' = cfields <$> computeds st !! c'.
Proof.
  unfold ensure_ref_dep, update_computed. cbn [computeds set_computeds].
  destruct (decide (c = c')) as [<-|Hne].
  - rewrite list_lookup_alter_eq. destruct (computeds st !! c) as [x|]; [ |done].
    cbn. destruct (dep x) eqn:E; cbn; by rewrite ?E.
  - by rewrite list_lookup_alter_ne.
Qed.

Lemma trackRefValue_untracked c st :
  shouldTrack st = false \/ activeEffect st = None -> trackRefValue c st = st.
Proof.
  unfold trackRefValue. intros [-> | ->]; [done|]. by destruct (shouldTrack st).
Qed.

Lemma trackRefValue_context c st : context (trackRefValue c st) = context st.
Proof.
  unfold trackRefValue. destruct (shouldTrack st); [ |done].
  destruct (activeEffect st); [ |done]. by rewrite trackEffects_context.
Qed.

Lemma trackRefValue_cfields c st c' :
  cfields <$> computeds (trackRefValue c st) !! c' = cfields <$> computeds st !! c'.
Proof.
  unfold trackRefValue. destruct (shouldTrack st); [ |done].
  destruct (activeEffect st); [ |done].
  by rewrite trackEffects_cfields, cfields_ensure_ref_dep.
Qed.

Lemma trackRefValue_efields c st e' :
  efields <$> effects (trackRefValue c st) !! e' = efields <$> effects st !! e'.
Proof.
  unfold trackRefValue. destruct (shouldTrack st); [ |done].
  destruct (activeEffect st) as [e|] eqn:Ha; [ |done].
  destruct (lookup_dep (DComputed c) (ensure_ref_dep c st)) as [d|] eqn:Hl.
  - pose proof (trackEffects_effects (DComputed c) e d (ensure_ref_dep c st) Ha Hl) as H.
    cbv zeta in H. rewrite H.
    match goal with |- context [if ?b then _ else _] => destruct b end; [ |done].
    by apply efields_alter_deps.
  - unfold trackEffects. change (activeEffect (ensure_ref_dep c st)) with (activeEffect st).
    by rewrite Ha, Hl.
Qed.

(** A read of a computed by the running effect is not seen by another
    effect at another depth. *)
Lemma trackRefValue_same_for e d e' d' c st :
  tracking_ctx e d st -> e' <> e -> d' <> d ->
  same_for e' d' st (trackRefValue c st).
Proof.
  intros (Ha & Hs & Hd & Hbit & Hd0) He Hdd.
  unfold trackRefValue. rewrite Hs, Ha.
  set (st1 := ensure_ref_dep c st).
  destruct (computeds st !! c) as [x|] eqn:Hx.
  2:{ unfold trackEffects. change (activeEffect st1) with (activeEffect st). rewrite Ha.
      unfold lookup_dep, st1, ensure_ref_dep, update_computed.
      cbn [computeds set_computeds]. rewrite list_lookup_alter_eq, Hx. cbn.
      apply same_for_eq; [done|]. intros r.
      apply (dep_at_ensure_ref_dep c r st). }
  assert (Ha1 : activeEffect st1 = Some e) by done.
  pose proof (lookup_dep_ensure_ref_dep c x st Hx) as Hl1. fold st1 in Hl1.
  pose proof (trackEffects_dep (DComputed c) e _ st1 Ha1 Hl1) as Hdep.
  pose proof (trackEffects_dep_ne (DComputed c) e _ st1 Ha1 Hl1) as Hne.
  pose proof (trackEffects_effects (DComputed c) e _ st1 Ha1 Hl1) as Heff.
  cbv zeta in Hdep, Heff.
  change (effectTrackDepth st1) with (effectTrackDepth st) in Hdep, Heff.
  change (trackOpBit st1) with (trackOpBit st) in Hdep, Heff.
  change (effects st1) with (effects st) in Heff.
  rewrite Hd, Hbit in Hdep, Heff.
  split.
  - rewrite Heff. match goal with |- context [if ?b then _ else _] => destruct b end;
      [by rewrite list_lookup_alter_ne|done].
  - intros r. destruct (decide (DComputed c = r)) as [<-|Hr].
    + rewrite Hdep. cbn [members]. split.
      * match goal with |- context [if ?b then _ else _] => destruct b end; [ |done].
        by apply occurrences_set_add_ne.
      * intros Hd'. split; [ |done].
        destruct (Z.leb_spec d maxMarkerBits) as [Hle|Hgt]; cbn [andb]; [ |done].
        destruct (newTracked (dep_at (DComputed c) st) (shl 1 d)); cbn [negb]; [done|].
        unfold maxMarkerBits in *.
        rewrite !newTracked_testbit by lia. cbn [dep_n].
        rewrite shl_1 by lia. rewrite testbit_set by lia.
        rewrite bool_decide_eq_false_2 by congruence. apply orb_false_r.
    + rewrite Hne by done. unfold st1. rewrite dep_at_ensure_ref_dep.
      split; [done|]. intros _. done.
Qed.

Lemma listed_same_for e d st st' : same_for e d st st' -> listed e st -> listed e st'.
Proof.
  intros [He Hs] Hl r Hr. unfold deps_of. rewrite He. apply Hl.
  apply occurrences_pos. destruct (Hs r) as [<- _]. by apply occurrences_pos.
Qed.

Lemma length_efields (l l' : list ReactiveEffect) :
  (forall e, efields <$> l' !! e = efields <$> l !! e) -> length l' = length l.
Proof.
  intros H. apply Nat.le_antisymm; apply Nat.nlt_ge; intros Hlt.
  - specialize (H (length l)). rewrite (lookup_ge_None_2 l) in H by lia.
    destruct (lookup_lt_is_Some_2 l' _ Hlt) as [y Hy]. by rewrite Hy in H.
  - specialize (H (length l')). rewrite (lookup_ge_None_2 l') in H by lia.
    destruct (lookup_lt_is_Some_2 l _ Hlt) as [y Hy]. by rewrite Hy in H.
Qed.

Lemma walkParents_ext n st st' p e :
  (forall y, parent_of st' y = parent_of st y) ->
  walkParents n st' p e = walkParents n st p e.
Proof.
  intros H. revert p. induction n as [|n IH]; intros [y|]; cbn [walkParents]; try done.
  destruct (decide (y = e)); [done|]. by rewrite H, IH.
Qed.

Lemma inParentChain_efields st st' e :
  (forall y, efields <$> effects st' !! y = efields <$> effects st !! y) ->
  activeEffect st' = activeEffect st ->
  inParentChain st' e = inParentChain st e.
Proof.
  intros H Ha. unfold inParentChain. rewrite Ha, (length_efields _ _ H).
  apply walkParents_ext. intros y. unfold parent_of. specialize (H y).
  destruct (effects st' !! y) as [a|], (effects st !! y) as [b|]; cbn in *; try done.
  by injection H as _ -> _.
Qed.

(** *** A read of a dirty computed *)

Section ComputedRead.

Context (fuel : nat) (c : cid) (x : ComputedRefImpl) (y : ReactiveEffect) (st : State).
Hypothesis Hx : computeds st !! c = Some x.
Hypothesis Hy : effects st !! effect x = Some y.
Hypothesis Hactive : active y = true.
Hypothesis Hds : deferStop y = false.
Hypothesis Hp : simple (fn y).
Hypothesis Hchain : inParentChain st (effect x) = Some false.
Hypothesis Hdepth : 0 <= effectTrackDepth st.
Hypothesis Hbit : trackOpBit st = shl 1 (effectTrackDepth st).
Hypothesis Hlisted : listed (effect x) st.
Hypothesis Hclear : markers_clear (effectTrackDepth st + 1) st.
Hypothesis Hdirty : _dirty x = true.

Let e := effect x.
Let d := effectTrackDepth st + 1.
Let s_t := trackRefValue c st.
Let s_r := update_computed c (with_dirty false) s_t.
Let s_b := set_vars (fun _ => final_vars (fn y) (vars s_r))
             (track_all (reads (fn y) (vars s_r)) (log (EvFn e) (run_enter e s_r))).
Let s_x := run_exit e (shouldTrack s_r) s_b.

Lemma read_context_r : context s_r = context st.
Proof using Type. unfold s_r, s_t. apply trackRefValue_context. Qed.

Lemma read_depth_r : effectTrackDepth s_r = effectTrackDepth st.
Proof using Type. pose proof read_context_r as H. by injection H. Qed.

Lemma read_same_for_r : same_for e d st s_r.
Proof using Hchain Hdepth Hbit.
  apply (same_for_trans _ _ _ s_t).
  - unfold s_t.
    destruct (shouldTrack st) eqn:Hs; [ |rewrite trackRefValue_untracked; [apply same_for_refl|by left]].
    destruct (activeEffect st) as [a|] eqn:Ha;
      [ |rewrite trackRefValue_untracked; [apply same_for_refl|by right]].
    apply (trackRefValue_same_for a (effectTrackDepth st)); [done| |unfold d; lia].
    intros Heq. apply (inParentChain_not_active st (effect x) Hchain).
    rewrite Ha. f_equal. symmetry. exact Heq.
  - apply same_for_eq; [done|]. intros r. by apply dep_at_update_computed.
Qed.

Lemma read_effect_r : effects s_r !! e = Some y.
Proof using Hy Hchain Hdepth Hbit. destruct read_same_for_r as [-> _]. exact Hy. Qed.

Lemma read_listed_r : listed e s_r.
Proof using Hchain Hdepth Hbit Hlisted.
  apply (listed_same_for e d st); [apply read_same_for_r|exact Hlisted].
Qed.

Lemma read_clear_r : markers_clear (effectTrackDepth s_r + 1) s_r.
Proof using Hchain Hdepth Hbit Hclear.
  rewrite read_depth_r.
  apply (markers_clear_same_for e d st); [unfold d; lia|apply read_same_for_r|exact Hclear].
Qed.

Lemma read_chain_r : inParentChain s_r e = Some false.
Proof using Hchain.
  rewrite <- Hchain. apply inParentChain_efields.
  - intros a. apply (trackRefValue_efields c st a).
  - pose proof read_context_r as H. by injection H.
Qed.

Lemma read_computed_t :
  exists x1, computeds s_t !! c = Some x1 /\ cfields x1 = cfields x.
Proof using Hx.
  pose proof (trackRefValue_cfields c st c) as H. fold s_t in H. rewrite Hx in H.
  destruct (computeds s_t !! c) as [x1|]; [ |done].
  exists x1. split; [done|]. cbn [fmap option_fmap option_map] in H. congruence.
Qed.

Lemma read_run :
  run_n (S fuel) e s_r = Some (Normal (result (fn y) (vars st)), s_x).
Proof using Hy Hactive Hds Hp Hchain Hdepth Hbit Hlisted Hclear.
  replace (vars st) with (vars s_r) by (pose proof read_context_r as H; by injection H).
  apply (run_n_simple e y s_r); try done.
  - apply read_effect_r.
  - rewrite read_depth_r. exact Hdepth.
  - apply read_listed_r.
  - apply read_clear_r.
  - apply read_chain_r.
Qed.

Lemma read_trace_x : trace s_x = trace st ++ [EvFn e].
Proof using Type.
  unfold s_x. rewrite run_exit_trace.
  destruct (body_end_trace e s_r (fn y)) as [H _]. fold s_b in H. rewrite H.
  pose proof read_context_r as Hc. apply (f_equal snd) in Hc. f_equal. exact Hc.
Qed.

Lemma read_computed_x :
  cfields <$> computeds s_x !! c
  = Some (_value x, e, __v_isReadonly x, false, _cacheable x, _setter x).
Proof using Hx Hy Hchain Hdepth Hbit Hlisted Hclear.
  unfold s_x.
  assert (Hd_r : 0 <= effectTrackDepth s_r) by (rewrite read_depth_r; exact Hdepth).
  rewrite (run_exit_cfields e (effectTrackDepth s_r + 1)
             (add_all [] (map loc (reads (fn y) (vars s_r)))))
    by (apply (body_end_tracking e s_r Hd_r)
        || apply (body_end_subscribed e y s_r read_effect_r Hd_r read_listed_r read_clear_r)).
  unfold s_b. rewrite (body_end_cfields e s_r (fn y) c).
  unfold s_r, update_computed. cbn [computeds set_computeds].
  rewrite list_lookup_alter_eq.
  destruct read_computed_t as (x1 & -> & H1). destruct x1.
  unfold cfields in H1. cbn in H1. injection H1 as -> -> -> _ -> ->. done.
Qed.

(** The read runs the getter once, stores its value and leaves the
    computed clean. *)
Lemma read_dirty :
  exists st',
    get_value_n (S fuel) c st = Some (Normal (result (fn y) (vars st)), st')
    /\ trace st' = trace st ++ [EvFn e]
    /\ cfields <$> computeds st' !! c
       = Some (result (fn y) (vars st), e, __v_isReadonly x, false, _cacheable x,
               _setter x).
Proof using All.
  exists (update_computed c (with_value (result (fn y) (vars st))) s_x).
  assert (Hc : cfields <$> computeds
                 (update_computed c (with_value (result (fn y) (vars st))) s_x) !! c
               = Some (result (fn y) (vars st), e, __v_isReadonly x, false,
                       _cacheable x, _setter x)).
  { unfold update_computed. cbn [computeds set_computeds].
    rewrite list_lookup_alter_eq. pose proof read_computed_x as H.
    destruct (computeds s_x !! c) as [x3|]; [ |done]. destruct x3.
    unfold cfields in H. cbn in H. injection H as _ -> -> -> -> ->. done. }
  split; [ |split; [apply read_trace_x|exact Hc]].
  unfold get_value_n, get_value. rewrite Hx. cbv zeta. fold s_t.
  destruct read_computed_t as (x1 & Hx1 & Hf). rewrite Hx1.
  assert (Hd1 : _dirty x1 = true).
  { rewrite <- Hdirty. apply (f_equal (fun t => t.1.1.2)) in Hf. exact Hf. }
  assert (He1 : effect x1 = e).
  { apply (f_equal (fun t => t.1.1.1.1.2)) in Hf. exact Hf. }
  rewrite Hd1, He1. cbn [orb]. fold s_r. fold (run_n (S fuel) e s_r).
  rewrite read_run. cbn [bindR ret].
  destruct (computeds (update_computed c (with_value (result (fn y) (vars st))) s_x) !! c)
    as [x4|]; [ |done].
  apply (f_equal (fun o => (fun t => t.1.1.1.1.1) <$> o)) in Hc. cbn in Hc.
  by injection Hc as ->.
Qed.

End ComputedRead.

(** *** Construction, clean reads and upstream changes *)

Lemma computed_construct g s isSSR st :
  let r := computed_ g s isSSR st in
  let e := length (effects st) in
  r.1 = length (computeds st)
  /\ trace r.2 = trace st
  /\ cfields <$> computeds r.2 !! r.1
     = Some (VUndefined, e, match s with None => true | Some _ => false end, true,
             negb isSSR, match s with Some f => f | None => fun _ => Ret VUndefined end)
  /\ effects r.2 !! e
     = Some (mkEffect (negb isSSR) [] None (Some r.1) false false None g
               (Some (ComputedScheduler r.1))).
Proof.
  cbv zeta. unfold computed_, new_effect, update_effect.
  cbn [fst snd trace computeds effects set_computeds set_effects].
  split; [done|]. split; [done|]. split.
  - by rewrite list_lookup_middle.
  - rewrite list_lookup_alter_eq. by rewrite list_lookup_middle.
Qed.

Lemma read_clean call c x st :
  computeds st !! c = Some x -> _dirty x = false -> _cacheable x = true ->
  get_value call c st = Some (Normal (_value x), trackRefValue c st)
  /\ trace (trackRefValue c st) = trace st.
Proof.
  intros Hx Hd Hc. split.
  - unfold get_value. rewrite Hx. cbv zeta.
    pose proof (trackRefValue_cfields c st c) as H. rewrite Hx in H.
    destruct (computeds (trackRefValue c st) !! c) as [x1|] eqn:Hx1; [ |done].
    cbn [fmap option_fmap option_map] in H.
    assert (Hf : cfields x1 = cfields x) by congruence.
    assert (Hd1 : _dirty x1 = false).
    { rewrite <- Hd. apply (f_equal (fun t => t.1.1.2)) in Hf. exact Hf. }
    assert (Hc1 : _cacheable x1 = true).
    { rewrite <- Hc. apply (f_equal (fun t => t.1.2)) in Hf. exact Hf. }
    assert (Hv1 : _value x1 = _value x).
    { apply (f_equal (fun t => t.1.1.1.1.1)) in Hf. exact Hf. }
    rewrite Hd1, Hc1. cbn [orb negb bindR ret]. by rewrite Hx1, Hv1.
  - pose proof (trackRefValue_context c st) as H. by apply (f_equal snd) in H.
Qed.

(** A read that finds the effect of the computed inactive (a computed
    that does not cache): the getter is called in the context of the
    reader. *)
Lemma read_inactive fuel c x y st :
  computeds st !! c = Some x ->
  effects st !! effect x = Some y ->
  active y = false -> simple (fn y) ->
  _dirty x = true \/ _cacheable x = false ->
  exists st',
    get_value_n (S fuel) c st = Some (Normal (result (fn y) (vars st)), st')
    /\ trace st' = trace st ++ [EvFn (effect x)]
    /\ cfields <$> computeds st' !! c
       = Some (result (fn y) (vars st), effect x, __v_isReadonly x, false,
               _cacheable x, _setter x).
Proof.
  intros Hx Hy Ha Hp Hd.
  destruct (read_computed_t c x st Hx) as (x1 & Hx1 & Hf).
  pose proof (trackRefValue_context c st) as Hctx.
  pose proof (trackRefValue_efields c st (effect x)) as He. rewrite Hy in He.
  set (s_t := trackRefValue c st) in *.
  set (s_r := update_computed c (with_dirty false) s_t).
  set (v := result (fn y) (vars st)).
  set (s_b := set_vars (fun _ => final_vars (fn y) (vars st))
                (track_all (reads (fn y) (vars st)) (log (EvFn (effect x)) s_r))).
  assert (Hvars : vars s_t = vars st).
  { unfold context in Hctx. by injection Hctx. }
  assert (Htrace : trace s_t = trace st) by by apply (f_equal snd) in Hctx.
  assert (Hrun : run_n (S fuel) (effect x) s_r = Some (Normal v, s_b)).
  { unfold run_n, run. change (effects s_r) with (effects s_t).
    destruct (effects s_t !! effect x) as [y1|]; [ |done].
    cbn [fmap option_fmap option_map] in He.
    assert (Hey : efields y1 = efields y) by congruence.
    assert (Ha1 : active y1 = false).
    { rewrite <- Ha. apply (f_equal (fun t => t.1.1.1.1.1.1.1)) in Hey. exact Hey. }
    assert (Hfn : fn y1 = fn y).
    { apply (f_equal (fun t => t.1.2)) in Hey. exact Hey. }
    rewrite Ha1, Hfn. cbn [negb]. rewrite call_n_user, exec_simple by done.
    change (vars (log (EvFn (effect x)) s_r)) with (vars s_t). by rewrite Hvars. }
  assert (Hc : cfields <$> computeds (update_computed c (with_value v) s_b) !! c
               = Some (v, effect x, __v_isReadonly x, false, _cacheable x, _setter x)).
  { unfold update_computed at 1. cbn [computeds set_computeds].
    rewrite list_lookup_alter_eq.
    pose proof (track_all_cfields (reads (fn y) (vars st))
                  (log (EvFn (effect x)) s_r) c) as H.
    change (computeds (track_all (reads (fn y) (vars st)) (log (EvFn (effect x)) s_r)))
      with (computeds s_b) in H.
    change (computeds (log (EvFn (effect x)) s_r))
      with (alter (with_dirty false) c (computeds s_t)) in H.
    rewrite list_lookup_alter_eq, Hx1 in H.
    destruct (computeds s_b !! c) as [x3|]; [ |done]. destruct x3, x1.
    unfold cfields in H, Hf. cbn in H, Hf.
    injection Hf as _ <- <- _ <- <-. injection H as _ -> -> -> -> ->. done. }
  exists (update_computed c (with_value v) s_b). split; [ |split; [ |exact Hc]].
  - unfold get_value_n, get_value. rewrite Hx. cbv zeta. fold s_t. rewrite Hx1.
    assert (Hcond : _dirty x1 || negb (_cacheable x1) = true).
    { assert (H1 : _dirty x1 = _dirty x)
        by (apply (f_equal (fun t => t.1.1.2)) in Hf; exact Hf).
      assert (H2 : _cacheable x1 = _cacheable x)
        by (apply (f_equal (fun t => t.1.2)) in Hf; exact Hf).
      rewrite H1, H2. destruct Hd as [-> | ->]; [done|apply orb_true_r]. }
    assert (He1 : effect x1 = effect x)
      by (apply (f_equal (fun t => t.1.1.1.1.2)) in Hf; exact Hf).
    rewrite Hcond, He1. fold s_r. fold (run_n (S fuel) (effect x) s_r).
    rewrite Hrun. cbn [bindR ret].
    destruct (computeds (update_computed c (with_value v) s_b) !! c) as [x4|]; [ |done].
    apply (f_equal (fun o => (fun t => t.1.1.1.1.1) <$> o)) in Hc. cbn in Hc.
    by injection Hc as ->.
  - cbn [trace update_computed set_computeds]. unfold s_b. cbn [trace set_vars].
    pose proof (track_all_context (reads (fn y) (vars st)) (log (EvFn (effect x)) s_r)) as H.
    apply (f_equal snd) in H. cbn [snd context] in H. rewrite H.
    cbn [trace log]. change (trace s_r) with (trace s_t). by rewrite Htrace.
Qed.

Lemma upstream_change fuel c x y st t ty k nv :
  computeds st !! c = Some x ->
  effects st !! effect x = Some y ->
  scheduler y = Some (ComputedScheduler c) ->
  _dirty x = false ->
  activeEffect st = None ->
  (forall s, s ∈ subscribers c st -> scheduled_simple st s) ->
  trigger_targets t ty k nv st = Some [effect x] ->
  exists st',
    trigger_n (S (S fuel)) t ty k nv st = Some (Normal VUndefined, st')
    /\ (forall s, calls_of (EvFn s) st' = calls_of (EvFn s) st)
    /\ _dirty <$> computeds st' !! c = Some true.
Proof.
  intros Hx Hy Hs Hd Ha Hsubs Ht.
  destruct (upstream_clean_scheduled c x y st Hx Hy Hs) with (fuel := fuel)
    as (st' & Hrun & Htr & Hst); [by rewrite Ha|done|done|done|].
  exists st'. split; [ |split].
  - unfold trigger_n. rewrite trigger_eq, Ht. cbn [triggerEffects].
    fold (triggerEffect_n (S (S fuel)) (effect x) st). by rewrite Hrun.
  - intros s. rewrite (calls_of_app _ st st' _ Htr).
    change (EvScheduler (effect x) :: map EvScheduler (subscribers c st))
      with (map EvScheduler (effect x :: subscribers c st)).
    rewrite scheduler_events_fn. lia.
  - unfold store in Hst. apply (f_equal snd) in Hst. cbn [snd] in Hst. rewrite Hst.
    unfold update_computed. cbn [computeds set_computeds].
    by rewrite list_lookup_alter_eq, Hx.
Qed.

(** C5: [computed] builds the object and its effect without calling
    anything: the computed starts dirty, with the getter as the body of its
    effect.  A read of a dirty computed whose (reading) getter is not
    running calls the getter exactly once, returns its result and leaves it
    as the cached value of a clean computed; when the effect of the
    computed is inactive, as it is for a computed that does not cache, a
    read of a computed that is dirty or does not cache calls the getter
    once, in the context of the reader.  A read of a clean, cacheable
    computed calls nothing and returns the cached value.  A write reaching
    the effect of a clean computed from outside of any effect marks the
    computed dirty without calling any body, so that the read after it is
    again a read of a dirty computed. *)
Theorem computed_reads_lazily :
  (forall g s isSSR st,
      let r := computed_ g s isSSR st in
      trace r.2 = trace st
      /\ cfields <$> computeds r.2 !! r.1
         = Some (VUndefined, length (effects st),
                 match s with None => true | Some _ => false end, true, negb isSSR,
                 match s with Some f => f | None => fun _ => Ret VUndefined end)
      /\ effects r.2 !! length (effects st)
         = Some (mkEffect (negb isSSR) [] None (Some r.1) false false None g
                   (Some (ComputedScheduler r.1))))
  /\ (forall fuel c x y st,
         computeds st !! c = Some x ->
         effects st !! effect x = Some y ->
         active y = true -> deferStop y = false -> simple (fn y) ->
         inParentChain st (effect x) = Some false ->
         0 <= effectTrackDepth st ->
         trackOpBit st = shl 1 (effectTrackDepth st) ->
         listed (effect x) st ->
         markers_clear (effectTrackDepth st + 1) st ->
         _dirty x = true ->
         exists st',
           get_value_n (S fuel) c st = Some (Normal (result (fn y) (vars st)), st')
           /\ (forall ev, calls_of ev st'
                          = (calls_of ev st
                             + if decide (EvFn (effect x) = ev) then 1 else 0)%nat)
           /\ cfields <$> computeds st' !! c
              = Some (result (fn y) (vars st), effect x, __v_isReadonly x, false,
                      _cacheable x, _setter x))
  /\ (forall fuel c x y st,
         computeds st !! c = Some x ->
         effects st !! effect x = Some y ->
         active y = false -> simple (fn y) ->
         _dirty x = true \/ _cacheable x = false ->
         exists st',
           get_value_n (S fuel) c st = Some (Normal (result (fn y) (vars st)), st')
           /\ (forall ev, calls_of ev st'
                          = (calls_of ev st
                             + if decide (EvFn (effect x) = ev) then 1 else 0)%nat))
  /\ (forall call c x st,
         computeds st !! c = Some x -> _dirty x = false -> _cacheable x = true ->
         get_value call c st = Some (Normal (_value x), trackRefValue c st)
         /\ trace (trackRefValue c st) = trace st)
  /\ (forall fuel c x y st t ty k nv,
         computeds st !! c = Some x ->
         effects st !! effect x = Some y ->
         scheduler y = Some (ComputedScheduler c) ->
         _dirty x = false ->
         activeEffect st = None ->
         (forall s, s ∈ subscribers c st -> scheduled_simple st s) ->
         trigger_targets t ty k nv st = Some [effect x] ->
         exists st',
           trigger_n (S (S fuel)) t ty k nv st = Some (Normal VUndefined, st')
           /\ (forall s, calls_of (EvFn s) st' = calls_of (EvFn s) st)
           /\ _dirty <$> computeds st' !! c = Some true).
Proof.
  split; [ |split; [ |split; [ |split]]].
  - intros g s isSSR st r.
    destruct (computed_construct g s isSSR st) as (_ & H1 & H2 & H3). by repeat split.
  - intros fuel c x y st Hx Hy Ha Hds Hp Hch Hd Hb Hl Hm Hdirty.
    destruct (read_dirty fuel c x y st Hx Hy Ha Hds Hp Hch Hd Hb Hl Hm Hdirty)
      as (st' & Hrun & Htr & Hc).
    exists st'. split; [exact Hrun|]. split; [ |exact Hc].
    intros ev. by apply calls_of_snoc.
  - intros fuel c x y st Hx Hy Ha Hp Hd.
    destruct (read_inactive fuel c x y st Hx Hy Ha Hp Hd) as (st' & Hrun & Htr & _).
    exists st'. split; [exact Hrun|]. intros ev. by apply calls_of_snoc.
  - apply read_clean.
  - apply upstream_change.
Qed.

(** The theorem at [c = computed(() => obj.a)]: the first read calls the
    getter once; a read of [c] once clean (in the state where an effect
    has read it) returns the cached value; a write to [obj.a] marks [c]
    dirty without calling the getter. *)
Lemma computed_reads_lazily_witness :
  (exists st',
      get_value_n 1 0 Examples.computed_state = Some (Normal (VNum 1), st')
      /\ calls_of (EvFn 0) st' = 1%nat)
  /\ get_value (call_n 0) 0 Examples.watched_state
     = Some (Normal (VNum 1), trackRefValue 0 Examples.watched_state)
  /\ exists st',
      trigger_n 2 Examples.obj SET (Some (KStr "a")) (VNum 2) Examples.watched_state
      = Some (Normal VUndefined, st')
      /\ calls_of (EvFn 0) st' = calls_of (EvFn 0) Examples.watched_state
      /\ _dirty <$> computeds st' !! 0%nat = Some true.
Proof.
  destruct computed_reads_lazily as (_ & Hdirty & _ & Hclean & Hup).
  split; [ |split].
  - destruct (Hdirty 0%nat 0%nat
                (mkComputed None VUndefined 0 true true true (fun _ => Ret VUndefined))
                (mkEffect true [] None (Some 0%nat) false false None
                   Examples.getter_body (Some (ComputedScheduler 0)))
                Examples.computed_state) as (st' & Hrun & Hcalls & _).
    + reflexivity.
    + reflexivity.
    + reflexivity.
    + reflexivity.
    + constructor. constructor. intros v. constructor.
    + reflexivity.
    + vm_compute. discriminate.
    + reflexivity.
    + apply listed_b_sound. vm_compute. reflexivity.
    + apply markers_clear_b_sound. vm_compute. reflexivity.
    + reflexivity.
    + exists st'. split; [exact Hrun|]. exact (Hcalls (EvFn 0)).
  - apply (Hclean (call_n 0) 0%nat
             (mkComputed (Some (mkDep [1%nat] 0 0)) (VNum 1) 0 true false true
                (fun _ => Ret VUndefined))
             Examples.watched_state); reflexivity.
  - destruct (Hup 0%nat 0%nat
                (mkComputed (Some (mkDep [1%nat] 0 0)) (VNum 1) 0 true false true
                   (fun _ => Ret VUndefined))
                (mkEffect true [DLoc Examples.obj (KStr "a")] None (Some 0%nat) false
                   false None Examples.getter_body (Some (ComputedScheduler 0)))
                Examples.watched_state Examples.obj SET (Some (KStr "a")) (VNum 2))
      as (st' & Hrun & Hcalls & Hd).
    + reflexivity.
    + reflexivity.
    + reflexivity.
    + reflexivity.
    + reflexivity.
    + intros s Hs. apply list_elem_of_singleton in Hs. subst s.
      eexists _, _. split; [reflexivity|]. split; [reflexivity|]. constructor.
    + reflexivity.
    + exists st'. split; [exact Hrun|]. split; [exact (Hcalls 0%nat)|exact Hd].
Defined.
